(** * wwm-autobard: note mapping, transposition, song compilation,
      key emulation and playback control, embedded from the Python sources.

    Conventions of the embedding:
    - Python [int] is [Z]; [//] and [%] by a positive constant are [Z.div]
      and [Z.modulo] (both floor).
    - Python [float] values (time deltas, range centres) are exact rationals
      [Q]; comparisons are the rational ones and [round] is round-half-to-even.
      Rounding inside float additions is not modelled.
    - A dictionary lookup that may raise [KeyError], and an [array('B')]
      append that may raise [OverflowError], return a [result].
    - A constructor or a call whose only failure is one uncaught exception
      ([ValueError] of [NoteEvent], [RuntimeError] of the keyboard service)
      returns an [option]. *)

From Stdlib Require Import ZArith QArith Qround Bool String List Lia Lqa.
From ExtLib Require Import Structures.Monad.
From Equations Require Import Equations.
Import ListNotations.
Import MonadNotation.
Open Scope monad_scope.
Open Scope Z_scope.

(** ** Exceptions *)

Inductive exn : Type := KeyError | OverflowError | IndexError.

Inductive result (A : Type) : Type :=
| Ok (a : A)
| Raise (e : exn).
Arguments Ok {A} a.
Arguments Raise {A} e.

Definition result_bind {A B : Type} (r : result A) (k : A -> result B)
  : result B :=
  match r with
  | Ok a => k a
  | Raise e => Raise e
  end.

#[export] Instance Monad_result : Monad result :=
  {| ret := @Ok; bind := @result_bind |}.

(** ** models/enums.py *)

Inductive Pitch : Type := HIGH | MID | LOW.

Inductive NoteName : Type := DO | RE | MI | FA | SOL | LA | TI.

(** The integer value of each [NoteName] member (the Jianpu degree). *)
Definition NoteName_value (n : NoteName) : Z :=
  match n with
  | DO => 1 | RE => 2 | MI => 3 | FA => 4 | SOL => 5 | LA => 6 | TI => 7
  end.

Inductive Accidental : Type := NATURAL | SHARP | FLAT.

Inductive PlaybackState : Type := READY | PLAYING | PAUSED | STOPPED.

Definition NoteName_eqb (a b : NoteName) : bool :=
  NoteName_value a =? NoteName_value b.

(** ** models/note.py *)

Record KeyPress : Type := mkKeyPress {
  key : string;
  modifiers : list string
}.

Record GameNote : Type := mkGameNote {
  pitch : Pitch;
  name : NoteName;
  accidental : Accidental
}.

Record NoteEvent : Type := mkNoteEvent {
  note : Z;
  velocity : Z;
  time_delta : Q;
  is_note_on : bool
}.

(** The bounds [NoteEvent.__post_init__] enforces. *)
Definition NoteEvent_valid (e : NoteEvent) : Prop :=
  0 <= note e <= 127 /\ 0 <= velocity e <= 127 /\ (0 <= time_delta e)%Q.

(** ** models/mapping_table.py *)

Definition NATURAL_KEYS (p : Pitch) (n : NoteName) : option string :=
  Some (match p, n with
        | HIGH, DO => "q" | HIGH, RE => "w" | HIGH, MI => "e" | HIGH, FA => "r"
        | HIGH, SOL => "t" | HIGH, LA => "y" | HIGH, TI => "u"
        | MID, DO => "a" | MID, RE => "s" | MID, MI => "d" | MID, FA => "f"
        | MID, SOL => "g" | MID, LA => "h" | MID, TI => "j"
        | LOW, DO => "z" | LOW, RE => "x" | LOW, MI => "c" | LOW, FA => "v"
        | LOW, SOL => "b" | LOW, LA => "n" | LOW, TI => "m"
        end)%string.

Definition SHARP_KEYS (p : Pitch) (n : NoteName) : option string :=
  match p, n with
  | HIGH, DO => Some "q" | HIGH, FA => Some "r" | HIGH, SOL => Some "t"
  | MID, DO => Some "a" | MID, FA => Some "f" | MID, SOL => Some "g"
  | LOW, DO => Some "z" | LOW, FA => Some "v" | LOW, SOL => Some "b"
  | _, _ => None
  end%string.

Definition FLAT_KEYS (p : Pitch) (n : NoteName) : option string :=
  match p, n with
  | HIGH, MI => Some "e" | HIGH, TI => Some "u"
  | MID, MI => Some "d" | MID, TI => Some "j"
  | LOW, MI => Some "c" | LOW, TI => Some "m"
  | _, _ => None
  end%string.

Definition SHARPS_SUPPORTED : list NoteName := [DO; FA; SOL].
Definition FLATS_SUPPORTED : list NoteName := [MI; TI].

(** [name in S] for a frozenset of enum members. *)
Definition name_in (n : NoteName) (s : list NoteName) : bool :=
  existsb (NoteName_eqb n) s.

(** A subscript [table[pitch][name]]: a missing key raises [KeyError]. *)
Definition subscript {A : Type} (o : option A) : result A :=
  match o with
  | Some a => Ok a
  | None => Raise KeyError
  end.

(** [l[index]] on a Python list: a negative index counts from the end, an
    index out of range raises [IndexError]. *)
Definition py_index {A : Type} (l : list A) (index : Z) : result A :=
  let n := Z.of_nat (length l) in
  let k := if index <? 0 then index + n else index in
  if (0 <=? k) && (k <? n) then
    match nth_error l (Z.to_nat k) with
    | Some a => Ok a
    | None => Raise IndexError
    end
  else Raise IndexError.

(** [range(lo, hi)]. *)
Definition py_range (lo hi : Z) : list Z :=
  map (fun k => lo + Z.of_nat k) (seq 0 (Z.to_nat (hi - lo))).

(** [x < y] on floats. *)
Definition Qlt_bool (x y : Q) : bool := negb (Qle_bool y x).

(** [max(a, b)] on floats. *)
Definition py_max (a b : Q) : Q := if Qlt_bool a b then b else a.

(** [min(a, b)] on floats. *)
Definition py_min (a b : Q) : Q := if Qlt_bool b a then b else a.


(** [NoteEvent.__post_init__]: [false] when it raises [ValueError]. *)
Definition __post_init__ (e : NoteEvent) : bool :=
  (0 <=? note e) && (note e <=? 127)
  && ((0 <=? velocity e) && (velocity e <=? 127))
  && negb (Qlt_bool (time_delta e) 0).

(** [NoteEvent(note=..., velocity=..., time_delta=..., is_note_on=...)]:
    [None] when the constructor raises. *)
Definition NoteEvent_init (n v : Z) (t : Q) (on : bool) : option NoteEvent :=
  let e := mkNoteEvent n v t on in
  if __post_init__ e then Some e else None.

(** ** core/note_converter.py *)

Module NoteConverter.

Definition SEMITONE_TO_NOTE (semitone : Z) : option (NoteName * Accidental) :=
  match semitone with
  | 0 => Some (DO, NATURAL)
  | 1 => Some (DO, SHARP)
  | 2 => Some (RE, NATURAL)
  | 3 => Some (MI, FLAT)
  | 4 => Some (MI, NATURAL)
  | 5 => Some (FA, NATURAL)
  | 6 => Some (FA, SHARP)
  | 7 => Some (SOL, NATURAL)
  | 8 => Some (SOL, SHARP)
  | 9 => Some (LA, NATURAL)
  | 10 => Some (TI, FLAT)
  | 11 => Some (TI, NATURAL)
  | _ => None
  end.

Definition GAME_MIN_MIDI : Z := 48.
Definition GAME_MAX_MIDI : Z := 83.
Definition GAME_RANGE : Z := GAME_MAX_MIDI - GAME_MIN_MIDI + 1.

Section Converter.
(** The constructor argument, 4 by default. *)
Variable base_octave : Z.

Definition min_midi_note : Z := base_octave * 12.
Definition max_midi_note : Z := (base_octave + 3) * 12 - 1.

Definition clamp (midi_note : Z) : Z :=
  Z.max min_midi_note (Z.min midi_note max_midi_note).

Definition convert (midi_note : Z) : result GameNote :=
  let clamped_note := clamp midi_note in
  let octave := clamped_note / 12 in
  let semitone := clamped_note mod 12 in
  let octave_offset := octave - base_octave in
  let pitch :=
    if octave_offset <=? 0 then LOW
    else if octave_offset =? 1 then MID
    else HIGH in
  na <- subscript (SEMITONE_TO_NOTE semitone) ;;
  Ok (mkGameNote pitch (fst na) (snd na)).

Definition is_in_range (midi_note : Z) : bool :=
  (min_midi_note <=? midi_note) && (midi_note <=? max_midi_note).

Definition get_range : Z * Z := (min_midi_note, max_midi_note).
End Converter.

Definition default_base_octave : Z := 4.

End NoteConverter.

(** ** core/key_mapping.py *)

Module KeyMapper.

Definition _get_natural_key (p : Pitch) (n : NoteName) : result KeyPress :=
  k <- subscript (NATURAL_KEYS p n) ;;
  Ok (mkKeyPress k []).

Definition _get_sharp_key (p : Pitch) (n : NoteName) : result KeyPress :=
  if negb (name_in n SHARPS_SUPPORTED) then _get_natural_key p n
  else k <- subscript (SHARP_KEYS p n) ;;
       Ok (mkKeyPress k ["shift"%string]).

Definition _get_flat_key (p : Pitch) (n : NoteName) : result KeyPress :=
  if negb (name_in n FLATS_SUPPORTED) then _get_natural_key p n
  else k <- subscript (FLAT_KEYS p n) ;;
       Ok (mkKeyPress k ["ctrl"%string]).

Definition get_key_press (game_note : GameNote) : result KeyPress :=
  match accidental game_note with
  | SHARP => _get_sharp_key (pitch game_note) (name game_note)
  | FLAT => _get_flat_key (pitch game_note) (name game_note)
  | NATURAL => _get_natural_key (pitch game_note) (name game_note)
  end.

Definition is_accidental_supported (n : NoteName) (a : Accidental) : bool :=
  match a with
  | NATURAL => true
  | SHARP => name_in n SHARPS_SUPPORTED
  | FLAT => name_in n FLATS_SUPPORTED
  end.

End KeyMapper.

(** ** core/transposer.py *)

Module Transposer.

(** Python's [round(x)]: nearest integer, ties to the even one. *)
Definition py_round (x : Q) : Z :=
  let f := Qfloor x in
  match Qcompare (x - inject_Z f) (1 # 2) with
  | Lt => f
  | Gt => f + 1
  | Eq => if Z.even f then f else f + 1
  end.

(** [min(l)] and [max(l)] of a list known to start with [x]. *)
Definition list_min (x : Z) (l : list Z) : Z := fold_left Z.min l x.
Definition list_max (x : Z) (l : list Z) : Z := fold_left Z.max l x.

(** [sum(1 for n in notes if lo <= n <= hi)]. *)
Definition count_between (notes : list Z) (lo hi : Z) : Z :=
  Z.of_nat (length (filter (fun n => (lo <=? n) && (n <=? hi)) notes)).

Section Instance_.
(** Constructor arguments, [GAME_MIN_MIDI] and [GAME_MAX_MIDI] by
    default. *)
Variables _game_min _game_max : Z.

Definition _game_range : Z := _game_max - _game_min + 1.

(** The centres are halves of integers, which a float holds exactly for
    pitches of MIDI size, so the rational arithmetic below is the float
    arithmetic of the source. *)
Definition calculate_offset (note_range : Z * Z) : Z :=
  let '(song_min, song_max) := note_range in
  let song_range := song_max - song_min + 1 in
  if (song_min >=? _game_min) && (song_max <=? _game_max) then 0
  else
    let song_center := (inject_Z (song_min + song_max) / 2)%Q in
    let game_center := (inject_Z (_game_min + _game_max) / 2)%Q in
    let raw_offset := (game_center - song_center)%Q in
    if song_range <=? _game_range then
      let octave_offset := py_round (raw_offset / 12) * 12 in
      let shifted_min := song_min + octave_offset in
      let shifted_max := song_max + octave_offset in
      if (shifted_min >=? _game_min) && (shifted_max <=? _game_max)
      then octave_offset
      else py_round raw_offset
    else py_round raw_offset.

(** One iteration of the sliding-window loop. *)
Definition window_step (notes : list Z) (best : Z * Z) (start : Z)
  : Z * Z :=
  let '(best_start, best_count) := best in
  let end_ := start + NoteConverter.GAME_RANGE - 1 in
  let count := count_between notes start end_ in
  if count >? best_count then (start, count) else (best_start, best_count).

Definition find_best_window (events : list NoteEvent) : Z * Z :=
  let note_on_events := filter is_note_on events in
  match map note note_on_events with
  | [] => (_game_min, 0)
  | n0 :: rest =>
      let notes := n0 :: rest in
      let min_note := list_min n0 rest in
      let max_note := list_max n0 rest in
      if max_note - min_note <? NoteConverter.GAME_RANGE
      then (min_note, Z.of_nat (length notes))
      else
        fold_left (window_step notes)
          (py_range min_note (max_note - NoteConverter.GAME_RANGE + 2))
          (min_note, 0)
  end.

(** The loop of [filter_to_window], over the events still to visit. *)
Fixpoint filter_loop (window_start window_end : Z)
    (events : list NoteEvent) (accumulated_time : Q)
    (filtered : list NoteEvent) : list NoteEvent :=
  match events with
  | [] => filtered
  | event :: rest =>
      if negb (is_note_on event)
      then filter_loop window_start window_end rest accumulated_time
             filtered
      else
        let accumulated_time := (accumulated_time + time_delta event)%Q in
        if (window_start <=? note event) && (note event <=? window_end)
        then filter_loop window_start window_end rest 0%Q
               (filtered ++
                [mkNoteEvent (note event) (velocity event)
                   accumulated_time true])
        else filter_loop window_start window_end rest accumulated_time
               filtered
  end.

Definition filter_to_window (events : list NoteEvent) (window_start : Z)
  : list NoteEvent :=
  let window_end := window_start + NoteConverter.GAME_RANGE - 1 in
  filter_loop window_start window_end events 0%Q [].
(** The loop of [apply_transpose]; [None] when a [NoteEvent] constructor
    raises. *)
Fixpoint transpose_loop (events : list NoteEvent) (offset : Z)
    (transposed : list NoteEvent) : option (list NoteEvent) :=
  match events with
  | [] => Some transposed
  | event :: rest =>
      let new_note := Z.max 0 (Z.min 127 (note event + offset)) in
      match
        NoteEvent_init new_note (velocity event) (time_delta event)
          (is_note_on event)
      with
      | Some e => transpose_loop rest offset (transposed ++ [e])
      | None => None
      end
  end.

Definition apply_transpose (events : list NoteEvent) (offset : Z)
  : option (list NoteEvent) :=
  if offset =? 0 then Some events else transpose_loop events offset [].

(** The loop of [get_out_of_range_count]. *)
Fixpoint out_of_range_loop (events : list NoteEvent) (offset : Z)
    (below above : Z) : Z * Z :=
  match events with
  | [] => (below, above)
  | event :: rest =>
      if negb (is_note_on event)
      then out_of_range_loop rest offset below above
      else
        let note := note event + offset in
        if note <? _game_min
        then out_of_range_loop rest offset (below + 1) above
        else if note >? _game_max
        then out_of_range_loop rest offset below (above + 1)
        else out_of_range_loop rest offset below above
  end.

Definition get_out_of_range_count (events : list NoteEvent) (offset : Z)
  : Z * Z :=
  out_of_range_loop events offset 0 0.

(** The dictionary [analyze_range] returns; [range_] is its ["range"]
    entry. *)
Record analysis : Type := mkAnalysis {
  min_note : Z;
  max_note : Z;
  range_ : Z;
  fits_in_game : bool;
  recommended_offset : Z
}.

Definition analyze_range (events : list NoteEvent) : analysis :=
  match events with
  | [] => mkAnalysis 0 0 0 true 0
  | _ :: _ =>
      let note_on_events := filter is_note_on events in
      match map note note_on_events with
      | [] => mkAnalysis 0 0 0 true 0
      | n0 :: rest =>
          let min_note := list_min n0 rest in
          let max_note := list_max n0 rest in
          let note_range := max_note - min_note + 1 in
          let offset := calculate_offset (min_note, max_note) in
          let fits := note_range <=? _game_range in
          mkAnalysis min_note max_note note_range fits offset
      end
  end.
End Instance_.

End Transposer.

(** ** core/compiled_song.py *)

Module CompiledSong.

Record CompiledNote : Type := mkCompiledNote {
  cn_key : string;
  cn_modifiers : list string;
  cn_time_delta : Q;
  cn_velocity : Z;
  cn_is_chord_start : bool;
  cn_chord_size : Z
}.

(** The mutable [CompiledSong] object.  [except_taken] is not a field of
    the class: it counts how often the [except Exception: pass] branch of
    [compile] has run, so that statements can speak of it. *)
Record t : Type := mkSong {
  notes : list CompiledNote;
  total_notes : Z;
  duration : Q;
  density_map : list Q;
  _time_deltas : list Q;
  _velocities : list Z;
  _chord_sizes : list Z;
  except_taken : nat
}.

Definition __init__ : t := mkSong [] 0 0%Q [] [] [] [] 0%nat.

(** Statements that mutate the song and may raise: the mutations made
    before a raise stay. *)
Definition M (A : Type) : Type := t -> result A * t.

Definition M_bind {A B : Type} (c : M A) (k : A -> M B) : M B :=
  fun s =>
    match c s with
    | (Ok a, s') => k a s'
    | (Raise e, s') => (Raise e, s')
    end.

#[export] Instance Monad_M : Monad M :=
  {| ret := fun A a s => (Ok a, s); bind := @M_bind |}.

Definition lift {A : Type} (r : result A) : M A := fun s => (r, s).

(** [array('B').append(x)]: an unsigned byte, else [OverflowError]. *)
Definition array_B_append (a : list Z) (x : Z) : result (list Z) :=
  if (0 <=? x) && (x <=? 255) then Ok (a ++ [x]) else Raise OverflowError.

Definition notes_append (c : CompiledNote) : M unit :=
  fun s =>
    (Ok tt,
     mkSong (notes s ++ [c]) (total_notes s) (duration s) (density_map s)
       (_time_deltas s) (_velocities s) (_chord_sizes s) (except_taken s)).

Definition _time_deltas_append (x : Q) : M unit :=
  fun s =>
    (Ok tt,
     mkSong (notes s) (total_notes s) (duration s) (density_map s)
       (_time_deltas s ++ [x]) (_velocities s) (_chord_sizes s)
       (except_taken s)).

Definition _velocities_append (x : Z) : M unit :=
  fun s =>
    match array_B_append (_velocities s) x with
    | Ok a =>
        (Ok tt,
         mkSong (notes s) (total_notes s) (duration s) (density_map s)
           (_time_deltas s) a (_chord_sizes s) (except_taken s))
    | Raise e => (Raise e, s)
    end.

Definition _chord_sizes_append (x : Z) : M unit :=
  fun s =>
    match array_B_append (_chord_sizes s) x with
    | Ok a =>
        (Ok tt,
         mkSong (notes s) (total_notes s) (duration s) (density_map s)
           (_time_deltas s) (_velocities s) a (except_taken s))
    | Raise e => (Raise e, s)
    end.

Definition density_map_append (x : Q) (s : t) : t :=
  mkSong (notes s) (total_notes s) (duration s) (density_map s ++ [x])
    (_time_deltas s) (_velocities s) (_chord_sizes s) (except_taken s).

(** [try: body except Exception: pass]. *)
Definition try_except_pass (body : M unit) (s : t) : t :=
  match body s with
  | (Ok _, s') => s'
  | (Raise _, s') =>
      mkSong (notes s') (total_notes s') (duration s') (density_map s')
        (_time_deltas s') (_velocities s') (_chord_sizes s')
        (S (except_taken s'))
  end.

Section Compile.
Variable transpose_offset : Z.
(** [note_converter], given by its base octave. *)
Variable base_octave : Z.
Variable chord_threshold : Q.

(** The inner [while]: [rest] is [events[j:]]. *)
Fixpoint chord_scan (rest : list NoteEvent) (chord_events : list NoteEvent)
  : list NoteEvent * list NoteEvent :=
  match rest with
  | [] => (chord_events, [])
  | ej :: rest' =>
      if Qle_bool (time_delta ej) chord_threshold
      then chord_scan rest' (chord_events ++ [ej])
      else (chord_events, rest)
  end.

(** The body of the [try] for member [idx] of a chord of [len_chord]
    events. *)
Definition compile_note (idx : nat) (ce : NoteEvent) (len_chord : Z)
  : M unit :=
  let transposed := note ce + transpose_offset in
  game_note <- lift (NoteConverter.convert base_octave transposed) ;;
  key_press <- lift (KeyMapper.get_key_press game_note) ;;
  let note_time := if Nat.eqb idx 0 then time_delta ce else 0%Q in
  let compiled :=
    mkCompiledNote (key key_press) (modifiers key_press) note_time
      (velocity ce)
      (Nat.eqb idx 0 && (len_chord >? 1))
      (if Nat.eqb idx 0 then len_chord else 0) in
  notes_append compiled ;;
  _time_deltas_append note_time ;;
  _velocities_append (Z.min 127 (velocity ce)) ;;
  _chord_sizes_append (if Nat.eqb idx 0 then len_chord else 0).

(** [for idx, ce in enumerate(chord_events)], from index [idx] on. *)
Fixpoint compile_chord (idx : nat) (members : list NoteEvent)
    (len_chord : Z) (song : t) : t :=
  match members with
  | [] => song
  | ce :: rest =>
      compile_chord (S idx) rest len_chord
        (try_except_pass (compile_note idx ce len_chord) song)
  end.

(** The outer [while], over [events[i:]]. *)
Equations? compile_loop (events : list NoteEvent) (total_time : Q)
    (song : t) : Q * t by wf (length events) lt :=
compile_loop [] total_time song := (total_time, song);
compile_loop (event :: rest) total_time song :=
  let total_time := (total_time + time_delta event)%Q in
  let chord_events := fst (chord_scan rest [event]) in
  let song :=
    compile_chord 0 chord_events (Z.of_nat (length chord_events)) song in
  compile_loop (snd (chord_scan rest [event])) total_time song.
Proof.
  clear.
  generalize [event].
  induction rest as [|ej rest' IH]; intros acc; simpl.
  - lia.
  - destruct (Qle_bool (time_delta ej) chord_threshold).
    + specialize (IH (acc ++ [ej])). lia.
    + simpl. lia.
Qed.

(** [times] of [_calculate_density]. *)
Fixpoint cumulative_times (ns : list CompiledNote) (cumulative : Q)
  : list Q :=
  match ns with
  | [] => []
  | n :: rest =>
      let cumulative := (cumulative + cn_time_delta n)%Q in
      cumulative :: cumulative_times rest cumulative
  end.

Definition _calculate_density (window : Q) (self : t) : t :=
  match notes self with
  | [] => self
  | _ :: _ =>
      let times := cumulative_times (notes self) 0%Q in
      let half_window := (window / 2)%Q in
      fold_left
        (fun self t =>
           let start_t := (t - half_window)%Q in
           let end_t := (t + half_window)%Q in
           let count :=
             Z.of_nat
               (length
                  (filter
                     (fun tt => Qle_bool start_t tt && Qle_bool tt end_t)
                     times)) in
           let density := (inject_Z count / window)%Q in
           density_map_append density self)
        times self
  end.

Definition compile (events : list NoteEvent) : t :=
  let song := __init__ in
  match events with
  | [] => song
  | _ :: _ =>
      let '(total_time, song) := compile_loop events 0%Q song in
      let song :=
        mkSong (notes song) (Z.of_nat (length (notes song))) total_time
          (density_map song) (_time_deltas song) (_velocities song)
          (_chord_sizes song) (except_taken song) in
      _calculate_density 2 song
  end.
End Compile.

Definition get_key_press (self : t) (index : Z) : result KeyPress :=
  note <- py_index (notes self) index ;;
  Ok (mkKeyPress (cn_key note) (cn_modifiers note)).

(** The comprehension of [get_chord_key_presses], for [i] in
    [range(chord_size)]. *)
Fixpoint chord_key_presses (self : t) (index : Z) (ks : list Z)
  : result (list KeyPress) :=
  match ks with
  | [] => Ok []
  | i :: rest =>
      if index + i <? Z.of_nat (length (notes self)) then
        kp <- get_key_press self (index + i) ;;
        kps <- chord_key_presses self index rest ;;
        Ok (kp :: kps)
      else chord_key_presses self index rest
  end.

Definition get_chord_key_presses (self : t) (index : Z)
  : result (list KeyPress) :=
  if index >=? Z.of_nat (length (notes self)) then Ok []
  else
    note <- py_index (notes self) index ;;
    let chord_size := cn_chord_size note in
    if chord_size <=? 1 then
      kp <- get_key_press self index ;;
      Ok [kp]
    else chord_key_presses self index (py_range 0 chord_size).

End CompiledSong.


(** ** services/keyboard_service.py

    The [keyboard] library is the list of key-down and key-up requests it
    receives; it is taken to accept every request, so the [except]
    branches of [press] and [press_multiple] are not entered.  Sleeps are
    left out.  The set [_held_modifiers] is a duplicate-free list, iterated
    in list order (Python leaves the order of a set open). *)

Module KeyboardService.

Inductive request : Type :=
| kb_press (k : string)
| kb_release (k : string).

Record t : Type := mkService {
  _held_modifiers : list string;
  _initialized : bool;
  requests : list request
}.

Definition __init__ : t := mkService [] false [].

(** [set.add] and [set.discard]. *)
Definition set_add (x : string) (l : list string) : list string :=
  if existsb (String.eqb x) l then l else l ++ [x].

Definition set_discard (x : string) (l : list string) : list string :=
  filter (fun y => negb (String.eqb x y)) l.

Section Service.
(** [str.lower]. *)
Variable lower : string -> string.
(** Whether [import keyboard] succeeds. *)
Variable keyboard_installed : bool.

(** [_ensure_initialized]: [None] when it raises [RuntimeError]. *)
Definition _ensure_initialized (s : t) : option t :=
  if _initialized s then Some s
  else if keyboard_installed
       then Some (mkService (_held_modifiers s) true (requests s))
       else None.

Definition _get_modifier_key (modifier : string) : string :=
  let l := lower modifier in
  if existsb (String.eqb l) ["shift"; "ctrl"; "alt"]%string then l
  else modifier.

Definition send (r : request) (s : t) : t :=
  mkService (_held_modifiers s) (_initialized s) (requests s ++ [r]).

Definition _press_modifier (modifier : string) (s : t) : option t :=
  match _ensure_initialized s with
  | None => None
  | Some s =>
      let mod_key := _get_modifier_key modifier in
      if negb (String.eqb mod_key "") then
        let s := send (kb_press mod_key) s in
        Some (mkService (set_add modifier (_held_modifiers s))
                (_initialized s) (requests s))
      else Some s
  end.

Definition _release_modifier (modifier : string) (s : t) : option t :=
  match _ensure_initialized s with
  | None => None
  | Some s =>
      let mod_key := _get_modifier_key modifier in
      if negb (String.eqb mod_key "") then
        let s := send (kb_release mod_key) s in
        Some (mkService (set_discard modifier (_held_modifiers s))
                (_initialized s) (requests s))
      else Some s
  end.

(** [for x in xs: f(x)], stopping at the first raise. *)
Fixpoint for_each (f : string -> t -> option t) (xs : list string) (s : t)
  : option t :=
  match xs with
  | [] => Some s
  | x :: rest =>
      match f x s with
      | Some s' => for_each f rest s'
      | None => None
      end
  end.

(** [press(key_press, delay_ms)]. *)
Definition press (key_press : KeyPress) (s : t) : option t :=
  match _ensure_initialized s with
  | None => None
  | Some s =>
      match for_each _press_modifier (modifiers key_press) s with
      | None => None
      | Some s =>
          let s := send (kb_press (key key_press)) s in
          let s := send (kb_release (key key_press)) s in
          for_each _release_modifier (modifiers key_press) s
      end
  end.

(** [release_all]: the failures of [_release_modifier] are caught. *)
Definition release_all (s : t) : t :=
  if negb (_initialized s) then s
  else
    let s :=
      fold_left
        (fun s modifier =>
           match _release_modifier modifier s with
           | Some s' => s'
           | None => s
           end)
        (_held_modifiers s) s in
    let s := mkService [] (_initialized s) (requests s) in
    let s :=
      fold_left (fun s k => send (kb_release k) s)
        ["shift"; "ctrl"; "alt"]%string s in
    fold_left (fun s k => send (kb_release k) s)
      (map (fun c => String c EmptyString)
         (list_ascii_of_string "qwertyuasdfghjzxcvbnm")) s.
End Service.

End KeyboardService.

(** ** app.py: the playback controller

    The controller runs on the caller's thread and each playback session on
    a worker thread.  A worker is a program point of [_play_with_countdown]
    (with [_play_optimized] and [_play_events] inlined) together with its
    local variables; one [thread_step] runs it up to its next read of a
    shared flag or its next blocking call.  Controller operations are
    atomic, except that a [join] lets worker steps interleave, given as a
    schedule of thread indices.  The file loaders and the playlist are not
    part of the model: the loaded song does not change and the playlist is
    empty.  The key-command sink and the waits are recorded in [log]. *)

Module AutoBardApp.

Record AppConfig : Type := mkAppConfig {
  input_delay_ms : Z;
  min_note_delay_ms : Z;
  playback_speed : Q;
  loop_mode : bool;
  countdown_seconds : Z;
  humanize_ms : Z;
  chord_strum_ms : Z;
  velocity_timing : bool;
  dynamic_tempo : bool;
  high_performance : bool
}.

(** What the collaborators are asked to do.  The index [i] in [waited],
    [press] and [press_multiple] is the loop index of the note, kept to
    relate the log to the song. *)
Inductive call : Type :=
| release_all
| waited (i : Z) (actual_delay : Q)
| press (i : Z) (key_press : KeyPress) (delay_ms : Z)
| press_multiple (i : Z) (key_presses : list KeyPress)
    (delay_ms strum_ms : Z)
| playback_error (i : Z).

(** Program points of a worker, with the local variables live there:
    [song], [i], [current_time] and [note] in [_play_optimized];
    [events], [density_map], [i] and [event] in [_play_events]. *)
Inductive thread : Type :=
| Countdown_entry
| Countdown (i : Z)
| Begin
| Run_loop
| Opt_top (song : CompiledSong.t) (i : Z) (current_time : Q)
| Opt_poll (song : CompiledSong.t) (i : Z) (current_time : Q)
| Opt_body (song : CompiledSong.t) (i : Z) (current_time : Q)
| Opt_wait (song : CompiledSong.t) (i : Z) (current_time : Q)
    (note : CompiledSong.CompiledNote)
| Opt_cleanup
| Ev_top (events : list NoteEvent) (density_map : list Q) (i : Z)
| Ev_poll (events : list NoteEvent) (density_map : list Q) (i : Z)
| Ev_body (events : list NoteEvent) (density_map : list Q) (i : Z)
| Ev_wait (events : list NoteEvent) (density_map : list Q) (i : Z)
    (event : NoteEvent)
| Ev_end
| After_play
| Finished
| Died (e : exn).

Definition is_alive (th : thread) : bool :=
  match th with
  | Finished | Died _ => false
  | _ => true
  end.

Record App : Type := mkApp {
  _config : AppConfig;
  _compiled_song : option CompiledSong.t;
  _events : list NoteEvent;
  _transpose_offset : Z;
  _state : PlaybackState;
  _stop_flag : bool;
  _pause_flag : bool;
  _current_position : Z;
  _start_position : Z;
  _ab_loop_start : option Z;
  _ab_loop_end : option Z;
  (** the thread object held in [_playback_thread], as an index into
      [threads] *)
  _playback_thread : option nat;
  (** every worker thread ever started *)
  threads : list thread;
  log : list call;
  (** number of [random.uniform] draws made so far *)
  draws : nat
}.

Definition _set_state (s : PlaybackState) (a : App) : App :=
  mkApp (_config a) (_compiled_song a) (_events a) (_transpose_offset a)
    s (_stop_flag a) (_pause_flag a) (_current_position a)
    (_start_position a) (_ab_loop_start a) (_ab_loop_end a)
    (_playback_thread a) (threads a) (log a) (draws a).

Definition set_stop_flag (b : bool) (a : App) : App :=
  mkApp (_config a) (_compiled_song a) (_events a) (_transpose_offset a)
    (_state a) b (_pause_flag a) (_current_position a)
    (_start_position a) (_ab_loop_start a) (_ab_loop_end a)
    (_playback_thread a) (threads a) (log a) (draws a).

Definition set_pause_flag (b : bool) (a : App) : App :=
  mkApp (_config a) (_compiled_song a) (_events a) (_transpose_offset a)
    (_state a) (_stop_flag a) b (_current_position a)
    (_start_position a) (_ab_loop_start a) (_ab_loop_end a)
    (_playback_thread a) (threads a) (log a) (draws a).

Definition set_current_position (i : Z) (a : App) : App :=
  mkApp (_config a) (_compiled_song a) (_events a) (_transpose_offset a)
    (_state a) (_stop_flag a) (_pause_flag a) i
    (_start_position a) (_ab_loop_start a) (_ab_loop_end a)
    (_playback_thread a) (threads a) (log a) (draws a).

Definition set_start_position (i : Z) (a : App) : App :=
  mkApp (_config a) (_compiled_song a) (_events a) (_transpose_offset a)
    (_state a) (_stop_flag a) (_pause_flag a) (_current_position a)
    i (_ab_loop_start a) (_ab_loop_end a)
    (_playback_thread a) (threads a) (log a) (draws a).

Definition set_threads (o : option nat) (ths : list thread) (a : App)
  : App :=
  mkApp (_config a) (_compiled_song a) (_events a) (_transpose_offset a)
    (_state a) (_stop_flag a) (_pause_flag a) (_current_position a)
    (_start_position a) (_ab_loop_start a) (_ab_loop_end a)
    o ths (log a) (draws a).

Definition emit (c : call) (a : App) : App :=
  mkApp (_config a) (_compiled_song a) (_events a) (_transpose_offset a)
    (_state a) (_stop_flag a) (_pause_flag a) (_current_position a)
    (_start_position a) (_ab_loop_start a) (_ab_loop_end a)
    (_playback_thread a) (threads a) (log a ++ [c]) (draws a).

Definition drawn (a : App) : App :=
  mkApp (_config a) (_compiled_song a) (_events a) (_transpose_offset a)
    (_state a) (_stop_flag a) (_pause_flag a) (_current_position a)
    (_start_position a) (_ab_loop_start a) (_ab_loop_end a)
    (_playback_thread a) (threads a) (log a) (S (draws a)).

(** [_calculate_density_map]: the density of each event index. *)
Fixpoint event_times (events : list NoteEvent) (cumulative : Q) : list Q :=
  match events with
  | [] => []
  | e :: rest =>
      let cumulative := (cumulative + time_delta e)%Q in
      cumulative :: event_times rest cumulative
  end.

Definition _calculate_density_map (events : list NoteEvent) : list Q :=
  let window := 2%Q in
  let times := event_times events 0%Q in
  map (fun t =>
         let start_t := (t - window / 2)%Q in
         let end_t := (t + window / 2)%Q in
         let count :=
           Z.of_nat
             (length
                (filter (fun tt => Qle_bool start_t tt && Qle_bool tt end_t)
                   times)) in
         (inject_Z count / window)%Q)
      times.

Section Playback.
(** The [k]-th draw of [random.uniform(lo, hi)]. *)
Variable random_uniform : nat -> Q -> Q -> Q.

(** The delay of a note before the minimum is applied: the lines from
    [base_delay = ...] to the humanization, which the two loops share.
    [density] is the entry of the density map when dynamic tempo is on
    and the map has one for the index. *)
Definition base_delay_of (a : App) (delta : Q) (vel : Z)
    (density : option Q) : Q * App :=
  let cfg := _config a in
  let base_delay := (delta / playback_speed cfg)%Q in
  let base_delay :=
    match density with
    | Some density =>
        if Qlt_bool 8 density
        then (base_delay * (1 + (density - 8) * (3 # 100)))%Q
        else base_delay
    | None => base_delay
    end in
  let base_delay :=
    if velocity_timing cfg && (vel <? 80)
    then (base_delay * (1 + inject_Z (80 - vel) / 200))%Q
    else base_delay in
  if humanize_ms cfg >? 0 then
    let h := inject_Z (humanize_ms cfg) in
    ((base_delay + random_uniform (draws a) (- h) h / 1000)%Q, drawn a)
  else (base_delay, a).

Definition min_delay (a : App) : Q :=
  (inject_Z (min_note_delay_ms (_config a)) / 1000)%Q.

(** [if actual_delay > 0:] wait. *)
Definition wait_if_positive (i : Z) (actual_delay : Q) (a : App) : App :=
  if Qlt_bool 0 actual_delay then emit (waited i actual_delay) a else a.

(** The chord collected by [_play_events]: [rest] is [events[j:]]. *)
Fixpoint collect_chord (rest : list NoteEvent) (chord : list NoteEvent)
  : list NoteEvent :=
  match rest with
  | [] => chord
  | ej :: rest' =>
      if Qle_bool (time_delta ej) (5 # 100)
      then collect_chord rest' (chord ++ [ej])
      else chord
  end.

Definition event_key_press (a : App) (e : NoteEvent) : result KeyPress :=
  let transposed_note := note e + _transpose_offset a in
  game_note <-
    NoteConverter.convert NoteConverter.default_base_octave
      transposed_note ;;
  KeyMapper.get_key_press game_note.

Fixpoint event_key_presses (a : App) (chord : list NoteEvent)
  : result (list KeyPress) :=
  match chord with
  | [] => Ok []
  | ce :: rest =>
      kp <- event_key_press a ce ;;
      kps <- event_key_presses a rest ;;
      Ok (kp :: kps)
  end.

Definition thread_step (th : thread) (a : App) : thread * App :=
  let cfg := _config a in
  match th with
  (* _play_with_countdown *)
  | Countdown_entry =>
      if (countdown_seconds cfg >? 0) && (_start_position a =? 0)
      then (Countdown (countdown_seconds cfg), _set_state PLAYING a)
      else (Begin, a)
  | Countdown i =>
      if _stop_flag a then (Finished, a)
      else if i - 1 >? 0 then (Countdown (i - 1), a)
      else (Begin, a)
  | Begin => (Run_loop, _set_state PLAYING a)
  | Run_loop =>
      if _stop_flag a then (Finished, a)
      else if high_performance cfg then
        match _compiled_song a with
        | None => (After_play, a)
        | Some song =>
            if CompiledSong.total_notes song =? 0 then (After_play, a)
            else (Opt_top song (_start_position a) 0%Q, a)
        end
      else
        let events := _events a in
        match events with
        | [] => (After_play, a)
        | _ :: _ =>
            let density_map :=
              if dynamic_tempo cfg then _calculate_density_map events
              else [] in
            (Ev_top events density_map 0, a)
        end
  | After_play =>
      if loop_mode cfg && negb (_stop_flag a)
      then (Run_loop, set_start_position 0 a)
      else (Finished, a)
  (* _play_optimized *)
  | Opt_top song i current_time =>
      if i <? CompiledSong.total_notes song then
        if _stop_flag a then (Opt_cleanup, a)
        else (Opt_poll song i current_time, a)
      else (Opt_cleanup, a)
  | Opt_poll song i current_time =>
      if _pause_flag a && negb (_stop_flag a)
      then (Opt_poll song i current_time, a)
      else if _stop_flag a then (Opt_cleanup, a)
      else (Opt_body song i current_time, a)
  | Opt_body song i current_time =>
      let a := set_current_position i a in
      let jump :=
        match _ab_loop_end a, _ab_loop_start a with
        | Some ab_end, Some ab_start =>
            if i >=? ab_end then Some ab_start else None
        | _, _ => None
        end in
      match jump with
      | Some ab_start => (Opt_top song ab_start current_time, a)
      | None =>
          match py_index (CompiledSong.notes song) i with
          | Raise e => (Died e, a)
          | Ok note =>
              let current_time :=
                (current_time
                 + CompiledSong.cn_time_delta note / playback_speed cfg)%Q
              in
              match
                (if dynamic_tempo cfg
                    && (i <? Z.of_nat
                               (length (CompiledSong.density_map song)))
                 then
                   match py_index (CompiledSong.density_map song) i with
                   | Ok d => Ok (Some d)
                   | Raise e => Raise e
                   end
                 else Ok None)
              with
              | Raise e => (Died e, a)
              | Ok density =>
                  let '(base_delay, a) :=
                    base_delay_of a (CompiledSong.cn_time_delta note)
                      (CompiledSong.cn_velocity note) density in
                  let actual_delay :=
                    if i >? _start_position a
                    then py_max base_delay (min_delay a)
                    else 0%Q in
                  (Opt_wait song i current_time note,
                   wait_if_positive i actual_delay a)
              end
          end
      end
  | Opt_wait song i current_time note =>
      if _stop_flag a then (Opt_cleanup, a)
      else if CompiledSong.cn_chord_size note >? 1 then
        match CompiledSong.get_chord_key_presses song i with
        | Ok key_presses =>
            (Opt_top song (i + CompiledSong.cn_chord_size note)
               current_time,
             emit (press_multiple i key_presses (input_delay_ms cfg)
                     (chord_strum_ms cfg)) a)
        | Raise _ =>
            (Opt_top song (i + 1) current_time,
             emit (playback_error i) a)
        end
      else
        match CompiledSong.get_key_press song i with
        | Ok key_press =>
            (Opt_top song (i + 1) current_time,
             emit (press i key_press (input_delay_ms cfg)) a)
        | Raise _ =>
            (Opt_top song (i + 1) current_time,
             emit (playback_error i) a)
        end
  | Opt_cleanup =>
      let a := set_start_position 0 a in
      if negb (_stop_flag a) then (After_play, _set_state READY a)
      else (After_play, a)
  (* _play_events *)
  | Ev_top events density_map i =>
      if i <? Z.of_nat (length events) then
        if _stop_flag a then (Ev_end, a)
        else (Ev_poll events density_map i, a)
      else (Ev_end, a)
  | Ev_poll events density_map i =>
      if _pause_flag a && negb (_stop_flag a)
      then (Ev_poll events density_map i, a)
      else if _stop_flag a then (Ev_end, a)
      else (Ev_body events density_map i, a)
  | Ev_body events density_map i =>
      match py_index events i with
      | Raise e => (Died e, a)
      | Ok event =>
          let density :=
            if dynamic_tempo cfg && (0 <=? i)
            then nth_error density_map (Z.to_nat i)
            else None in
          let '(base_delay, a) :=
            base_delay_of a (time_delta event) (velocity event) density in
          let actual_delay :=
            if i >? 0 then py_max base_delay (min_delay a) else 0%Q in
          (Ev_wait events density_map i event,
           wait_if_positive i actual_delay a)
      end
  | Ev_wait events density_map i event =>
      if _stop_flag a then (Ev_end, a)
      else
        let chord_events :=
          collect_chord (skipn (Z.to_nat (i + 1)) events) [event] in
        let j := i + Z.of_nat (length chord_events) in
        let played :=
          match chord_events with
          | [_] =>
              key_press <- event_key_press a event ;;
              Ok (press i key_press (input_delay_ms cfg))
          | _ =>
              key_presses <- event_key_presses a chord_events ;;
              Ok (press_multiple i key_presses (input_delay_ms cfg)
                    (chord_strum_ms cfg))
          end in
        match played with
        | Ok c => (Ev_top events density_map j, emit c a)
        | Raise _ => (Ev_top events density_map j, emit (playback_error i) a)
        end
  | Ev_end =>
      if negb (_stop_flag a) then (After_play, _set_state READY a)
      else (After_play, a)
  | Finished => (Finished, a)
  | Died e => (Died e, a)
  end.

(** Thread [tid] takes one step. *)
Definition step (tid : nat) (a : App) : App :=
  match nth_error (threads a) tid with
  | None => a
  | Some th =>
      let '(th', a') := thread_step th a in
      set_threads (_playback_thread a')
        (firstn tid (threads a') ++ th' :: skipn (S tid) (threads a')) a'
  end.

(** The worker steps taken while the controller is blocked. *)
Definition run (schedule : list nat) (a : App) : App :=
  fold_left (fun a tid => step tid a) schedule a.

Definition playback_thread_alive (a : App) : bool :=
  match _playback_thread a with
  | None => false
  | Some tid =>
      match nth_error (threads a) tid with
      | Some th => is_alive th
      | None => false
      end
  end.

(** [self._playback_thread.join(timeout=...)]: the caller blocks while
    the workers run [schedule]. *)
Definition join (schedule : list nat) (a : App) : App := run schedule a.

Definition start (schedule : list nat) (a : App) : App :=
  match _events a, _compiled_song a with
  | [], None => a
  | _, _ =>
      match _state a with
      | PLAYING => a
      | PAUSED => _set_state PLAYING (set_pause_flag false a)
      | _ =>
          let a :=
            if playback_thread_alive a
            then join schedule (set_stop_flag true a)
            else a in
          let a := set_stop_flag false a in
          let a := set_pause_flag false a in
          set_threads (Some (length (threads a)))
            (threads a ++ [Countdown_entry]) a
      end
  end.

Definition pause (a : App) : App :=
  match _state a with
  | PLAYING =>
      let a := set_pause_flag true a in
      let a := set_start_position (_current_position a) a in
      _set_state PAUSED a
  | _ => a
  end.

Definition stop (schedule : list nat) (a : App) : App :=
  let a := set_stop_flag true a in
  let a := set_pause_flag false a in
  let a := emit release_all a in
  let a := if playback_thread_alive a then join schedule a else a in
  let a := set_current_position 0 a in
  let a := set_start_position 0 a in
  _set_state STOPPED a.

Definition seek (position : Z) (a : App) : App :=
  match _compiled_song a with
  | None => a
  | Some song =>
      let max_pos := CompiledSong.total_notes song - 1 in
      let a := set_start_position (Z.max 0 (Z.min position max_pos)) a in
      set_current_position (_start_position a) a
  end.
End Playback.

(** [AutoBardApp.__init__], with the song a load has put in place. *)
Definition __init__ (config : AppConfig) (events : list NoteEvent)
    (transpose_offset : Z) (song : option CompiledSong.t) : App :=
  mkApp config song events transpose_offset READY false false 0 0 None None
    None [] [] 0%nat.

Definition set_ab_loop (start end_ : option Z) (a : App) : App :=
  mkApp (_config a) (_compiled_song a) (_events a) (_transpose_offset a)
    (_state a) (_stop_flag a) (_pause_flag a) (_current_position a)
    (_start_position a) start end_
    (_playback_thread a) (threads a) (log a) (draws a).

Definition set_loop_a (a : App) : App :=
  set_ab_loop (Some (_current_position a)) (_ab_loop_end a) a.

Definition set_loop_b (a : App) : App :=
  set_ab_loop (_ab_loop_start a) (Some (_current_position a)) a.



Definition set_config (c : AppConfig) (a : App) : App :=
  mkApp c (_compiled_song a) (_events a) (_transpose_offset a)
    (_state a) (_stop_flag a) (_pause_flag a) (_current_position a)
    (_start_position a) (_ab_loop_start a) (_ab_loop_end a)
    (_playback_thread a) (threads a) (log a) (draws a).


Definition set_playback_speed (speed : Q) (a : App) : App :=
  let c := _config a in
  set_config
    (mkAppConfig (input_delay_ms c) (min_note_delay_ms c)
       (py_max (1 # 2) (py_min 2 speed))
       (loop_mode c) (countdown_seconds c) (humanize_ms c)
       (chord_strum_ms c) (velocity_timing c) (dynamic_tempo c)
       (high_performance c)) a.

Definition set_input_delay (delay_ms : Z) (a : App) : App :=
  let c := _config a in
  set_config
    (mkAppConfig (Z.max 0 (Z.min 500 delay_ms)) (min_note_delay_ms c)
       (playback_speed c)
       (loop_mode c) (countdown_seconds c) (humanize_ms c)
       (chord_strum_ms c) (velocity_timing c) (dynamic_tempo c)
       (high_performance c)) a.


Definition _on_hotkey_start_pause (random_uniform : nat -> Q -> Q -> Q)
    (schedule : list nat) (a : App) : App :=
  match _state a with
  | PLAYING => pause a
  | READY | PAUSED => start random_uniform schedule a
  | STOPPED => a
  end.

(** [load_midi] from the events the file service returned, up to and
    including [_set_state(READY)]; [auto_optimize] is the configuration
    entry of that name.  The file services build every event with the
    [NoteEvent] constructor, so the events are validated, and on validated
    events nothing in the body raises. *)
Definition load_events (auto_optimize : bool) (loaded : list NoteEvent)
    (a : App) : App :=
  let events := filter is_note_on loaded in
  let events :=
    match map note events with
    | n0 :: rest =>
        if auto_optimize then
          let span := Transposer.list_max n0 rest - Transposer.list_min n0 rest
          in
          if span >? 36 then
            let '(window_start, window_count) :=
              Transposer.find_best_window NoteConverter.GAME_MIN_MIDI events
            in
            Transposer.filter_to_window events window_start
          else events
        else events
    | [] => events
    end in
  let transpose_offset :=
    match map note events with
    | n0 :: rest =>
        Transposer.calculate_offset NoteConverter.GAME_MIN_MIDI
          NoteConverter.GAME_MAX_MIDI
          (Transposer.list_min n0 rest, Transposer.list_max n0 rest)
    | [] => 0
    end in
  let song :=
    CompiledSong.compile transpose_offset NoteConverter.default_base_octave
      (5 # 100) events in
  _set_state READY
    (mkApp (_config a) (Some song) events transpose_offset
       (_state a) (_stop_flag a) (_pause_flag a) (_current_position a)
       (_start_position a) (_ab_loop_start a) (_ab_loop_end a)
       (_playback_thread a) (threads a) (log a) (draws a)).

End AutoBardApp.

(** * Vocabulary of the statements *)

(** The semitone table as the specification gives it: for each semitone
    of the octave, from C to B, the degree and the accidental. *)
Definition semitone_table : list (Z * Accidental) :=
  [(1, NATURAL); (1, SHARP); (2, NATURAL); (3, FLAT); (3, NATURAL);
   (4, NATURAL); (4, SHARP); (5, NATURAL); (5, SHARP); (6, NATURAL);
   (7, FLAT); (7, NATURAL)].

(** The band of an octave, by its distance to the base octave. *)
Definition band_of (octave_offset : Z) : Pitch :=
  if octave_offset <=? 0 then LOW
  else if octave_offset =? 1 then MID
  else HIGH.

(** The octave-aligned shift of a range: the centring offset rounded to
    the nearest multiple of 12. *)
Definition octave_shift (song_min song_max : Z) : Z :=
  Transposer.py_round
    ((inject_Z (48 + 83) / 2 - inject_Z (song_min + song_max) / 2) / 12) * 12.

(** The pitches of the onsets of an event list, in order. *)
Definition onset_pitches (events : list NoteEvent) : list Z :=
  map note (filter is_note_on events).

(** The number of onsets in the 36-semitone window that starts at [w]. *)
Definition count_in_window (events : list NoteEvent) (w : Z) : Z :=
  Transposer.count_between (onset_pitches events) w (w + 35).

(** [lo] is the lowest, [hi] the highest pitch of a list. *)
Definition lowest (lo : Z) (l : list Z) : Prop :=
  In lo l /\ forall n, In n l -> lo <= n.

Definition highest (hi : Z) (l : list Z) : Prop :=
  In hi l /\ forall n, In n l -> n <= hi.

(** A song of four onsets over 72 semitones, with one note-off. *)
Definition wide_song : list NoteEvent :=
  [mkNoteEvent 0 100 0 true; mkNoteEvent 40 100 0 true;
   mkNoteEvent 50 90 0 false; mkNoteEvent 71 100 0 true;
   mkNoteEvent 60 100 (1 # 2) true].

(** Two onsets a hundredth of a second apart. *)
Definition two_note_chord : list NoteEvent :=
  [mkNoteEvent 60 100 0 true; mkNoteEvent 64 100 (1 # 100) true].

(** A song of three onsets within one octave. *)
Definition narrow_song : list NoteEvent :=
  [mkNoteEvent 60 100 0 true; mkNoteEvent 62 100 (1 # 2) true;
   mkNoteEvent 64 100 (1 # 2) true].



(** An onset inside the 36-semitone window that starts at [w]. *)
Definition kept (w : Z) (e : NoteEvent) : bool :=
  is_note_on e && ((w <=? note e) && (note e <=? w + 35)).

(** What identifies an onset apart from its delta. *)
Definition pitch_and_velocity (e : NoteEvent) : Z * Z * bool :=
  (note e, velocity e, is_note_on e).


(** The sum of a list of integers. *)
Definition Zsum (l : list Z) : Z := fold_right Z.add 0 l.

Section Clusters.
Variable chord_threshold : Q.

Definition within_threshold (e : NoteEvent) : bool :=
  Qle_bool (time_delta e) chord_threshold.

(** The chord clusters of an event list: the maximal runs of consecutive
    events in which every event but the first comes within the threshold
    of its predecessor. *)
Fixpoint chord_clusters (events : list NoteEvent) : list (list NoteEvent) :=
  match events with
  | [] => []
  | e :: rest =>
      let clusters := chord_clusters rest in
      match rest, clusters with
      | e' :: _, c :: cs =>
          if within_threshold e' then (e :: c) :: cs else [e] :: c :: cs
      | _, _ => [[e]]
      end
  end.

(** The events that join the chord of the event before [rest], and the
    events after them. *)
Fixpoint chord_followers (rest : list NoteEvent) : list NoteEvent :=
  match rest with
  | [] => []
  | e :: rest' =>
      if within_threshold e then e :: chord_followers rest' else []
  end.

Fixpoint after_chord (rest : list NoteEvent) : list NoteEvent :=
  match rest with
  | [] => []
  | e :: rest' => if within_threshold e then after_chord rest' else rest
  end.

(** A cluster is not empty and all its members but the first are within
    the threshold. *)
Definition cluster_ok (c : list NoteEvent) : Prop :=
  c <> [] /\ Forall (fun e => within_threshold e = true) (tl c).

(** A cluster that does not open the song starts after a gap above the
    threshold. *)
Definition starts_after_gap (c : list NoteEvent) : Prop :=
  match c with
  | e :: _ => within_threshold e = false
  | [] => False
  end.
End Clusters.

(** The chord sizes and the deltas [compile] records for one cluster. *)
Definition cluster_sizes (c : list NoteEvent) : list Z :=
  match c with
  | [] => []
  | _ :: c' => Z.of_nat (length c) :: repeat 0 (length c')
  end.

Definition cluster_deltas (c : list NoteEvent) : list Q :=
  match c with
  | [] => []
  | e :: c' => time_delta e :: repeat 0%Q (length c')
  end.

(** The bytes [compile] stores for member [idx] of a chord of [n] events
    fit their arrays. *)
Definition bytes_fit (idx : nat) (ce : NoteEvent) (n : Z) : bool :=
  (0 <=? Z.min 127 (velocity ce))
  && (if Nat.eqb idx 0 then (0 <=? n) && (n <=? 255) else true).

(** A run of 256 valid onsets, 40 ms apart. *)
Definition large_chord : list NoteEvent :=
  repeat (mkNoteEvent 60 100 (4 # 100) true) 256.

(** What [b] keeps of [a] when only playback threads have run in between:
    the configuration, the loaded song and both signals; the log only
    grows. *)
Definition same_session (a b : AutoBardApp.App) : Prop :=
  AutoBardApp._config b = AutoBardApp._config a /\
  AutoBardApp._compiled_song b = AutoBardApp._compiled_song a /\
  AutoBardApp._events b = AutoBardApp._events a /\
  AutoBardApp._stop_flag b = AutoBardApp._stop_flag a /\
  AutoBardApp._pause_flag b = AutoBardApp._pause_flag a /\
  exists calls, AutoBardApp.log b = AutoBardApp.log a ++ calls.

(** A playback session on [narrow_song]: no countdown, no humanization,
    minimum note delay 80 ms; [high_performance] chooses the loop. *)
Definition session_config (high_performance : bool) : AutoBardApp.AppConfig :=
  AutoBardApp.mkAppConfig 50 80 1 false 0 0 6 false false high_performance.

Definition no_jitter (k : nat) (lo hi : Q) : Q := 0%Q.

Definition loaded (high_performance : bool) : AutoBardApp.App :=
  AutoBardApp.__init__ (session_config high_performance) narrow_song 0
    (Some (CompiledSong.compile 0 4 (5 # 100) narrow_song)).

(** [start()], then the worker runs until it waits for the note at
    index 1. *)
Definition playing (high_performance : bool) : AutoBardApp.App :=
  AutoBardApp.run no_jitter (repeat 0%nat 10)
    (AutoBardApp.start no_jitter [] (loaded high_performance)).

(** [pause()] during that wait; the worker then plays the note and polls
    the pause flag. *)
Definition paused (high_performance : bool) : AutoBardApp.App :=
  AutoBardApp.run no_jitter (repeat 0%nat 4)
    (AutoBardApp.pause (playing high_performance)).




(** ** Vocabulary of the further properties *)

(** The modifiers the game expects for an accidental. *)
Definition modifiers_of (a : Accidental) : list string :=
  match a with
  | NATURAL => []
  | SHARP => ["shift"%string]
  | FLAT => ["ctrl"%string]
  end.


(** The key combination of a pitch: conversion, then key mapping. *)
Definition key_of_pitch (base_octave midi_note : Z) : result KeyPress :=
  game_note <- NoteConverter.convert base_octave midi_note ;;
  KeyMapper.get_key_press game_note.

(** What [apply_transpose] makes of one event. *)
Definition transposed (offset : Z) (e : NoteEvent) : NoteEvent :=
  mkNoteEvent (Z.max 0 (Z.min 127 (note e + offset))) (velocity e)
    (time_delta e) (is_note_on e).

(** The onsets an offset leaves below and above the playable range. *)
Definition onsets_below (lo offset : Z) (events : list NoteEvent) : Z :=
  Z.of_nat (length (filter (fun n => n + offset <? lo) (onset_pitches events))).

Definition onsets_above (hi offset : Z) (events : list NoteEvent) : Z :=
  Z.of_nat (length (filter (fun n => n + offset >? hi) (onset_pitches events))).

(** The key combination a compiled note stores. *)
Definition stored_key_press (c : CompiledSong.CompiledNote) : KeyPress :=
  mkKeyPress (CompiledSong.cn_key c) (CompiledSong.cn_modifiers c).

(** A compiled note plays event [e] under the given transposition. *)
Definition plays (transpose_offset base_octave : Z) (e : NoteEvent)
    (c : CompiledSong.CompiledNote) : Prop :=
  key_of_pitch base_octave (note e + transpose_offset)
  = Ok (stored_key_press c) /\
  CompiledSong.cn_velocity c = velocity e.

(** The number of notes [get_chord_key_presses] looks at from [index]
    on. *)
Definition chord_span (self : CompiledSong.t) (index : nat) : nat :=
  match nth_error (CompiledSong.notes self) index with
  | Some c => Z.to_nat (Z.max 1 (CompiledSong.cn_chord_size c))
  | None => 0%nat
  end.

(** What an operation that only moves the position leaves alone. *)
Definition same_but_position (a b : AutoBardApp.App) : Prop :=
  AutoBardApp._config b = AutoBardApp._config a /\
  AutoBardApp._compiled_song b = AutoBardApp._compiled_song a /\
  AutoBardApp._events b = AutoBardApp._events a /\
  AutoBardApp._state b = AutoBardApp._state a /\
  AutoBardApp._stop_flag b = AutoBardApp._stop_flag a /\
  AutoBardApp._pause_flag b = AutoBardApp._pause_flag a /\
  AutoBardApp.threads b = AutoBardApp.threads a /\
  AutoBardApp.log b = AutoBardApp.log a.

(** [n] steps of one worker, from program point [th]. *)
Fixpoint thread_steps (random_uniform : nat -> Q -> Q -> Q) (n : nat)
    (th : AutoBardApp.thread) (a : AutoBardApp.App)
  : AutoBardApp.thread * AutoBardApp.App :=
  match n with
  | O => (th, a)
  | S n =>
      let '(th', a') := AutoBardApp.thread_step random_uniform th a in
      thread_steps random_uniform n th' a'
  end.

(** The program point of worker [tid]. *)
Definition worker (tid : nat) (a : AutoBardApp.App)
  : option AutoBardApp.thread :=
  nth_error (AutoBardApp.threads a) tid.


(** A worker at [th] gets to [th'] on its own, taking the application
    from [a] to [a']. *)
Definition reaches (random_uniform : nat -> Q -> Q -> Q)
    (th : AutoBardApp.thread) (a : AutoBardApp.App)
    (th' : AutoBardApp.thread) (a' : AutoBardApp.App) : Prop :=
  exists n, thread_steps random_uniform n th a = (th', a').

(** The program points of the optimized loop between its top and the
    A-B loop test, at index [i]. *)
Definition before_note (song : CompiledSong.t) (i : Z) (ct : Q)
  : list AutoBardApp.thread :=
  [AutoBardApp.Opt_top song i ct; AutoBardApp.Opt_poll song i ct;
   AutoBardApp.Opt_body song i ct].

(** Both loop points set while paused at note 1, then [start()] again and
    two steps of the worker. *)
Definition looping_at_one : AutoBardApp.App :=
  AutoBardApp.run no_jitter (repeat 0%nat 2)
    (AutoBardApp.start no_jitter []
       (AutoBardApp.set_loop_b (AutoBardApp.set_loop_a (paused true)))).

(** Whether key [k] is down after the requests [reqs], when it was [down]
    before them. *)
Fixpoint key_down (reqs : list KeyboardService.request) (k : string)
    (down : bool) : bool :=
  match reqs with
  | [] => down
  | KeyboardService.kb_press k' :: rest =>
      key_down rest k (if String.eqb k k' then true else down)
  | KeyboardService.kb_release k' :: rest =>
      key_down rest k (if String.eqb k k' then false else down)
  end.

(** The keys a service holds down: all keys are up before the first
    request. *)
Definition is_down (s : KeyboardService.t) (k : string) : bool :=
  key_down (KeyboardService.requests s) k false.

Definition is_release (r : KeyboardService.request) : bool :=
  match r with
  | KeyboardService.kb_release _ => true
  | KeyboardService.kb_press _ => false
  end.

(** The keys [release_all] lets go of directly. *)
Definition released_keys : list string :=
  ["shift"; "ctrl"; "alt"]%string
  ++ map (fun c => String c EmptyString)
       (list_ascii_of_string "qwertyuasdfghjzxcvbnm").

(** * Properties *)

(** ** Reasoning principles *)

Lemma Z_interval_cases (P : Z -> Prop) (lo : Z) (n : nat) :
  (forall k, (k < n)%nat -> P (lo + Z.of_nat k)) ->
  forall z, lo <= z < lo + Z.of_nat n -> P z.
Proof.
  intros H z Hz.
  replace z with (lo + Z.of_nat (Z.to_nat (z - lo))) by lia.
  apply H. lia.
Qed.

(** ** The converter *)

Lemma clamp_in_range (p : Z) :
  48 <= NoteConverter.clamp 4 p <= 83.
Proof.
  unfold NoteConverter.clamp, NoteConverter.min_midi_note,
    NoteConverter.max_midi_note.
  lia.
Qed.

Lemma clamp_idempotent (b p : Z) :
  NoteConverter.clamp b (NoteConverter.clamp b p) = NoteConverter.clamp b p.
Proof.
  unfold NoteConverter.clamp, NoteConverter.min_midi_note,
    NoteConverter.max_midi_note.
  lia.
Qed.

Lemma convert_of_clamped (c : Z) :
  48 <= c < 48 + Z.of_nat 36 ->
  exists g,
    (na <- subscript (NoteConverter.SEMITONE_TO_NOTE (c mod 12)) ;;
     Ok (mkGameNote (band_of (c / 12 - 4)) (fst na) (snd na))) = Ok g /\
    pitch g = band_of (c / 12 - 4) /\
    nth_error semitone_table (Z.to_nat (c mod 12))
    = Some (NoteName_value (name g), accidental g).
Proof.
  revert c. apply Z_interval_cases. intros k Hk.
  do 36 (destruct k as [|k];
         [eexists; split; [vm_compute; reflexivity | split; reflexivity]|]).
  lia.
Qed.

(** C1: for every pitch [p] in [0,127], [convert] first clamps [p] into
    [48,83] (base octave 4); the band of the result is LOW, MID or HIGH by
    the octave of the clamped pitch relative to the base octave; the degree
    and accidental are those of the twelve-entry semitone table; and
    converting the clamped pitch gives the same note as converting [p]. *)
Theorem convert_table_and_idempotent (p : Z) :
  0 <= p <= 127 ->
  let c := NoteConverter.clamp 4 p in
  c = Z.max 48 (Z.min p 83) /\
  48 <= c <= 83 /\
  (exists g,
     NoteConverter.convert 4 p = Ok g /\
     pitch g = band_of (c / 12 - 4) /\
     nth_error semitone_table (Z.to_nat (c mod 12))
     = Some (NoteName_value (name g), accidental g)) /\
  NoteConverter.convert 4 c = NoteConverter.convert 4 p.
Proof.
  intros Hp c.
  pose proof (clamp_in_range p) as Hc. fold c in Hc.
  split; [reflexivity|]. split; [exact Hc|]. split.
  - destruct (convert_of_clamped c) as [g Hg]; [lia|].
    exists g. exact Hg.
  - unfold NoteConverter.convert. subst c.
    rewrite clamp_idempotent. reflexivity.
Qed.

Lemma convert_table_and_idempotent_witness :
  NoteConverter.clamp 4 30 = Z.max 48 (Z.min 30 83) /\
  48 <= NoteConverter.clamp 4 30 <= 83 /\
  (exists g,
     NoteConverter.convert 4 30 = Ok g /\
     pitch g = band_of (NoteConverter.clamp 4 30 / 12 - 4) /\
     nth_error semitone_table (Z.to_nat (NoteConverter.clamp 4 30 mod 12))
     = Some (NoteName_value (name g), accidental g)) /\
  NoteConverter.convert 4 (NoteConverter.clamp 4 30)
  = NoteConverter.convert 4 30.
Proof.
  apply (convert_table_and_idempotent 30). lia.
Defined.

(** ** The key mapper *)

(** C4: an unsupported sharp (degree not 1, 4 or 5) or flat (degree not 3
    or 7) resolves to the natural key of the band and degree with no
    modifier; a supported sharp resolves to the key of the sharp table with
    exactly the shift modifier, a supported flat to the key of the flat
    table with exactly the ctrl modifier. *)
Theorem get_key_press_accidentals (g : GameNote) :
  let d := NoteName_value (name g) in
  ((accidental g = SHARP /\ ~ In d [1; 4; 5]) \/
   (accidental g = FLAT /\ ~ In d [3; 7]) ->
   exists k,
     NATURAL_KEYS (pitch g) (name g) = Some k /\
     KeyMapper.get_key_press g = Ok (mkKeyPress k [])) /\
  (accidental g = SHARP /\ In d [1; 4; 5] ->
   exists k,
     SHARP_KEYS (pitch g) (name g) = Some k /\
     KeyMapper.get_key_press g = Ok (mkKeyPress k ["shift"%string])) /\
  (accidental g = FLAT /\ In d [3; 7] ->
   exists k,
     FLAT_KEYS (pitch g) (name g) = Some k /\
     KeyMapper.get_key_press g = Ok (mkKeyPress k ["ctrl"%string])).
Proof.
  destruct g as [p n a].
  destruct p, n, a; cbn [accidental name pitch NoteName_value];
    (split; [|split]); intros H;
    first
      [ eexists; split; reflexivity
      | exfalso; simpl in H; intuition (discriminate || lia) ].
Qed.

Lemma get_key_press_accidentals_witness :
  (exists k,
     NATURAL_KEYS MID RE = Some k /\
     KeyMapper.get_key_press (mkGameNote MID RE SHARP)
     = Ok (mkKeyPress k [])) /\
  (exists k,
     SHARP_KEYS HIGH FA = Some k /\
     KeyMapper.get_key_press (mkGameNote HIGH FA SHARP)
     = Ok (mkKeyPress k ["shift"%string])) /\
  (exists k,
     FLAT_KEYS LOW TI = Some k /\
     KeyMapper.get_key_press (mkGameNote LOW TI FLAT)
     = Ok (mkKeyPress k ["ctrl"%string])).
Proof.
  split; [|split].
  - apply (proj1 (get_key_press_accidentals (mkGameNote MID RE SHARP))).
    left. split; [reflexivity|]. simpl. lia.
  - apply (proj1 (proj2 (get_key_press_accidentals
                           (mkGameNote HIGH FA SHARP)))).
    split; [reflexivity|]. simpl. lia.
  - apply (proj2 (proj2 (get_key_press_accidentals
                           (mkGameNote LOW TI FLAT)))).
    split; [reflexivity|]. simpl. lia.
Defined.

(** ** The transposer *)

Lemma py_round_near (x : Q) :
  (inject_Z (Transposer.py_round x) - (1 # 2) <= x
   /\ x <= inject_Z (Transposer.py_round x) + (1 # 2))%Q.
Proof.
  unfold Transposer.py_round.
  pose proof (Qfloor_le x) as Hlo.
  pose proof (Qlt_floor x) as Hhi.
  rewrite inject_Z_plus in Hhi. change (inject_Z 1) with 1%Q in Hhi.
  destruct (Qcompare (x - inject_Z (Qfloor x)) (1 # 2)) eqn:E.
  - apply Qeq_alt in E.
    destruct (Z.even (Qfloor x));
      rewrite ?inject_Z_plus; change (inject_Z 1) with 1%Q; split; lra.
  - apply Qlt_alt in E. split; lra.
  - apply Qgt_alt in E.
    rewrite inject_Z_plus. change (inject_Z 1) with 1%Q. split; lra.
Qed.

Lemma raw_offset_bounds (song_min song_max off : Z) :
  off = Transposer.py_round
          (inject_Z (48 + 83) / 2 - inject_Z (song_min + song_max) / 2) ->
  2 * off - 1 <= 131 - (song_min + song_max) <= 2 * off + 1.
Proof.
  intros ->.
  set (raw := (inject_Z (48 + 83) / 2 - inject_Z (song_min + song_max) / 2)%Q).
  destruct (py_round_near raw) as [H1 H2].
  generalize dependent (Transposer.py_round raw). intros r H1 H2.
  unfold raw in H1, H2. clear raw.
  change (inject_Z (48 + 83)) with 131%Q in H1, H2.
  unfold Qle, Qminus, Qplus, Qdiv, Qmult, Qinv, Qopp, inject_Z in H1, H2.
  cbn [Qnum Qden Pos.mul] in H1, H2. lia.
Qed.

Lemma calculate_offset_cases (song_min song_max : Z) :
  let offset := Transposer.calculate_offset 48 83 (song_min, song_max) in
  (48 <= song_min /\ song_max <= 83 /\ offset = 0) \/
  (~ (48 <= song_min /\ song_max <= 83) /\
   song_max - song_min + 1 <= 36 /\
   48 <= song_min + octave_shift song_min song_max /\
   song_max + octave_shift song_min song_max <= 83 /\
   offset = octave_shift song_min song_max) \/
  (~ (48 <= song_min /\ song_max <= 83) /\
   ~ (song_max - song_min + 1 <= 36 /\
      48 <= song_min + octave_shift song_min song_max /\
      song_max + octave_shift song_min song_max <= 83) /\
   offset = Transposer.py_round
              (inject_Z (48 + 83) / 2 - inject_Z (song_min + song_max) / 2)).
Proof.
  unfold Transposer.calculate_offset, Transposer._game_range.
  fold (octave_shift song_min song_max).
  destruct ((song_min >=? 48) && (song_max <=? 83)) eqn:Efit.
  - left. lia.
  - right.
    destruct (song_max - song_min + 1 <=? 83 - 48 + 1) eqn:Espan.
    + destruct ((song_min + octave_shift song_min song_max >=? 48)
                && (song_max + octave_shift song_min song_max <=? 83)) eqn:Eoct.
      * left. repeat split; lia.
      * right. repeat split; try lia.
    + right. repeat split; lia.
Qed.

(** C2: for a range whose span is at most 36, [calculate_offset] is 0 when
    the range already lies in [48,83]; in every case the shifted range lies
    in [48,83]; when the range does not fit and the octave-rounded centring
    shift does, that shift is returned and is a multiple of 12;
    [calculate_offset (36,71)] is 12; and no pitch of the range is moved
    by clamping after the shift, so clipping needs a span above 36. *)
Theorem calculate_offset_within_width (song_min song_max : Z) :
  song_max - song_min + 1 <= 36 ->
  let offset := Transposer.calculate_offset 48 83 (song_min, song_max) in
  (48 <= song_min /\ song_max <= 83 -> offset = 0) /\
  (48 <= song_min + offset /\ song_max + offset <= 83) /\
  (~ (48 <= song_min /\ song_max <= 83) ->
   48 <= song_min + octave_shift song_min song_max /\
   song_max + octave_shift song_min song_max <= 83 ->
   offset = octave_shift song_min song_max /\ (12 | offset)) /\
  Transposer.calculate_offset 48 83 (36, 71) = 12 /\
  (forall p, song_min <= p <= song_max ->
             NoteConverter.clamp 4 (p + offset) = p + offset).
Proof.
  intros Hspan offset.
  assert (Hin : 48 <= song_min + offset /\ song_max + offset <= 83).
  { destruct (calculate_offset_cases song_min song_max)
      as [(H1 & H2 & H3) | [(H1 & H2 & H3 & H4 & H5) | (H1 & H2 & H3)]];
      fold offset in H3 || fold offset in H5; try lia.
    pose proof (raw_offset_bounds song_min song_max offset H3). lia. }
  split; [|split; [exact Hin|split; [|split]]].
  - intros Hfit.
    destruct (calculate_offset_cases song_min song_max)
      as [(H1 & H2 & H3) | [(H1 & _) | (H1 & _)]]; [exact H3 | tauto | tauto].
  - intros Hnot Hoct.
    destruct (calculate_offset_cases song_min song_max)
      as [(H1 & H2 & H3) | [(H1 & H2 & H3 & H4 & H5) | (H1 & H2 & H3)]];
      [tauto | | tauto].
    fold offset in H5. split; [exact H5|].
    rewrite H5. unfold octave_shift. apply Z.divide_factor_r.
  - vm_compute. reflexivity.
  - intros p Hp.
    unfold NoteConverter.clamp, NoteConverter.min_midi_note,
      NoteConverter.max_midi_note.
    lia.
Qed.

Lemma calculate_offset_within_width_witness :
  (48 <= 36 /\ 71 <= 83 -> Transposer.calculate_offset 48 83 (36, 71) = 0) /\
  (48 <= 36 + Transposer.calculate_offset 48 83 (36, 71) /\
   71 + Transposer.calculate_offset 48 83 (36, 71) <= 83) /\
  (~ (48 <= 36 /\ 71 <= 83) ->
   48 <= 36 + octave_shift 36 71 /\ 71 + octave_shift 36 71 <= 83 ->
   Transposer.calculate_offset 48 83 (36, 71) = octave_shift 36 71 /\
   (12 | Transposer.calculate_offset 48 83 (36, 71))) /\
  Transposer.calculate_offset 48 83 (36, 71) = 12 /\
  (forall p,
     36 <= p <= 71 ->
     NoteConverter.clamp 4 (p + Transposer.calculate_offset 48 83 (36, 71))
     = p + Transposer.calculate_offset 48 83 (36, 71)).
Proof.
  apply (calculate_offset_within_width 36 71). lia.
Defined.
Lemma list_min_lowest (x : Z) (l : list Z) :
  lowest (Transposer.list_min x l) (x :: l).
Proof.
  unfold Transposer.list_min, lowest. revert x.
  induction l as [|y l IH]; intros x; simpl.
  - split; [left; reflexivity | intros n [<-|[]]; lia].
  - destruct (IH (Z.min x y)) as [Hin Hle]. split.
    + destruct Hin as [Hin|Hin]; [|right; right; exact Hin].
      rewrite <- Hin. destruct (Z.min_spec x y) as [[_ ->]|[_ ->]]; auto.
    + intros n [<-|[<-|Hn]].
      * specialize (Hle (Z.min x y) (or_introl eq_refl)). lia.
      * specialize (Hle (Z.min x y) (or_introl eq_refl)). lia.
      * apply Hle. right. exact Hn.
Qed.

Lemma list_max_highest (x : Z) (l : list Z) :
  highest (Transposer.list_max x l) (x :: l).
Proof.
  unfold Transposer.list_max, highest. revert x.
  induction l as [|y l IH]; intros x; simpl.
  - split; [left; reflexivity | intros n [<-|[]]; lia].
  - destruct (IH (Z.max x y)) as [Hin Hle]. split.
    + destruct Hin as [Hin|Hin]; [|right; right; exact Hin].
      rewrite <- Hin. destruct (Z.max_spec x y) as [[_ ->]|[_ ->]]; auto.
    + intros n [<-|[<-|Hn]].
      * specialize (Hle (Z.max x y) (or_introl eq_refl)). lia.
      * specialize (Hle (Z.max x y) (or_introl eq_refl)). lia.
      * apply Hle. right. exact Hn.
Qed.

Lemma lowest_unique (a b : Z) (l : list Z) :
  lowest a l -> lowest b l -> a = b.
Proof.
  intros [Ha Ha'] [Hb Hb'].
  specialize (Ha' b Hb). specialize (Hb' a Ha). lia.
Qed.

Lemma highest_unique (a b : Z) (l : list Z) :
  highest a l -> highest b l -> a = b.
Proof.
  intros [Ha Ha'] [Hb Hb'].
  specialize (Ha' b Hb). specialize (Hb' a Ha). lia.
Qed.

Lemma filter_length_le {A : Type} (f g : A -> bool) (l : list A) :
  (forall x, In x l -> f x = true -> g x = true) ->
  (length (filter f l) <= length (filter g l))%nat.
Proof.
  induction l as [|a l IH]; intros H; simpl; [lia|].
  assert (IH' := IH (fun x Hx => H x (or_intror Hx))).
  destruct (f a) eqn:Ef.
  - rewrite (H a (or_introl eq_refl) Ef). simpl. lia.
  - destruct (g a); simpl; lia.
Qed.

Lemma count_between_mono (notes : list Z) (a b c d : Z) :
  (forall n, In n notes -> a <= n <= b -> c <= n <= d) ->
  Transposer.count_between notes a b <= Transposer.count_between notes c d.
Proof.
  intros H. unfold Transposer.count_between.
  apply inj_le. apply filter_length_le.
  intros n Hn Hf. specialize (H n Hn). lia.
Qed.

Lemma count_between_pos (notes : list Z) (a b n : Z) :
  In n notes -> a <= n <= b -> 0 < Transposer.count_between notes a b.
Proof.
  intros Hin Hn. unfold Transposer.count_between.
  assert (In n (filter (fun n => (a <=? n) && (n <=? b)) notes)) as H.
  { apply filter_In. split; [exact Hin | lia]. }
  destruct (filter _ notes); [destruct H | simpl; lia].
Qed.

Lemma py_range_snoc (lo : Z) (n : nat) :
  py_range lo (lo + Z.of_nat (S n))
  = py_range lo (lo + Z.of_nat n) ++ [lo + Z.of_nat n].
Proof.
  unfold py_range.
  replace (Z.to_nat (lo + Z.of_nat (S n) - lo)) with (S n) by lia.
  replace (Z.to_nat (lo + Z.of_nat n - lo)) with n by lia.
  rewrite seq_S, map_app. reflexivity.
Qed.

(** The state of the sliding-window scan after the starts [lo .. lo+n-1]. *)
Lemma window_scan_invariant (notes : list Z) (lo : Z) (n : nat) :
  let count s := Transposer.count_between notes s (s + 35) in
  let best :=
    fold_left (Transposer.window_step notes)
      (py_range lo (lo + Z.of_nat n)) (lo, 0) in
  (forall s, lo <= s < lo + Z.of_nat n -> count s <= snd best) /\
  (forall s, lo <= s < fst best -> count s < snd best) /\
  ((fst best = lo /\ snd best = 0) \/
   (lo <= fst best < lo + Z.of_nat n /\ snd best = count (fst best))).
Proof.
  intros count. induction n as [|n IH].
  - unfold py_range.
    replace (Z.to_nat (lo + Z.of_nat 0 - lo)) with 0%nat by lia.
    simpl. split; [lia|]. split; [lia|]. left. split; reflexivity.
  - rewrite py_range_snoc, fold_left_app. cbn zeta in IH |- *.
    destruct (fold_left (Transposer.window_step notes)
                (py_range lo (lo + Z.of_nat n)) (lo, 0)) as [b c].
    simpl in IH. destruct IH as (Hall & Htie & Hbest).
    cbn [fold_left Transposer.window_step].
    change NoteConverter.GAME_RANGE with 36.
    replace (lo + Z.of_nat n + 36 - 1) with (lo + Z.of_nat n + 35) by lia.
    fold (count (lo + Z.of_nat n)).
    destruct (count (lo + Z.of_nat n) >? c) eqn:E; cbn [fst snd].
    + split; [|split].
      * intros s Hs.
        destruct (Z.eq_dec s (lo + Z.of_nat n)) as [->|Hne]; [lia|].
        specialize (Hall s). lia.
      * intros s Hs. specialize (Hall s). lia.
      * right. split; [lia | reflexivity].
    + split; [|split].
      * intros s Hs.
        destruct (Z.eq_dec s (lo + Z.of_nat n)) as [->|Hne]; [lia|].
        specialize (Hall s). lia.
      * exact Htie.
      * destruct Hbest as [Hb|Hb]; [left; exact Hb | right; lia].
Qed.

(** C5: when the onsets span more than 36 semitones, [find_best_window]
    returns a start inside the song's span and the number of onsets in the
    window at that start; no 36-semitone window holds more onsets, and
    every lower start of the scan holds strictly fewer, so the lowest start
    with the maximal count is the one returned.  When the span fits, the
    result is the lowest onset pitch and the number of onsets. *)
Theorem find_best_window_maximal (events : list NoteEvent) (lo hi : Z) :
  lowest lo (onset_pitches events) ->
  highest hi (onset_pitches events) ->
  let best := Transposer.find_best_window 48 events in
  (36 < hi - lo + 1 ->
   lo <= fst best <= hi - 35 /\
   snd best = count_in_window events (fst best) /\
   (forall w, count_in_window events w <= snd best) /\
   (forall w, lo <= w < fst best -> count_in_window events w < snd best)) /\
  (hi - lo + 1 <= 36 ->
   best = (lo, Z.of_nat (length (onset_pitches events)))).
Proof.
  intros Hlo Hhi best. subst best.
  unfold Transposer.find_best_window, count_in_window.
  fold (onset_pitches events).
  destruct (onset_pitches events) as [|n0 rest] eqn:En.
  { destruct Hlo as [[] _]. }
  rewrite (lowest_unique _ _ _ (list_min_lowest n0 rest) Hlo).
  rewrite (highest_unique _ _ _ (list_max_highest n0 rest) Hhi).
  change NoteConverter.GAME_RANGE with 36.
  set (notes := n0 :: rest) in *.
  split.
  - intros Hwide.
    destruct (hi - lo <? 36) eqn:E; [lia|].
    replace (hi - 36 + 2) with (lo + Z.of_nat (Z.to_nat (hi - 34 - lo)))
      by lia.
    pose proof (window_scan_invariant notes lo (Z.to_nat (hi - 34 - lo)))
      as Hinv.
    cbn zeta in Hinv.
    destruct (fold_left (Transposer.window_step notes)
                (py_range lo (lo + Z.of_nat (Z.to_nat (hi - 34 - lo))))
                (lo, 0)) as [b c].
    cbn [fst snd] in *. destruct Hinv as (Hall & Htie & Hbest).
    assert (Hc : 0 < c).
    { pose proof (count_between_pos notes lo (lo + 35) lo (proj1 Hlo)).
      specialize (Hall lo). lia. }
    destruct Hbest as [Hb|Hb]; [lia|].
    split; [lia|]. split; [tauto|]. split; [|exact Htie].
    intros w.
    destruct (Z_lt_le_dec w lo) as [Hw|Hw].
    + pose proof (count_between_mono notes w (w + 35) lo (lo + 35)) as Hm.
      specialize (Hall lo).
      assert (Transposer.count_between notes w (w + 35)
              <= Transposer.count_between notes lo (lo + 35)); [|lia].
      apply Hm. intros n Hn Hr. pose proof (proj2 Hlo n Hn). lia.
    + destruct (Z_lt_le_dec (hi - 35) w) as [Hw'|Hw'].
      * pose proof (count_between_mono notes w (w + 35) (hi - 35)
                      (hi - 35 + 35)) as Hm.
        specialize (Hall (hi - 35)).
        assert (Transposer.count_between notes w (w + 35)
                <= Transposer.count_between notes (hi - 35) (hi - 35 + 35));
          [|lia].
        apply Hm. intros n Hn Hr. pose proof (proj2 Hhi n Hn). lia.
      * apply Hall. lia.
  - intros Hfit.
    destruct (hi - lo <? 36) eqn:E; [reflexivity | lia].
Qed.


Lemma find_best_window_maximal_witness :
  (let best := Transposer.find_best_window 48 wide_song in
   0 <= fst best <= 71 - 35 /\
   snd best = count_in_window wide_song (fst best) /\
   (forall w, count_in_window wide_song w <= snd best) /\
   (forall w, 0 <= w < fst best -> count_in_window wide_song w < snd best)) /\
  Transposer.find_best_window 48 narrow_song
  = (60, Z.of_nat (length (onset_pitches narrow_song))).
Proof.
  split.
  - apply (proj1 (find_best_window_maximal wide_song 0 71
                    ltac:(split; [simpl; tauto | intros n H; simpl in H; lia])
                    ltac:(split; [simpl; tauto
                                 | intros n H; simpl in H; lia]))).
    lia.
  - apply (proj2 (find_best_window_maximal narrow_song 60 64
                    ltac:(split; [simpl; tauto | intros n H; simpl in H; lia])
                    ltac:(split; [simpl; tauto
                                 | intros n H; simpl in H; lia]))).
    lia.
Defined.

Section FilterLoop.
Variable w : Z.

Lemma filter_loop_acc (events : list NoteEvent) (acc : Q)
    (filtered : list NoteEvent) :
  Transposer.filter_loop w (w + 35) events acc filtered
  = filtered ++ Transposer.filter_loop w (w + 35) events acc [].
Proof.
  revert acc filtered.
  induction events as [|e rest IH]; intros acc filtered; simpl.
  - rewrite app_nil_r. reflexivity.
  - destruct (is_note_on e); simpl; [|apply IH].
    destruct ((w <=? note e) && (note e <=? w + 35)); [|apply IH].
    rewrite IH. rewrite (IH _ [_]). rewrite app_assoc. reflexivity.
Qed.

Lemma filter_loop_selects (events : list NoteEvent) (acc : Q) :
  map pitch_and_velocity (Transposer.filter_loop w (w + 35) events acc [])
  = map pitch_and_velocity (filter (kept w) events).
Proof.
  revert acc.
  induction events as [|e rest IH]; intros acc; simpl; [reflexivity|].
  unfold kept at 1.
  destruct (is_note_on e) eqn:Eon; simpl; [|apply IH].
  destruct ((w <=? note e) && (note e <=? w + 35)); [|apply IH].
  rewrite filter_loop_acc. simpl.
  rewrite IH. unfold pitch_and_velocity at 1 3. simpl. rewrite Eon.
  reflexivity.
Qed.



End FilterLoop.



(** ** The song compiler *)

Lemma semitone_total (r : Z) :
  0 <= r < 0 + Z.of_nat 12 ->
  exists na, NoteConverter.SEMITONE_TO_NOTE r = Some na.
Proof.
  revert r. apply Z_interval_cases. intros k Hk.
  do 12 (destruct k as [|k]; [eexists; reflexivity|]). lia.
Qed.

Lemma convert_total (base_octave p : Z) :
  exists g, NoteConverter.convert base_octave p = Ok g.
Proof.
  unfold NoteConverter.convert.
  destruct (semitone_total (NoteConverter.clamp base_octave p mod 12))
    as [na Hna].
  { pose proof (Z.mod_pos_bound (NoteConverter.clamp base_octave p) 12). lia. }
  rewrite Hna. eexists. reflexivity.
Qed.

Lemma get_key_press_total (g : GameNote) :
  exists kp, KeyMapper.get_key_press g = Ok kp.
Proof.
  destruct g as [p n a]. destruct p, n, a; eexists; reflexivity.
Qed.

Section CompileFacts.
Variables transpose_offset base_octave : Z.
Variable chord_threshold : Q.

Lemma compile_note_effect (s : CompiledSong.t) (idx : nat) (ce : NoteEvent)
    (n : Z) :
  let s' :=
    CompiledSong.try_except_pass
      (CompiledSong.compile_note transpose_offset base_octave idx ce n) s in
  exists c,
    CompiledSong.notes s' = CompiledSong.notes s ++ [c] /\
    CompiledSong.cn_chord_size c = (if Nat.eqb idx 0 then n else 0) /\
    CompiledSong.cn_time_delta c
    = (if Nat.eqb idx 0 then time_delta ce else 0%Q) /\
    CompiledSong.density_map s' = CompiledSong.density_map s /\
    CompiledSong.except_taken s'
    = (CompiledSong.except_taken s
       + if bytes_fit idx ce n then 0 else 1)%nat.
Proof.
  unfold CompiledSong.compile_note,
    CompiledSong.try_except_pass, bytes_fit.
  destruct (convert_total base_octave (note ce + transpose_offset))
    as [g Hg].
  destruct (get_key_press_total g) as [kp Hkp].
  unfold bind, CompiledSong.Monad_M, CompiledSong.M_bind, CompiledSong.lift.
  rewrite Hg, Hkp.
  unfold CompiledSong._velocities_append, CompiledSong._chord_sizes_append,
    CompiledSong.array_B_append. cbn.
  assert (Hv : (Z.min 127 (velocity ce) <=? 255) = true) by lia.
  rewrite Hv, andb_true_r.
  destruct (0 <=? Z.min 127 (velocity ce)); cbn.
  - destruct (Nat.eqb idx 0); cbn.
    + destruct ((0 <=? n) && (n <=? 255)); cbn;
        eexists; repeat split; lia.
    + eexists; repeat split; lia.
  - eexists; repeat split; lia.
Qed.

Lemma compile_chord_followers (members : list NoteEvent) (n : Z)
    (idx : nat) (s : CompiledSong.t) :
  let s' :=
    CompiledSong.compile_chord transpose_offset base_octave (S idx) members
      n s in
  exists cs,
    CompiledSong.notes s' = CompiledSong.notes s ++ cs /\
    map CompiledSong.cn_chord_size cs = repeat 0 (length members) /\
    map CompiledSong.cn_time_delta cs = repeat 0%Q (length members) /\
    CompiledSong.density_map s' = CompiledSong.density_map s.
Proof.
  revert idx s. induction members as [|ce rest IH]; intros idx s; simpl.
  - exists []. rewrite app_nil_r. repeat split.
  - destruct (compile_note_effect s (S idx) ce n)
      as (c & Hn & Hsz & Hdt & Hdm & _).
    destruct (IH (S idx)
                (CompiledSong.try_except_pass
                   (CompiledSong.compile_note transpose_offset base_octave
                      (S idx) ce n) s))
      as (cs & Hn' & Hsz' & Hdt' & Hdm').
    exists (c :: cs). cbn zeta in *. simpl in Hsz, Hdt.
    rewrite Hn', Hn, <- app_assoc. simpl.
    rewrite Hsz, Hdt, Hsz', Hdt', Hdm', Hdm. repeat split.
Qed.

Lemma compile_chord_cluster (c : list NoteEvent) (s : CompiledSong.t) :
  let s' :=
    CompiledSong.compile_chord transpose_offset base_octave 0 c
      (Z.of_nat (length c)) s in
  exists cs,
    CompiledSong.notes s' = CompiledSong.notes s ++ cs /\
    map CompiledSong.cn_chord_size cs = cluster_sizes c /\
    map CompiledSong.cn_time_delta cs = cluster_deltas c /\
    CompiledSong.density_map s' = CompiledSong.density_map s.
Proof.
  destruct c as [|e c'].
  - exists []. simpl. rewrite app_nil_r. repeat split.
  - cbn [CompiledSong.compile_chord].
    destruct (compile_note_effect s 0 e (Z.of_nat (length (e :: c'))))
      as (c0 & Hn & Hsz & Hdt & Hdm & _).
    destruct (compile_chord_followers c' (Z.of_nat (length (e :: c'))) 0
                (CompiledSong.try_except_pass
                   (CompiledSong.compile_note transpose_offset base_octave
                      0 e (Z.of_nat (length (e :: c')))) s))
      as (cs & Hn' & Hsz' & Hdt' & Hdm').
    exists (c0 :: cs). cbn zeta in *. simpl in Hsz, Hdt.
    rewrite Hn', Hn, <- app_assoc.
    cbn [map cluster_sizes cluster_deltas app].
    rewrite Hsz, Hdt, Hsz', Hdt', Hdm', Hdm. repeat split.
Qed.

Lemma chord_scan_followers (rest acc : list NoteEvent) :
  CompiledSong.chord_scan chord_threshold rest acc
  = (acc ++ chord_followers chord_threshold rest,
     after_chord chord_threshold rest).
Proof.
  revert acc. induction rest as [|e rest IH]; intros acc; simpl.
  - rewrite app_nil_r. reflexivity.
  - unfold within_threshold.
    destruct (Qle_bool (time_delta e) chord_threshold).
    + rewrite IH, <- app_assoc. reflexivity.
    + rewrite app_nil_r. reflexivity.
Qed.

Lemma chord_clusters_cons (e : NoteEvent) (rest : list NoteEvent) :
  chord_clusters chord_threshold (e :: rest)
  = (e :: chord_followers chord_threshold rest)
      :: chord_clusters chord_threshold (after_chord chord_threshold rest).
Proof.
  revert e. induction rest as [|e' rest IH]; intros e; [reflexivity|].
  cbn [chord_clusters] in *. rewrite (IH e').
  cbn [chord_followers after_chord].
  destruct (within_threshold chord_threshold e'); [reflexivity|].
  cbn [chord_clusters]. rewrite (IH e'). reflexivity.
Qed.

Lemma compile_loop_clusters (events : list NoteEvent) (total_time : Q)
    (s : CompiledSong.t) :
  let s' :=
    snd (CompiledSong.compile_loop transpose_offset base_octave
           chord_threshold events total_time s) in
  exists cs,
    CompiledSong.notes s' = CompiledSong.notes s ++ cs /\
    map CompiledSong.cn_chord_size cs
    = flat_map cluster_sizes (chord_clusters chord_threshold events) /\
    map CompiledSong.cn_time_delta cs
    = flat_map cluster_deltas (chord_clusters chord_threshold events) /\
    CompiledSong.density_map s' = CompiledSong.density_map s.
Proof.
  funelim (CompiledSong.compile_loop transpose_offset base_octave
             chord_threshold events total_time s).
  - exists []. simpl. rewrite app_nil_r. repeat split.
  - rewrite chord_clusters_cons. cbn zeta in *.
    rewrite chord_scan_followers in *. cbn [fst snd app] in *.
    set (c := event :: chord_followers chord_threshold rest) in *.
    destruct (compile_chord_cluster c song) as (cs1 & Hn1 & Hsz1 & Hdt1 & Hdm1).
    cbn zeta in *.
    destruct H as (cs2 & Hn2 & Hsz2 & Hdt2 & Hdm2).
    exists (cs1 ++ cs2).
    rewrite Hn2, Hn1, <- app_assoc, !map_app.
    cbn [flat_map]. rewrite Hsz1, Hsz2, Hdt1, Hdt2, Hdm2, Hdm1.
    repeat split.
Qed.
End CompileFacts.

Section ClusterFacts.
Variable chord_threshold : Q.

Lemma followers_then_after (rest : list NoteEvent) :
  chord_followers chord_threshold rest ++ after_chord chord_threshold rest
  = rest.
Proof.
  induction rest as [|e rest IH]; simpl; [reflexivity|].
  destruct (within_threshold chord_threshold e); simpl; [|reflexivity].
  f_equal. exact IH.
Qed.

Lemma followers_within (rest : list NoteEvent) :
  Forall (fun e => within_threshold chord_threshold e = true)
    (chord_followers chord_threshold rest).
Proof.
  induction rest as [|e rest IH]; simpl; [constructor|].
  destruct (within_threshold chord_threshold e) eqn:E; constructor; assumption.
Qed.

Lemma after_chord_gap (rest : list NoteEvent) :
  match after_chord chord_threshold rest with
  | [] => True
  | e :: _ => within_threshold chord_threshold e = false
  end.
Proof.
  induction rest as [|e rest IH]; simpl; [exact I|].
  destruct (within_threshold chord_threshold e) eqn:E; [exact IH | exact E].
Qed.

Lemma after_chord_length (rest : list NoteEvent) :
  (length (after_chord chord_threshold rest) <= length rest)%nat.
Proof.
  induction rest as [|e rest IH]; simpl; [lia|].
  destruct (within_threshold chord_threshold e); simpl; lia.
Qed.

Lemma chord_clusters_shape (events : list NoteEvent) :
  let clusters := chord_clusters chord_threshold events in
  concat clusters = events /\
  Forall (cluster_ok chord_threshold) clusters /\
  Forall (starts_after_gap chord_threshold) (tl clusters).
Proof.
  remember (length events) as n eqn:Hn.
  assert (Hle : (length events <= n)%nat) by lia. clear Hn.
  revert events Hle.
  induction n as [|n IH]; intros [|e rest] Hle; simpl in Hle;
    try lia; try (simpl; repeat split; constructor).
  rewrite chord_clusters_cons. cbn zeta.
  pose proof (after_chord_length rest) as Hlen.
  destruct (IH (after_chord chord_threshold rest)) as (Hcat & Hok & Hgap);
    [lia|].
  cbn [concat tl].
  split; [|split].
  - rewrite Hcat. simpl. f_equal. apply followers_then_after.
  - constructor; [|exact Hok].
    split; [discriminate | apply followers_within].
  - pose proof (after_chord_gap rest) as Hhead.
    destruct (after_chord chord_threshold rest) as [|e2 r2] eqn:Ea;
      [constructor|].
    rewrite chord_clusters_cons in *. constructor; assumption.
Qed.
End ClusterFacts.

Lemma Zsum_app (l1 l2 : list Z) : Zsum (l1 ++ l2) = Zsum l1 + Zsum l2.
Proof. induction l1 as [|x l1 IH]; simpl; lia. Qed.

Lemma Zsum_repeat_0 (n : nat) : Zsum (repeat 0 n) = 0.
Proof. induction n as [|n IH]; simpl; lia. Qed.

Lemma cluster_sizes_sum (clusters : list (list NoteEvent)) :
  Zsum (flat_map cluster_sizes clusters)
  = Z.of_nat (length (concat clusters)) /\
  length (flat_map cluster_sizes clusters) = length (concat clusters).
Proof.
  induction clusters as [|c cl [IH1 IH2]]; simpl; [split; reflexivity|].
  rewrite Zsum_app, !length_app, IH1, IH2.
  destruct c as [|e c']; simpl; [split; lia|].
  rewrite Zsum_repeat_0, repeat_length. split; lia.
Qed.

Lemma cumulative_times_length (ns : list CompiledSong.CompiledNote) (t : Q) :
  length (CompiledSong.cumulative_times ns t) = length ns.
Proof.
  revert t. induction ns as [|n ns IH]; intros t; simpl; [reflexivity|].
  rewrite IH. reflexivity.
Qed.

Lemma fold_density_append (g : Q -> Q) (l : list Q) (s : CompiledSong.t) :
  let s' :=
    fold_left (fun self t => CompiledSong.density_map_append (g t) self) l s
  in
  CompiledSong.notes s' = CompiledSong.notes s /\
  CompiledSong.total_notes s' = CompiledSong.total_notes s /\
  CompiledSong.density_map s' = CompiledSong.density_map s ++ map g l.
Proof.
  revert s. induction l as [|t l IH]; intros s; simpl.
  - rewrite app_nil_r. repeat split.
  - destruct (IH (CompiledSong.density_map_append (g t) s)) as (H1 & H2 & H3).
    cbn zeta in *. rewrite H1, H2, H3. simpl. rewrite <- app_assoc.
    repeat split.
Qed.

Lemma _calculate_density_length (window : Q) (s : CompiledSong.t) :
  CompiledSong.notes (CompiledSong._calculate_density window s)
  = CompiledSong.notes s /\
  CompiledSong.total_notes (CompiledSong._calculate_density window s)
  = CompiledSong.total_notes s /\
  length (CompiledSong.density_map (CompiledSong._calculate_density window s))
  = (length (CompiledSong.density_map s) + length (CompiledSong.notes s))%nat.
Proof.
  unfold CompiledSong._calculate_density.
  destruct (CompiledSong.notes s) as [|n0 ns] eqn:En.
  - rewrite En. repeat split. simpl. lia.
  - match goal with
    | |- context [fold_left
                    (fun self t =>
                       CompiledSong.density_map_append (@?g t) self) ?l s] =>
        destruct (fold_density_append g l s) as (H1 & H2 & H3)
    end.
    cbn zeta in *. rewrite H1, H2, H3, length_app, length_map.
    rewrite cumulative_times_length, En. repeat split.
Qed.

(** C3: [compile] groups the events into chord clusters, each event
    together with the directly following events whose own delta is at most
    the threshold: the clusters are contiguous and cover the events in
    order, every member but the first of a cluster is within the threshold
    and every cluster but the first starts after a larger gap.  The first
    note of a cluster records the cluster size and its own delta, the
    other members record chord size 0 and delta 0; the chord sizes sum to
    the compiled note count, which is the event count; and the density map
    has one entry per compiled note. *)
Theorem compile_groups_chords (events : list NoteEvent)
    (transpose_offset base_octave : Z) (chord_threshold : Q) :
  let song :=
    CompiledSong.compile transpose_offset base_octave chord_threshold events in
  let clusters := chord_clusters chord_threshold events in
  concat clusters = events /\
  Forall (cluster_ok chord_threshold) clusters /\
  Forall (starts_after_gap chord_threshold) (tl clusters) /\
  map CompiledSong.cn_chord_size (CompiledSong.notes song)
  = flat_map cluster_sizes clusters /\
  map CompiledSong.cn_time_delta (CompiledSong.notes song)
  = flat_map cluster_deltas clusters /\
  Zsum (map CompiledSong.cn_chord_size (CompiledSong.notes song))
  = Z.of_nat (length (CompiledSong.notes song)) /\
  CompiledSong.total_notes song = Z.of_nat (length (CompiledSong.notes song)) /\
  length (CompiledSong.notes song) = length events /\
  length (CompiledSong.density_map song) = length (CompiledSong.notes song).
Proof.
  intros song clusters.
  destruct (chord_clusters_shape chord_threshold events)
    as (Hcat & Hok & Hgap).
  fold clusters in Hcat, Hok, Hgap.
  assert (Hnotes :
    map CompiledSong.cn_chord_size (CompiledSong.notes song)
    = flat_map cluster_sizes clusters /\
    map CompiledSong.cn_time_delta (CompiledSong.notes song)
    = flat_map cluster_deltas clusters /\
    CompiledSong.total_notes song
    = Z.of_nat (length (CompiledSong.notes song)) /\
    length (CompiledSong.density_map song)
    = length (CompiledSong.notes song)).
  { subst song clusters. unfold CompiledSong.compile.
    destruct events as [|e rest]; [repeat split|].
    destruct (compile_loop_clusters transpose_offset base_octave
                chord_threshold (e :: rest) 0 CompiledSong.__init__)
      as (cs & Hn & Hsz & Hdt & Hdm).
    cbn zeta in Hn, Hdm.
    destruct (CompiledSong.compile_loop transpose_offset base_octave
                chord_threshold (e :: rest) 0 CompiledSong.__init__)
      as [total_time s].
    cbn [snd] in Hn, Hdm. simpl in Hn, Hdm.
    match goal with
    | |- context [CompiledSong._calculate_density ?w ?s1] =>
        destruct (_calculate_density_length w s1) as (H1 & H2 & H3)
    end.
    rewrite H1, H2, H3. cbn [CompiledSong.notes CompiledSong.total_notes
                               CompiledSong.density_map].
    rewrite Hn, Hdm, Hsz, Hdt. repeat split. }
  destruct Hnotes as (Hsz & Hdt & Htot & Hdens).
  destruct (cluster_sizes_sum clusters) as [Hsum Hlen].
  assert (Hcount : length (CompiledSong.notes song) = length events).
  { rewrite <- (length_map CompiledSong.cn_chord_size), Hsz, Hlen, Hcat.
    reflexivity. }
  repeat split; try assumption.
  rewrite Hsz, Hsum, Hcat, Hcount. reflexivity.
Qed.

Section NoException.
Variables transpose_offset base_octave : Z.
Variable chord_threshold : Q.

Lemma compile_chord_followers_quiet (members : list NoteEvent) (n : Z)
    (idx : nat) (s : CompiledSong.t) :
  Forall NoteEvent_valid members ->
  CompiledSong.except_taken
    (CompiledSong.compile_chord transpose_offset base_octave (S idx)
       members n s)
  = CompiledSong.except_taken s.
Proof.
  revert idx s. induction members as [|ce rest IH]; intros idx s Hv; simpl;
    [reflexivity|].
  inversion Hv as [|? ? Hce Hrest]; subst.
  rewrite (IH _ _ Hrest).
  destruct (compile_note_effect transpose_offset base_octave s (S idx) ce n)
    as (c & _ & _ & _ & _ & He).
  cbn zeta in He. rewrite He. unfold bytes_fit. simpl.
  destruct Hce as (_ & Hvel & _).
  replace (0 <=? Z.min 127 (velocity ce)) with true by lia.
  simpl. lia.
Qed.

Lemma compile_chord_cluster_quiet (c : list NoteEvent) (s : CompiledSong.t) :
  Forall NoteEvent_valid c ->
  (length c <= 255)%nat ->
  CompiledSong.except_taken
    (CompiledSong.compile_chord transpose_offset base_octave 0 c
       (Z.of_nat (length c)) s)
  = CompiledSong.except_taken s.
Proof.
  intros Hv Hlen. destruct c as [|e c']; [reflexivity|].
  inversion Hv as [|? ? He Hrest]; subst.
  cbn [CompiledSong.compile_chord].
  rewrite (compile_chord_followers_quiet _ _ _ _ Hrest).
  destruct (compile_note_effect transpose_offset base_octave s 0 e
              (Z.of_nat (length (e :: c'))))
    as (c0 & _ & _ & _ & _ & Hex).
  cbn zeta in Hex. rewrite Hex. unfold bytes_fit.
  destruct He as (_ & Hvel & _).
  replace (0 <=? Z.min 127 (velocity e)) with true by lia.
  cbn [Nat.eqb andb].
  replace ((0 <=? Z.of_nat (length (e :: c')))
           && (Z.of_nat (length (e :: c')) <=? 255)) with true by lia.
  lia.
Qed.

Lemma compile_loop_quiet (events : list NoteEvent) (total_time : Q)
    (s : CompiledSong.t) :
  Forall NoteEvent_valid events ->
  Forall (fun c => (length c <= 255)%nat)
    (chord_clusters chord_threshold events) ->
  CompiledSong.except_taken
    (snd (CompiledSong.compile_loop transpose_offset base_octave
            chord_threshold events total_time s))
  = CompiledSong.except_taken s.
Proof.
  funelim (CompiledSong.compile_loop transpose_offset base_octave
             chord_threshold events total_time s);
    intros Hv Hsmall; [reflexivity|].
  rewrite chord_clusters_cons in Hsmall.
  inversion Hsmall as [|? ? Hc Hrest]; subst.
  cbn zeta in *. rewrite chord_scan_followers in *.
  cbn [fst snd app] in *.
  assert (Hsplit :
    Forall NoteEvent_valid (event :: chord_followers chord_threshold rest)
    /\ Forall NoteEvent_valid (after_chord chord_threshold rest)).
  { rewrite <- (followers_then_after chord_threshold rest) in Hv.
    inversion Hv as [|? ? He Hr]; subst.
    apply Forall_app in Hr as [Hf Ha]. split; [constructor|]; assumption. }
  destruct Hsplit as [Hf Ha].
  rewrite (H Ha Hrest).
  apply compile_chord_cluster_quiet; assumption.
Qed.
End NoException.

Lemma fold_density_except (g : Q -> Q) (l : list Q) (s : CompiledSong.t) :
  CompiledSong.except_taken
    (fold_left (fun self t => CompiledSong.density_map_append (g t) self) l s)
  = CompiledSong.except_taken s.
Proof.
  revert s. induction l as [|t l IH]; intros s; simpl; [reflexivity|].
  rewrite IH. reflexivity.
Qed.

(** Apart from a chord of more than 255 events, nothing in [compile]
    raises on validated events. *)
Lemma compile_quiet (events : list NoteEvent)
    (transpose_offset base_octave : Z) (chord_threshold : Q) :
  Forall NoteEvent_valid events ->
  Forall (fun c => (length c <= 255)%nat)
    (chord_clusters chord_threshold events) ->
  CompiledSong.except_taken
    (CompiledSong.compile transpose_offset base_octave chord_threshold events)
  = 0%nat.
Proof.
  intros Hv Hsmall. unfold CompiledSong.compile.
  destruct events as [|e rest]; [reflexivity|].
  pose proof (compile_loop_quiet transpose_offset base_octave chord_threshold
                (e :: rest) 0 CompiledSong.__init__ Hv Hsmall) as Hq.
  destruct (CompiledSong.compile_loop transpose_offset base_octave
              chord_threshold (e :: rest) 0 CompiledSong.__init__)
    as [total_time s].
  cbn [snd] in Hq. unfold CompiledSong._calculate_density.
  cbn [CompiledSong.notes].
  destruct (CompiledSong.notes s); [exact Hq|].
  rewrite fold_density_except. exact Hq.
Qed.

(** C10, at the failing input: 256 valid onsets 40 ms apart form one
    chord under the 50 ms threshold; storing its size in the byte array
    raises, the [except] branch runs once and the size array is left one
    entry short, although all 256 notes are compiled. *)
Theorem compile_large_chord_raises :
  Forall NoteEvent_valid large_chord /\
  let song := CompiledSong.compile 0 4 (5 # 100) large_chord in
  CompiledSong.except_taken song = 1%nat /\
  length (CompiledSong.notes song) = 256%nat /\
  length (CompiledSong._chord_sizes song) = 255%nat.
Proof.
  split.
  - apply Forall_forall. intros e He. apply repeat_spec in He. subst e.
    unfold NoteEvent_valid. simpl. repeat split; try lia. discriminate.
  - vm_compute. repeat split.
Qed.

(** ** The playback controller *)

Ltac break_match :=
  match goal with
  | |- context [match ?x with _ => _ end] => destruct x eqn:?
  end.

Section PlaybackFacts.
Import AutoBardApp.
Variable random_uniform : nat -> Q -> Q -> Q.

Lemma same_session_refl (a : App) : same_session a a.
Proof.
  repeat split. exists []. rewrite app_nil_r. reflexivity.
Qed.

Lemma same_session_trans (a b c : App) :
  same_session a b -> same_session b c -> same_session a c.
Proof.
  intros (H1 & H2 & H3 & H4 & H5 & l1 & H6) (K1 & K2 & K3 & K4 & K5 & l2 & K6).
  repeat split; try congruence.
  exists (l1 ++ l2). rewrite K6, H6, app_assoc. reflexivity.
Qed.

Lemma base_delay_of_session (a : App) (delta : Q) (vel : Z)
    (density : option Q) :
  let a' := snd (base_delay_of random_uniform a delta vel density) in
  same_session a a' /\
  _state a' = _state a /\
  _start_position a' = _start_position a /\
  _current_position a' = _current_position a /\
  threads a' = threads a /\
  _playback_thread a' = _playback_thread a /\
  log a' = log a.
Proof.
  unfold base_delay_of. destruct (humanize_ms (_config a) >? 0); simpl;
    repeat split; try (exists []; rewrite app_nil_r; reflexivity).
Qed.

Lemma thread_step_session (th : thread) (a : App) :
  let a' := snd (thread_step random_uniform th a) in
  same_session a a' /\
  threads a' = threads a /\
  _playback_thread a' = _playback_thread a.
Proof.
  destruct th; cbn [thread_step];
    repeat first
      [ match goal with
        | |- context [base_delay_of ?r ?a ?d ?v ?o] =>
            let H := fresh "Hb" in
            pose proof (base_delay_of_session a d v o) as H;
            cbn zeta in H;
            destruct (base_delay_of r a d v o) as [? ?]
        end
      | break_match ];
    cbn [snd fst] in *; unfold wait_if_positive;
    repeat break_match;
    unfold same_session; simpl;
    repeat match goal with
           | H : same_session _ _ /\ _ |- _ =>
               destruct H
                 as ((? & ? & ? & ? & ? & ? & ?) & ? & ? & ? & ? & ? & ?)
           end;
    simpl in *;
    repeat split; try congruence;
    try match goal with H : log _ = _ |- _ => rewrite H end;
    first [ eexists; reflexivity
          | exists []; rewrite app_nil_r; reflexivity ].
Qed.

Lemma step_session (tid : nat) (a : App) :
  same_session a (step random_uniform tid a).
Proof.
  unfold step. destruct (nth_error (threads a) tid) as [th|];
    [|apply same_session_refl].
  pose proof (thread_step_session th a) as (H & _). cbn zeta in H.
  destruct (thread_step random_uniform th a) as [th' a'].
  cbn [snd] in H. unfold same_session in *. exact H.
Qed.

Lemma run_session (schedule : list nat) (a : App) :
  same_session a (run random_uniform schedule a).
Proof.
  unfold run. revert a.
  induction schedule as [|tid rest IH]; intros a; simpl.
  - apply same_session_refl.
  - eapply same_session_trans; [apply step_session | apply IH].
Qed.




(** What [stop] has done when it reaches its join. *)
Lemma stop_unfold (schedule : list nat) (a : App) :
  exists b,
    stop random_uniform schedule a
    = _set_state STOPPED
        (set_start_position 0 (set_current_position 0 b)) /\
    same_session (emit release_all (set_pause_flag false
                                       (set_stop_flag true a))) b.
Proof.
  unfold stop, join.
  destruct (playback_thread_alive _);
    eexists; (split; [reflexivity|]);
    [apply run_session | apply same_session_refl].
Qed.

(** C7: from every prior state, and whatever the playback threads do
    while they are joined, [stop] asks the key-command sink to release
    all keys before anything else reaches the sink and before it
    returns, and it returns with both indices 0, the state [STOPPED], the
    stop signal set and the pause signal cleared. *)
Theorem stop_releases_and_resets (schedule : list nat) (a : App) :
  let a' := stop random_uniform schedule a in
  _state a' = STOPPED /\
  _current_position a' = 0 /\
  _start_position a' = 0 /\
  _stop_flag a' = true /\
  _pause_flag a' = false /\
  exists during, log a' = log a ++ release_all :: during.
Proof.
  destruct (stop_unfold schedule a)
    as (b & -> & (_ & _ & _ & Hs & Hp & during & Hl)).
  simpl in *. repeat split; try assumption.
  exists during. rewrite Hl, <- app_assoc. reflexivity.
Qed.










End PlaybackFacts.





(** ** Runs of the scenarios of the test suite and of the specification *)

Example py_round_ties :
  map Transposer.py_round [1 # 2; 3 # 2; 5 # 2; - (1 # 2); 7 # 4; - (7 # 4)]%Q
  = [0; 2; 2; 0; 2; -2].
Proof. vm_compute. reflexivity. Qed.

Example convert_middle_c :
  NoteConverter.convert 4 60 = Ok (mkGameNote MID DO NATURAL) /\
  NoteConverter.convert 4 63 = Ok (mkGameNote MID MI FLAT) /\
  NoteConverter.convert 4 20 = Ok (mkGameNote LOW DO NATURAL) /\
  NoteConverter.convert 4 127 = Ok (mkGameNote HIGH TI NATURAL).
Proof. vm_compute. repeat split. Qed.

Example calculate_offset_runs :
  Transposer.calculate_offset 48 83 (48, 83) = 0 /\
  Transposer.calculate_offset 48 83 (60, 95) = -12 /\
  Transposer.calculate_offset 48 83 (40, 60) = 12 /\
  Transposer.calculate_offset 48 83 (30, 100) = 0 /\
  Transposer.calculate_offset 48 83 (20, 22) = 48.
Proof. vm_compute. repeat split. Qed.

Example find_best_window_runs :
  Transposer.find_best_window 48 wide_song = (36, 3) /\
  Transposer.find_best_window 48 narrow_song = (60, 3) /\
  Transposer.find_best_window 48 [] = (48, 0).
Proof. vm_compute. repeat split. Qed.

Example compile_three_notes :
  let song := CompiledSong.compile 0 4 (5 # 100) narrow_song in
  CompiledSong.total_notes song = 3 /\
  map CompiledSong.cn_chord_size (CompiledSong.notes song) = [1; 1; 1] /\
  map CompiledSong.cn_is_chord_start (CompiledSong.notes song)
  = [false; false; false] /\
  map CompiledSong.cn_key (CompiledSong.notes song)
  = ["a"; "s"; "d"]%string /\
  (CompiledSong.duration song == 1)%Q /\
  CompiledSong.except_taken song = 0%nat.
Proof. vm_compute. repeat split. Qed.

Example compile_two_note_chord :
  let song := CompiledSong.compile 0 4 (5 # 100) two_note_chord in
  chord_clusters (5 # 100) two_note_chord = [two_note_chord] /\
  map CompiledSong.cn_chord_size (CompiledSong.notes song) = [2; 0] /\
  map CompiledSong.cn_is_chord_start (CompiledSong.notes song)
  = [true; false] /\
  map CompiledSong.cn_time_delta (CompiledSong.notes song) = [0; 0]%Q.
Proof. vm_compute. repeat split. Qed.

(** * Further properties of the code *)

(** ** More on the converter and the key mapper *)

Lemma clamp_fixes_range (b p : Z) :
  NoteConverter.is_in_range b p = true <-> NoteConverter.clamp b p = p.
Proof.
  unfold NoteConverter.is_in_range, NoteConverter.clamp,
    NoteConverter.min_midi_note, NoteConverter.max_midi_note.
  rewrite andb_true_iff, !Z.leb_le. lia.
Qed.

Lemma convert_at_clamped (b p c : Z) :
  NoteConverter.clamp b p = c ->
  NoteConverter.convert b p
  = (na <- subscript (NoteConverter.SEMITONE_TO_NOTE (c mod 12)) ;;
     Ok (mkGameNote (band_of (c / 12 - b)) (fst na) (snd na))).
Proof. intros <-. reflexivity. Qed.

(** X1: a pitch is in the converter's range exactly when clamping leaves it
    alone; every pitch below the range is converted to the lowest note
    of the instrument (low band, degree 1, no accidental) and every pitch
    above it to the highest one (high band, degree 7, no accidental),
    whatever the base octave. *)
Theorem convert_outside_range (b p : Z) :
  (NoteConverter.is_in_range b p = true <-> NoteConverter.clamp b p = p) /\
  (p < NoteConverter.min_midi_note b ->
   NoteConverter.convert b p = Ok (mkGameNote LOW DO NATURAL)) /\
  (NoteConverter.max_midi_note b < p ->
   NoteConverter.convert b p = Ok (mkGameNote HIGH TI NATURAL)).
Proof.
  split; [apply clamp_fixes_range|]. split; intros H.
  - rewrite (convert_at_clamped b p (b * 12)).
    + rewrite Z.mod_mul, Z.div_mul by lia.
      replace (b - b) with 0 by lia. reflexivity.
    + unfold NoteConverter.clamp, NoteConverter.min_midi_note,
        NoteConverter.max_midi_note in *. lia.
  - rewrite (convert_at_clamped b p ((b + 2) * 12 + 11)).
    + replace (((b + 2) * 12 + 11) mod 12) with 11
        by (rewrite Z.add_comm, Z.mod_add by lia; reflexivity).
      replace (((b + 2) * 12 + 11) / 12 - b) with 2
        by (rewrite Z.add_comm, Z.div_add by lia;
            change (11 / 12) with 0; lia).
      reflexivity.
    + unfold NoteConverter.clamp, NoteConverter.min_midi_note,
        NoteConverter.max_midi_note in *. lia.
Qed.

Lemma convert_outside_range_witness :
  NoteConverter.convert 4 12 = Ok (mkGameNote LOW DO NATURAL) /\
  NoteConverter.convert 4 120 = Ok (mkGameNote HIGH TI NATURAL).
Proof.
  split.
  - apply (proj1 (proj2 (convert_outside_range 4 12))). vm_compute. reflexivity.
  - apply (proj2 (proj2 (convert_outside_range 4 120))). vm_compute. reflexivity.
Defined.

Lemma semitone_table_injective (r1 r2 : Z) :
  0 <= r1 < 0 + Z.of_nat 12 ->
  0 <= r2 < 0 + Z.of_nat 12 ->
  NoteConverter.SEMITONE_TO_NOTE r1 = NoteConverter.SEMITONE_TO_NOTE r2 ->
  r1 = r2.
Proof.
  intros H1. revert r1 H1 r2.
  apply (Z_interval_cases
           (fun r1 => forall r2, 0 <= r2 < 0 + Z.of_nat 12 ->
                                 NoteConverter.SEMITONE_TO_NOTE r1
                                 = NoteConverter.SEMITONE_TO_NOTE r2 ->
                                 r1 = r2)).
  intros k1 Hk1.
  do 12 (destruct k1 as [|k1];
         [cbv beta;
          match goal with
          | |- forall r2, _ -> @?Q r2 => apply (Z_interval_cases Q)
          end; intros k2 Hk2;
          do 12 (destruct k2 as [|k2];
                 [intros E; first [reflexivity | discriminate E]|]); lia|]).
  lia.
Qed.

Lemma band_of_injective (k1 k2 : Z) :
  0 <= k1 <= 2 -> 0 <= k2 <= 2 -> band_of k1 = band_of k2 -> k1 = k2.
Proof.
  intros H1 H2. unfold band_of.
  destruct (k1 <=? 0) eqn:A1; destruct (k1 =? 1) eqn:B1;
    destruct (k2 <=? 0) eqn:A2; destruct (k2 =? 1) eqn:B2;
    intros E; try discriminate E; lia.
Qed.

Lemma convert_injective (b p q : Z) :
  NoteConverter.is_in_range b p = true ->
  NoteConverter.is_in_range b q = true ->
  NoteConverter.convert b p = NoteConverter.convert b q ->
  p = q.
Proof.
  intros Hp Hq E.
  pose proof (proj1 (clamp_fixes_range b p) Hp) as Cp.
  pose proof (proj1 (clamp_fixes_range b q) Hq) as Cq.
  rewrite (convert_at_clamped b p p Cp), (convert_at_clamped b q q Cq) in E.
  unfold NoteConverter.is_in_range, NoteConverter.min_midi_note,
    NoteConverter.max_midi_note in Hp, Hq.
  apply andb_prop in Hp as [Hp1 Hp2]. apply andb_prop in Hq as [Hq1 Hq2].
  pose proof (Z.mod_pos_bound p 12 ltac:(lia)) as Rp.
  pose proof (Z.mod_pos_bound q 12 ltac:(lia)) as Rq.
  pose proof (Z.div_mod p 12 ltac:(lia)) as Dp.
  pose proof (Z.div_mod q 12 ltac:(lia)) as Dq.
  destruct (semitone_total (p mod 12)) as [na Hna]; [lia|].
  destruct (semitone_total (q mod 12)) as [nb Hnb]; [lia|].
  rewrite Hna, Hnb in E. cbn in E. inversion E as [[Eband En Ea]].
  assert (Er : p mod 12 = q mod 12).
  { apply semitone_table_injective; try lia.
    rewrite Hna, Hnb. destruct na, nb. simpl in *. congruence. }
  assert (Ek : p / 12 - b = q / 12 - b).
  { apply band_of_injective; try assumption; lia. }
  lia.
Qed.


Lemma semitone_supported (r : Z) (na : NoteName * Accidental) :
  NoteConverter.SEMITONE_TO_NOTE r = Some na ->
  KeyMapper.is_accidental_supported (fst na) (snd na) = true.
Proof.
  destruct r as [|r|r]; try discriminate.
  - intros E. inversion E. reflexivity.
  - repeat (destruct r as [r|r|]; try discriminate);
      intros E; inversion E; reflexivity.
Qed.

Lemma convert_supported (b p : Z) (g : GameNote) :
  NoteConverter.convert b p = Ok g ->
  KeyMapper.is_accidental_supported (name g) (accidental g) = true.
Proof.
  unfold NoteConverter.convert.
  destruct (NoteConverter.SEMITONE_TO_NOTE (NoteConverter.clamp b p mod 12))
    as [na|] eqn:E; [|discriminate].
  apply semitone_supported in E. cbn. intros H. inversion H. exact E.
Qed.

(** X3: every note the converter produces carries an accidental the key
    mapper supports, so the mapper's fallback to the natural key is never
    taken for it: the note is played on its natural key, with shift for a
    sharp, ctrl for a flat and no modifier otherwise. *)
Theorem converted_notes_are_supported (b p : Z) (g : GameNote) :
  NoteConverter.convert b p = Ok g ->
  KeyMapper.is_accidental_supported (name g) (accidental g) = true /\
  exists k,
    NATURAL_KEYS (pitch g) (name g) = Some k /\
    KeyMapper.get_key_press g = Ok (mkKeyPress k (modifiers_of (accidental g))).
Proof.
  intros H. pose proof (convert_supported b p g H) as Hs.
  split; [exact Hs|].
  destruct g as [pt n a]. cbn [name accidental] in *.
  destruct pt, n, a; try discriminate Hs; eexists; split; reflexivity.
Qed.

Lemma converted_notes_are_supported_witness :
  KeyMapper.is_accidental_supported MI FLAT = true /\
  exists k,
    NATURAL_KEYS MID MI = Some k /\
    KeyMapper.get_key_press (mkGameNote MID MI FLAT)
    = Ok (mkKeyPress k (modifiers_of FLAT)).
Proof.
  apply (converted_notes_are_supported 4 63 (mkGameNote MID MI FLAT)).
  vm_compute. reflexivity.
Defined.

(** X4: for every game note, supported or not, [get_key_press] succeeds
    and presses the key of the natural note of the same band and degree:
    the sharp and flat tables never name another key.  The accidental
    only chooses the modifier, and an unsupported one chooses none. *)
Theorem accidental_keeps_the_letter (g : GameNote) :
  exists k ms,
    NATURAL_KEYS (pitch g) (name g) = Some k /\
    KeyMapper.get_key_press g = Ok (mkKeyPress k ms) /\
    ms = (if KeyMapper.is_accidental_supported (name g) (accidental g)
          then modifiers_of (accidental g) else []).
Proof.
  destruct g as [p n a]. destruct p, n, a; do 2 eexists; repeat split.
Qed.

Lemma get_key_press_injective (g1 g2 : GameNote) :
  KeyMapper.is_accidental_supported (name g1) (accidental g1) = true ->
  KeyMapper.is_accidental_supported (name g2) (accidental g2) = true ->
  KeyMapper.get_key_press g1 = KeyMapper.get_key_press g2 ->
  g1 = g2.
Proof.
  destruct g1 as [p1 n1 a1], g2 as [p2 n2 a2].
  destruct p1, n1, a1; intros H1; try discriminate H1; clear H1;
    destruct p2, n2, a2; intros H2; try discriminate H2; clear H2;
    intros E; first [reflexivity | discriminate E].
Qed.

(** X2: inside the converter's range, two different pitches are converted
    to different game notes and are played with different key
    combinations: the 36 playable pitches never share a key and
    modifier. *)
Theorem playable_pitches_have_distinct_keys (b p q : Z) :
  NoteConverter.is_in_range b p = true ->
  NoteConverter.is_in_range b q = true ->
  p <> q ->
  NoteConverter.convert b p <> NoteConverter.convert b q /\
  key_of_pitch b p <> key_of_pitch b q.
Proof.
  intros Hp Hq Hne. split.
  - intros E. apply Hne. apply (convert_injective b p q Hp Hq E).
  - unfold key_of_pitch.
    destruct (convert_total b p) as [g1 H1].
    destruct (convert_total b q) as [g2 H2].
    rewrite H1, H2. cbn [bind Monad_result result_bind]. intros E.
    apply Hne. apply (convert_injective b p q Hp Hq).
    rewrite H1, H2. f_equal.
    apply get_key_press_injective;
      [apply (convert_supported b p g1 H1)
      |apply (convert_supported b q g2 H2)
      |exact E].
Qed.

Lemma playable_pitches_have_distinct_keys_witness :
  NoteConverter.convert 4 63 <> NoteConverter.convert 4 75 /\
  key_of_pitch 4 63 <> key_of_pitch 4 75.
Proof.
  apply (playable_pitches_have_distinct_keys 4 63 75);
    [vm_compute; reflexivity | vm_compute; reflexivity | lia].
Defined.

(** ** More on the transposer *)

Lemma post_init_valid (e : NoteEvent) :
  __post_init__ e = true <-> NoteEvent_valid e.
Proof.
  unfold __post_init__, NoteEvent_valid, Qlt_bool.
  rewrite !andb_true_iff, negb_true_iff, negb_false_iff, Qle_bool_iff.
  rewrite !Z.leb_le. tauto.
Qed.

Lemma NoteEvent_init_valid (n v : Z) (t : Q) (on : bool) :
  NoteEvent_valid (mkNoteEvent n v t on) ->
  NoteEvent_init n v t on = Some (mkNoteEvent n v t on).
Proof.
  intros H. apply post_init_valid in H. unfold NoteEvent_init.
  rewrite H. reflexivity.
Qed.

Lemma transposed_valid (offset : Z) (e : NoteEvent) :
  NoteEvent_valid e -> NoteEvent_valid (transposed offset e).
Proof.
  unfold NoteEvent_valid, transposed. simpl. intros (H1 & H2 & H3).
  repeat split; try lia; assumption.
Qed.

Lemma transpose_loop_map (events : list NoteEvent) (offset : Z)
    (acc : list NoteEvent) :
  Forall NoteEvent_valid events ->
  Transposer.transpose_loop events offset acc
  = Some (acc ++ map (transposed offset) events).
Proof.
  intros H. revert acc.
  induction H as [|e rest He Hrest IH]; intros acc; simpl.
  - rewrite app_nil_r. reflexivity.
  - rewrite NoteEvent_init_valid by (apply (transposed_valid offset e He)).
    rewrite IH. rewrite <- app_assoc. reflexivity.
Qed.

(** X5: on validated events [apply_transpose] never raises and returns,
    for every offset (0 included, where the input list itself is
    returned), each event with its pitch shifted and clamped to 0..127 and
    its other fields kept; the result passes the event validation again;
    and the clamp to 0..127 is invisible to a converter whose range lies
    in 0..127: the shifted pitch is converted as the clamped one is. *)
Theorem apply_transpose_clamps (events : list NoteEvent) (offset : Z) :
  Forall NoteEvent_valid events ->
  Transposer.apply_transpose events offset
  = Some (map (transposed offset) events) /\
  Forall NoteEvent_valid (map (transposed offset) events) /\
  forall b e,
    0 <= b <= 7 ->
    NoteConverter.convert b (note (transposed offset e))
    = NoteConverter.convert b (note e + offset).
Proof.
  intros H. split; [|split].
  - unfold Transposer.apply_transpose.
    destruct (offset =? 0) eqn:E.
    + apply Z.eqb_eq in E. subst offset. f_equal.
      induction H as [|e rest He Hrest IH]; simpl; [reflexivity|].
      rewrite <- IH. f_equal.
      destruct e as [n v t on]. destruct He as (Hn & _). simpl in Hn.
      unfold transposed. simpl. f_equal. lia.
    + apply (transpose_loop_map events offset []). exact H.
  - apply Forall_forall. intros e' Hin. apply in_map_iff in Hin.
    destruct Hin as (e & <- & Hin). apply transposed_valid.
    rewrite Forall_forall in H. apply H. exact Hin.
  - intros b e Hb. unfold NoteConverter.convert. simpl.
    replace (NoteConverter.clamp b (Z.max 0 (Z.min 127 (note e + offset))))
      with (NoteConverter.clamp b (note e + offset)); [reflexivity|].
    unfold NoteConverter.clamp, NoteConverter.min_midi_note,
      NoteConverter.max_midi_note. lia.
Qed.

Lemma apply_transpose_clamps_witness :
  Transposer.apply_transpose narrow_song 70
  = Some (map (transposed 70) narrow_song) /\
  Forall NoteEvent_valid (map (transposed 70) narrow_song) /\
  forall b e,
    0 <= b <= 7 ->
    NoteConverter.convert b (note (transposed 70 e))
    = NoteConverter.convert b (note e + 70).
Proof.
  apply (apply_transpose_clamps narrow_song 70).
  repeat constructor; simpl; try lia; try (unfold Qle; simpl; lia).
Defined.

Lemma out_of_range_loop_counts (lo hi : Z) (events : list NoteEvent)
    (offset below above : Z) :
  Transposer.out_of_range_loop lo hi events offset below above
  = (below + onsets_below lo offset events,
     above + Z.of_nat
               (length
                  (filter (fun n => negb (n + offset <? lo) && (n + offset >? hi))
                     (onset_pitches events)))).
Proof.
  revert below above. unfold onsets_below, onset_pitches.
  induction events as [|e rest IH]; intros below above; simpl.
  - f_equal; lia.
  - destruct (is_note_on e); simpl; [|apply IH].
    destruct (note e + offset <? lo) eqn:E1; simpl.
    + rewrite IH. f_equal. lia.
    + destruct (note e + offset >? hi) eqn:E2; simpl.
      * rewrite IH. f_equal. lia.
      * apply IH.
Qed.

Lemma filter_ext_length {A : Type} (f g : A -> bool) (l : list A) :
  (forall x, f x = g x) -> length (filter f l) = length (filter g l).
Proof.
  intros H. induction l as [|x l IH]; simpl; [reflexivity|].
  rewrite H. destruct (g x); simpl; congruence.
Qed.

Lemma filter_partition3 {A : Type} (f g h : A -> bool) (l : list A) :
  (forall x, (f x = true /\ g x = false /\ h x = false) \/
             (f x = false /\ g x = true /\ h x = false) \/
             (f x = false /\ g x = false /\ h x = true)) ->
  (length (filter f l) + length (filter g l) + length (filter h l)
   = length l)%nat.
Proof.
  intros H. induction l as [|x l IH]; simpl; [reflexivity|].
  destruct (H x) as [(-> & -> & ->) | [(-> & -> & ->) | (-> & -> & ->)]];
    simpl; lia.
Qed.

Lemma filter_nil_iff {A : Type} (f : A -> bool) (l : list A) :
  length (filter f l) = 0%nat <-> forall x, In x l -> f x = false.
Proof.
  induction l as [|x l IH]; simpl.
  - split; [intros _ y [] | reflexivity].
  - destruct (f x) eqn:E; simpl.
    + split; [discriminate|]. intros H. specialize (H x (or_introl eq_refl)).
      congruence.
    + rewrite IH. split.
      * intros H y [<-|Hy]; [exact E | apply H; exact Hy].
      * intros H y Hy. apply H. right. exact Hy.
Qed.

Lemma onset_pitch_in (events : list NoteEvent) (e : NoteEvent) :
  In e events -> is_note_on e = true -> In (note e) (onset_pitches events).
Proof.
  intros He Hon. unfold onset_pitches. apply in_map. apply filter_In. tauto.
Qed.

Lemma in_onset_pitches (events : list NoteEvent) (n : Z) :
  In n (onset_pitches events) ->
  exists e, In e events /\ is_note_on e = true /\ note e = n.
Proof.
  unfold onset_pitches. intros H. apply in_map_iff in H.
  destruct H as (e & <- & He). apply filter_In in He. exists e. tauto.
Qed.

Lemma get_out_of_range_count_unfold (lo hi : Z) (events : list NoteEvent)
    (offset : Z) :
  lo <= hi + 1 ->
  Transposer.get_out_of_range_count lo hi events offset
  = (onsets_below lo offset events, onsets_above hi offset events).
Proof.
  intros Hlohi. unfold Transposer.get_out_of_range_count.
  rewrite out_of_range_loop_counts.
  rewrite (filter_ext_length
             (fun n => negb (n + offset <? lo) && (n + offset >? hi))
             (fun n => n + offset >? hi)) by (intros x; lia).
  reflexivity.
Qed.

Lemma out_of_range_zero_iff (lo hi : Z) (events : list NoteEvent)
    (offset : Z) :
  lo <= hi + 1 ->
  Transposer.get_out_of_range_count lo hi events offset = (0, 0) <->
  forall e, In e events -> is_note_on e = true ->
            lo <= note e + offset <= hi.
Proof.
  intros Hlohi. rewrite get_out_of_range_count_unfold by exact Hlohi.
  unfold onsets_below, onsets_above. split.
  - intros H. inversion H as [[H1 H2]].
    assert (Hb : length (filter (fun n => n + offset <? lo)
                           (onset_pitches events)) = 0%nat) by lia.
    assert (Ha : length (filter (fun n => n + offset >? hi)
                           (onset_pitches events)) = 0%nat) by lia.
    rewrite filter_nil_iff in Hb, Ha.
    intros e He Hon.
    pose proof (onset_pitch_in events e He Hon) as Hin.
    specialize (Hb _ Hin). specialize (Ha _ Hin). cbv beta in Hb, Ha. lia.
  - intros H.
    assert (Hb : length (filter (fun n => n + offset <? lo)
                           (onset_pitches events)) = 0%nat).
    { apply filter_nil_iff. intros n Hn. apply in_onset_pitches in Hn.
      destruct Hn as (e & He & Hon & <-). specialize (H e He Hon). lia. }
    assert (Ha : length (filter (fun n => n + offset >? hi)
                           (onset_pitches events)) = 0%nat).
    { apply filter_nil_iff. intros n Hn. apply in_onset_pitches in Hn.
      destruct Hn as (e & He & Hon & <-). specialize (H e He Hon). lia. }
    rewrite Hb, Ha. reflexivity.
Qed.

(** X6: for a range with [lo <= hi + 1], [get_out_of_range_count] returns
    the number of onsets the offset leaves below [lo] and the number it
    leaves above [hi]; with the onsets inside the range they add up to
    the number of onsets; and the result is (0, 0) exactly when every
    onset lands in the range.  Note-off events are not counted. *)
Theorem out_of_range_count_partitions (lo hi : Z) (events : list NoteEvent)
    (offset : Z) :
  lo <= hi + 1 ->
  let r := Transposer.get_out_of_range_count lo hi events offset in
  fst r = onsets_below lo offset events /\
  snd r = onsets_above hi offset events /\
  fst r + snd r
  + Transposer.count_between (map (fun n => n + offset) (onset_pitches events))
      lo hi
  = Z.of_nat (length (onset_pitches events)) /\
  (r = (0, 0) <->
   forall e, In e events -> is_note_on e = true ->
             lo <= note e + offset <= hi).
Proof.
  intros Hlohi r. subst r.
  split; [|split; [|split]];
    [| | |apply out_of_range_zero_iff; exact Hlohi];
    rewrite get_out_of_range_count_unfold by exact Hlohi; cbn [fst snd];
    try reflexivity.
  unfold onsets_below, onsets_above, Transposer.count_between.
  pose proof (filter_partition3
                (fun n => n + offset <? lo) (fun n => n + offset >? hi)
                (fun n => (lo <=? n + offset) && (n + offset <=? hi))
                (onset_pitches events)) as Hp.
  replace (length (filter (fun n => (lo <=? n) && (n <=? hi))
                     (map (fun n => n + offset) (onset_pitches events))))
    with (length (filter (fun n => (lo <=? n + offset) && (n + offset <=? hi))
                    (onset_pitches events))).
  - specialize (Hp ltac:(intros x; cbv beta; lia)). lia.
  - generalize (onset_pitches events). intros l.
    induction l as [|x l IH]; simpl; [reflexivity|].
    destruct ((lo <=? x + offset) && (x + offset <=? hi)); simpl; congruence.
Qed.

Lemma out_of_range_count_partitions_witness :
  let r := Transposer.get_out_of_range_count 48 83 wide_song 0 in
  fst r = onsets_below 48 0 wide_song /\
  snd r = onsets_above 83 0 wide_song /\
  fst r + snd r
  + Transposer.count_between (map (fun n => n + 0) (onset_pitches wide_song))
      48 83
  = Z.of_nat (length (onset_pitches wide_song)) /\
  (r = (0, 0) <->
   forall e, In e wide_song -> is_note_on e = true ->
             48 <= note e + 0 <= 83).
Proof.
  apply (out_of_range_count_partitions 48 83 wide_song 0). lia.
Defined.

Lemma calculate_offset_fits (song_min song_max : Z) :
  song_max - song_min + 1 <= 36 ->
  let offset := Transposer.calculate_offset 48 83 (song_min, song_max) in
  48 <= song_min + offset /\ song_max + offset <= 83.
Proof.
  intros Hspan offset.
  destruct (calculate_offset_cases song_min song_max)
    as [(H1 & H2 & H3) | [(H1 & H2 & H3 & H4 & H5) | (H1 & H2 & H3)]];
    fold offset in H3 || fold offset in H5; try lia.
  pose proof (raw_offset_bounds song_min song_max offset H3). lia.
Qed.

(** X7: [analyze_range] returns the all-zero analysis that fits when there
    is no onset; otherwise its minimum and maximum are the lowest and
    highest onset pitch and its range their distance plus one.  When it
    says the song fits, its recommended offset leaves no onset outside
    the playable range; when it says the song does not fit, no offset
    does. *)
Theorem analyze_range_sound (events : list NoteEvent) :
  let r := Transposer.analyze_range 48 83 events in
  (onset_pitches events = [] -> r = Transposer.mkAnalysis 0 0 0 true 0) /\
  (forall lo hi,
     lowest lo (onset_pitches events) ->
     highest hi (onset_pitches events) ->
     Transposer.min_note r = lo /\
     Transposer.max_note r = hi /\
     Transposer.range_ r = hi - lo + 1 /\
     (Transposer.fits_in_game r = true ->
      Transposer.get_out_of_range_count 48 83 events
        (Transposer.recommended_offset r) = (0, 0)) /\
     (Transposer.fits_in_game r = false ->
      forall offset,
        Transposer.get_out_of_range_count 48 83 events offset <> (0, 0))).
Proof.
  intros r. subst r. unfold Transposer.analyze_range.
  fold (onset_pitches events). split.
  - intros ->. destruct events; reflexivity.
  - intros lo hi Hlo Hhi.
    destruct events as [|e0 events']; [destruct Hlo as [[] _]|].
    set (events := e0 :: events') in *.
    destruct (onset_pitches events) as [|n0 rest] eqn:En;
      [destruct Hlo as [[] _]|].
    rewrite (lowest_unique _ _ _ (list_min_lowest n0 rest) Hlo).
    rewrite (highest_unique _ _ _ (list_max_highest n0 rest) Hhi).
    cbn [Transposer.min_note Transposer.max_note Transposer.range_
           Transposer.fits_in_game Transposer.recommended_offset].
    unfold Transposer._game_range.
    split; [reflexivity|]. split; [reflexivity|]. split; [reflexivity|].
    split.
    + intros Hfit. apply Z.leb_le in Hfit.
      pose proof (calculate_offset_fits lo hi ltac:(lia)) as Hoff.
      cbn zeta in Hoff.
      apply (out_of_range_zero_iff 48 83 events _ ltac:(lia)).
      intros e He Hon.
      pose proof (onset_pitch_in events e He Hon) as Hin. rewrite En in Hin.
      pose proof (proj2 Hlo _ Hin). pose proof (proj2 Hhi _ Hin). lia.
    + intros Hfit offset Hzero. apply Z.leb_gt in Hfit.
      pose proof (proj1 (out_of_range_zero_iff 48 83 events offset
                           ltac:(lia)) Hzero) as Hall.
      assert (Hl : In lo (onset_pitches events)) by (rewrite En; apply Hlo).
      assert (Hh : In hi (onset_pitches events)) by (rewrite En; apply Hhi).
      apply in_onset_pitches in Hl, Hh.
      destruct Hl as (el & Hel & Hlon & Hln).
      destruct Hh as (eh & Heh & Hhon & Hhn).
      pose proof (Hall el Hel Hlon). pose proof (Hall eh Heh Hhon). lia.
Qed.

Lemma analyze_range_sound_witness :
  let r := Transposer.analyze_range 48 83 wide_song in
  Transposer.min_note r = 0 /\
  Transposer.max_note r = 71 /\
  Transposer.range_ r = 71 - 0 + 1 /\
  forall offset,
    Transposer.get_out_of_range_count 48 83 wide_song offset <> (0, 0).
Proof.
  destruct (analyze_range_sound wide_song) as [_ H].
  destruct (H 0 71
              ltac:(split; [simpl; tauto | intros n Hn; simpl in Hn; lia])
              ltac:(split; [simpl; tauto | intros n Hn; simpl in Hn; lia]))
    as (H1 & H2 & H3 & _ & H5).
  split; [exact H1|]. split; [exact H2|]. split; [exact H3|].
  apply H5. vm_compute. reflexivity.
Defined.

Lemma find_best_window_count (gmin : Z) (events : list NoteEvent) :
  snd (Transposer.find_best_window gmin events)
  = count_in_window events (fst (Transposer.find_best_window gmin events)).
Proof.
  unfold Transposer.find_best_window, count_in_window.
  fold (onset_pitches events).
  destruct (onset_pitches events) as [|n0 rest] eqn:En; [reflexivity|].
  pose proof (list_min_lowest n0 rest) as Hlo.
  pose proof (list_max_highest n0 rest) as Hhi.
  set (lo := Transposer.list_min n0 rest) in *.
  set (hi := Transposer.list_max n0 rest) in *.
  change NoteConverter.GAME_RANGE with 36.
  set (notes := n0 :: rest) in *.
  destruct (hi - lo <? 36) eqn:E.
  - cbn [fst snd]. unfold Transposer.count_between.
    f_equal. f_equal. symmetry.
    apply forallb_filter_id. apply forallb_forall. intros n Hn.
    pose proof (proj2 Hlo n Hn). pose proof (proj2 Hhi n Hn). lia.
  - replace (hi - 36 + 2) with (lo + Z.of_nat (Z.to_nat (hi - 34 - lo)))
      by lia.
    pose proof (window_scan_invariant notes lo (Z.to_nat (hi - 34 - lo)))
      as Hinv.
    cbn zeta in Hinv.
    destruct (fold_left (Transposer.window_step notes)
                (py_range lo (lo + Z.of_nat (Z.to_nat (hi - 34 - lo))))
                (lo, 0)) as [b c].
    cbn [fst snd] in *. destruct Hinv as (Hall & Htie & Hbest).
    pose proof (count_between_pos notes lo (lo + 35) lo (proj1 Hlo)).
    specialize (Hall lo).
    destruct Hbest as [Hb|Hb]; [lia|tauto].
Qed.

Lemma filter_to_window_length (events : list NoteEvent) (w : Z) :
  Z.of_nat (length (Transposer.filter_to_window events w))
  = count_in_window events w.
Proof.
  unfold Transposer.filter_to_window.
  change NoteConverter.GAME_RANGE with 36.
  replace (w + 36 - 1) with (w + 35) by lia.
  rewrite <- (length_map pitch_and_velocity).
  rewrite filter_loop_selects. rewrite length_map.
  unfold count_in_window, Transposer.count_between, onset_pitches.
  f_equal. induction events as [|e rest IH]; simpl; [reflexivity|].
  unfold kept at 1. destruct (is_note_on e); simpl; [|exact IH].
  destruct ((w <=? note e) && (note e <=? w + 35)); simpl; congruence.
Qed.

Lemma filter_loop_valid (w : Z) (events : list NoteEvent) (acc : Q) :
  Forall NoteEvent_valid events ->
  (0 <= acc)%Q ->
  Forall
    (fun e =>
       NoteEvent_valid e /\ is_note_on e = true /\ w <= note e <= w + 35)
    (Transposer.filter_loop w (w + 35) events acc []).
Proof.
  intros H. revert acc.
  induction H as [|e rest He Hrest IH]; intros acc Hacc; simpl;
    [constructor|].
  destruct (is_note_on e); simpl; [|apply IH; exact Hacc].
  destruct He as (Hn & Hv & Ht).
  destruct ((w <=? note e) && (note e <=? w + 35)) eqn:E.
  - rewrite filter_loop_acc. simpl. constructor.
    + unfold NoteEvent_valid. simpl. repeat split; try lia. lra.
    + apply IH. lra.
  - apply IH. lra.
Qed.

(** X8: the count [find_best_window] announces is the number of events
    [filter_to_window] keeps for the window it returns, for every event
    list; on validated events each kept event passes the constructor's
    checks, is an onset and lies in the window. *)
Theorem best_window_is_kept (gmin : Z) (events : list NoteEvent) :
  let best := Transposer.find_best_window gmin events in
  let out := Transposer.filter_to_window events (fst best) in
  Z.of_nat (length out) = snd best /\
  (Forall NoteEvent_valid events ->
   Forall
     (fun e =>
        __post_init__ e = true /\ is_note_on e = true /\
        fst best <= note e <= fst best + 35)
     out).
Proof.
  intros best out. split.
  - unfold out, best. rewrite filter_to_window_length.
    symmetry. apply find_best_window_count.
  - intros Hvalid. unfold out, Transposer.filter_to_window.
    change NoteConverter.GAME_RANGE with 36.
    replace (fst best + 36 - 1) with (fst best + 35) by lia.
    eapply Forall_impl; [|apply filter_loop_valid; [exact Hvalid | lra]].
    cbv beta. intros e (H1 & H2 & H3). rewrite post_init_valid. tauto.
Qed.

Lemma best_window_is_kept_witness :
  let best := Transposer.find_best_window 48 wide_song in
  let out := Transposer.filter_to_window wide_song (fst best) in
  Z.of_nat (length out) = snd best /\
  Forall
    (fun e =>
       __post_init__ e = true /\ is_note_on e = true /\
       fst best <= note e <= fst best + 35)
    out.
Proof.
  destruct (best_window_is_kept 48 wide_song) as [H1 H2].
  split; [exact H1|]. apply H2.
  repeat constructor; simpl; try lia; try (unfold Qle; simpl; lia).
Defined.

(** ** More on the song compiler *)

Section CompileKeys.
Variables transpose_offset base_octave : Z.
Variable chord_threshold : Q.

Lemma compile_note_plays (s : CompiledSong.t) (idx : nat) (ce : NoteEvent)
    (n : Z) :
  exists c,
    CompiledSong.notes
      (CompiledSong.try_except_pass
         (CompiledSong.compile_note transpose_offset base_octave idx ce n) s)
    = CompiledSong.notes s ++ [c] /\
    plays transpose_offset base_octave ce c.
Proof.
  unfold CompiledSong.compile_note, CompiledSong.try_except_pass, plays,
    key_of_pitch.
  destruct (convert_total base_octave (note ce + transpose_offset))
    as [g Hg].
  destruct (get_key_press_total g) as [kp Hkp].
  unfold bind, CompiledSong.Monad_M, CompiledSong.M_bind, CompiledSong.lift.
  rewrite Hg, Hkp.
  unfold CompiledSong._velocities_append, CompiledSong._chord_sizes_append,
    CompiledSong.array_B_append. cbn.
  rewrite Hkp. destruct kp as [k ms].
  repeat (match goal with
          | |- context [if ?b then _ else _] => destruct b
          end; cbn);
    eexists; (split; [reflexivity|]); split; reflexivity.
Qed.

Lemma compile_chord_plays (members : list NoteEvent) (n : Z) (idx : nat)
    (s : CompiledSong.t) :
  exists cs,
    CompiledSong.notes
      (CompiledSong.compile_chord transpose_offset base_octave idx members
         n s)
    = CompiledSong.notes s ++ cs /\
    Forall2 (plays transpose_offset base_octave) members cs.
Proof.
  revert idx s. induction members as [|ce rest IH]; intros idx s; simpl.
  - exists []. rewrite app_nil_r. split; [reflexivity | constructor].
  - destruct (compile_note_plays s idx ce n) as (c & Hn & Hp).
    destruct (IH (S idx)
                (CompiledSong.try_except_pass
                   (CompiledSong.compile_note transpose_offset base_octave
                      idx ce n) s))
      as (cs & Hn' & Hp').
    exists (c :: cs). rewrite Hn', Hn, <- app_assoc.
    split; [reflexivity | constructor; assumption].
Qed.

Lemma compile_loop_plays (events : list NoteEvent) (total_time : Q)
    (s : CompiledSong.t) :
  exists cs,
    CompiledSong.notes
      (snd (CompiledSong.compile_loop transpose_offset base_octave
              chord_threshold events total_time s))
    = CompiledSong.notes s ++ cs /\
    Forall2 (plays transpose_offset base_octave) events cs.
Proof.
  funelim (CompiledSong.compile_loop transpose_offset base_octave
             chord_threshold events total_time s).
  - exists []. simpl. rewrite app_nil_r. split; [reflexivity | constructor].
  - cbn zeta in *. rewrite chord_scan_followers in *. cbn [fst snd app] in *.
    set (c := event :: chord_followers chord_threshold rest) in *.
    destruct (compile_chord_plays c (Z.of_nat (length c)) 0 song)
      as (cs1 & Hn1 & Hp1).
    destruct H as (cs2 & Hn2 & Hp2).
    exists (cs1 ++ cs2). rewrite Hn2, Hn1, <- app_assoc.
    split; [reflexivity|].
    change (event :: rest) with ([event] ++ rest).
    rewrite <- (followers_then_after chord_threshold rest).
    rewrite app_assoc. apply Forall2_app; assumption.
Qed.

End CompileKeys.

Lemma compile_plays (events : list NoteEvent)
    (transpose_offset base_octave : Z) (chord_threshold : Q) :
  Forall2 (plays transpose_offset base_octave) events
    (CompiledSong.notes
       (CompiledSong.compile transpose_offset base_octave chord_threshold
          events)).
Proof.
  unfold CompiledSong.compile.
  destruct events as [|e rest]; [constructor|].
  destruct (compile_loop_plays transpose_offset base_octave chord_threshold
              (e :: rest) 0 CompiledSong.__init__) as (cs & Hn & Hp).
  destruct (CompiledSong.compile_loop transpose_offset base_octave
              chord_threshold (e :: rest) 0 CompiledSong.__init__)
    as [total_time s].
  cbn [snd] in Hn. simpl in Hn.
  match goal with
  | |- context [CompiledSong._calculate_density ?w ?s1] =>
      destruct (_calculate_density_length w s1) as (H1 & _)
  end.
  rewrite H1. cbn [CompiledSong.notes]. rewrite Hn. exact Hp.
Qed.

Lemma py_index_nth {A : Type} (l : list A) (i : nat) (x : A) :
  nth_error l i = Some x -> py_index l (Z.of_nat i) = Ok x.
Proof.
  intros H. unfold py_index.
  assert (Hi : (i < length l)%nat) by (apply nth_error_Some; congruence).
  replace (Z.of_nat i <? 0) with false by lia.
  replace ((0 <=? Z.of_nat i) && (Z.of_nat i <? Z.of_nat (length l)))
    with true by lia.
  rewrite Nat2Z.id, H. reflexivity.
Qed.

Lemma Forall2_nth {A B : Type} (R : A -> B -> Prop) (l : list A)
    (l' : list B) (i : nat) (x : A) :
  Forall2 R l l' -> nth_error l i = Some x ->
  exists y, nth_error l' i = Some y /\ R x y.
Proof.
  intros H. revert i. induction H as [|a b l l' Hab Hl IH]; intros i Hi.
  - destruct i; discriminate.
  - destruct i as [|i]; simpl in *.
    + inversion Hi; subst. exists b. split; [reflexivity | exact Hab].
    + apply IH. exact Hi.
Qed.

(** X12: the note [compile] stores at an index is the one of the event at
    that index: [get_key_press] returns the key combination of the
    event's transposed pitch and the stored velocity is the event's. *)
Theorem compiled_keys_follow_events (events : list NoteEvent)
    (transpose_offset base_octave : Z) (chord_threshold : Q) (i : nat)
    (e : NoteEvent) :
  nth_error events i = Some e ->
  let song :=
    CompiledSong.compile transpose_offset base_octave chord_threshold events in
  CompiledSong.get_key_press song (Z.of_nat i)
  = key_of_pitch base_octave (note e + transpose_offset) /\
  exists c,
    nth_error (CompiledSong.notes song) i = Some c /\
    CompiledSong.cn_velocity c = velocity e.
Proof.
  intros Hi song.
  destruct (Forall2_nth _ _ _ _ _
              (compile_plays events transpose_offset base_octave
                 chord_threshold) Hi) as (c & Hc & Hk & Hv).
  fold song in Hc. split.
  - unfold CompiledSong.get_key_press. rewrite (py_index_nth _ _ _ Hc).
    rewrite Hk. reflexivity.
  - exists c. split; assumption.
Qed.

Lemma compiled_keys_follow_events_witness :
  let song := CompiledSong.compile 0 4 (5 # 100) narrow_song in
  CompiledSong.get_key_press song (Z.of_nat 1)
  = key_of_pitch 4 (note (mkNoteEvent 62 100 (1 # 2) true) + 0) /\
  exists c,
    nth_error (CompiledSong.notes song) 1 = Some c /\
    CompiledSong.cn_velocity c = velocity (mkNoteEvent 62 100 (1 # 2) true).
Proof.
  apply (compiled_keys_follow_events narrow_song 0 4 (5 # 100) 1).
  reflexivity.
Defined.







Lemma filter_length_pos {A : Type} (f : A -> bool) (l : list A) (x : A) :
  In x l -> f x = true -> (1 <= length (filter f l))%nat.
Proof.
  intros Hin Hf.
  assert (H : In x (filter f l)) by (apply filter_In; tauto).
  destruct (filter f l); [destruct H | simpl; lia].
Qed.

Lemma filter_length_bound {A : Type} (f : A -> bool) (l : list A) :
  (length (filter f l) <= length l)%nat.
Proof.
  induction l as [|x l IH]; simpl; [lia|]. destruct (f x); simpl; lia.
Qed.

(** X14: every entry of the density map of a compiled song is at least
    1/2 (the note itself is in its two-second window) and at most half the
    note count. *)
Theorem density_map_bounds (events : list NoteEvent)
    (transpose_offset base_octave : Z) (chord_threshold : Q) :
  let song :=
    CompiledSong.compile transpose_offset base_octave chord_threshold events in
  Forall
    (fun d =>
       (1 # 2 <= d)%Q /\
       (d <= inject_Z (CompiledSong.total_notes song) / 2)%Q)
    (CompiledSong.density_map song).
Proof.
  intros song. subst song. unfold CompiledSong.compile.
  destruct events as [|e rest]; [constructor|].
  destruct (compile_loop_clusters transpose_offset base_octave
              chord_threshold (e :: rest) 0 CompiledSong.__init__)
    as (cs & Hn & _ & _ & Hdm).
  cbn zeta in Hn, Hdm.
  destruct (CompiledSong.compile_loop transpose_offset base_octave
              chord_threshold (e :: rest) 0 CompiledSong.__init__)
    as [total_time s].
  cbn [snd] in Hn, Hdm. simpl in Hn, Hdm.
  unfold CompiledSong._calculate_density.
  cbn [CompiledSong.notes].
  destruct (CompiledSong.notes s) as [|c0 cs0] eqn:En; [rewrite Hdm; constructor|].
  match goal with
  | |- context [fold_left
                  (fun self t =>
                     CompiledSong.density_map_append (@?g t) self) ?l ?s0] =>
      destruct (fold_density_append g l s0) as (H1 & H2 & H3)
  end.
  cbn zeta in H1, H2, H3. rewrite H2, H3.
  cbn [CompiledSong.density_map CompiledSong.total_notes]. rewrite Hdm.
  cbn [app].
  set (times := CompiledSong.cumulative_times (c0 :: cs0) 0).
  assert (Hlen : length times = length (c0 :: cs0))
    by apply cumulative_times_length.
  apply Forall_forall. intros d Hd. apply in_map_iff in Hd.
  destruct Hd as (t & <- & Ht).
  match goal with
  | |- context [length (filter ?f times)] =>
      pose proof (filter_length_pos f times t Ht) as Hpos;
      pose proof (filter_length_bound f times) as Hle;
      generalize dependent (length (filter f times))
  end.
  intros n Hpos Hle.
  assert (Hn1 : (1 <= n)%nat).
  { apply Hpos. apply andb_true_iff. rewrite !Qle_bool_iff.
    assert (Hw : (2 / 2 == 1)%Q) by reflexivity.
    rewrite !Hw. split; lra. }
  rewrite Hlen in Hle. clear Hpos.
  generalize dependent (length (c0 :: cs0)). intros m _ Hle.
  unfold Qle, Qdiv, Qmult, Qinv, inject_Z. cbn [Qnum Qden Pos.mul]. lia.
Qed.

Lemma skipn_nth_cons {A : Type} (l : list A) (k : nat) (x : A) :
  nth_error l k = Some x -> skipn k l = x :: skipn (S k) l.
Proof.
  revert l. induction k as [|k IH]; intros l E.
  - destruct l; [discriminate|]. inversion E. reflexivity.
  - destruct l as [|y l]; [discriminate|]. simpl in E.
    change (skipn (S k) (y :: l)) with (skipn k l).
    rewrite (IH l E). reflexivity.
Qed.

Lemma chord_key_presses_from (self : CompiledSong.t) (index a n : nat) :
  CompiledSong.chord_key_presses self (Z.of_nat index)
    (map Z.of_nat (seq a n))
  = Ok (map stored_key_press
          (firstn n (skipn (index + a) (CompiledSong.notes self)))).
Proof.
  revert a. induction n as [|n IH]; intros a; [reflexivity|].
  cbn [seq map CompiledSong.chord_key_presses]. rewrite IH.
  destruct (nth_error (CompiledSong.notes self) (index + a)) as [c|] eqn:E.
  - assert (Hlt : (index + a < length (CompiledSong.notes self))%nat)
      by (apply nth_error_Some; congruence).
    replace (Z.of_nat index + Z.of_nat a
             <? Z.of_nat (length (CompiledSong.notes self))) with true by lia.
    unfold CompiledSong.get_key_press.
    replace (Z.of_nat index + Z.of_nat a) with (Z.of_nat (index + a)) by lia.
    rewrite (py_index_nth _ _ _ E). cbn.
    f_equal.
    rewrite (skipn_nth_cons _ _ _ E).
    replace (index + S a)%nat with (S (index + a)) by lia.
    reflexivity.
  - apply nth_error_None in E.
    replace (Z.of_nat index + Z.of_nat a
             <? Z.of_nat (length (CompiledSong.notes self))) with false by lia.
    rewrite !skipn_all2 by lia. rewrite !firstn_nil. reflexivity.
Qed.

(** X15: for an index that is not negative [get_chord_key_presses] never
    raises: it returns the key combinations of the notes from the index
    on, as many as the chord size of the note at the index (one when that
    size is at most 1), cut at the end of the song, and none when the
    index is past the end. *)
Theorem chord_key_presses_window (self : CompiledSong.t) (index : nat) :
  CompiledSong.get_chord_key_presses self (Z.of_nat index)
  = Ok (map stored_key_press
          (firstn (chord_span self index)
             (skipn index (CompiledSong.notes self)))).
Proof.
  unfold CompiledSong.get_chord_key_presses, chord_span.
  destruct (nth_error (CompiledSong.notes self) index) as [c|] eqn:E.
  - assert (Hlt : (index < length (CompiledSong.notes self))%nat)
      by (apply nth_error_Some; congruence).
    replace (Z.of_nat index >=? Z.of_nat (length (CompiledSong.notes self)))
      with false by lia.
    rewrite (py_index_nth _ _ _ E). cbn [bind Monad_result result_bind].
    destruct (CompiledSong.cn_chord_size c <=? 1) eqn:Esz.
    + replace (Z.max 1 (CompiledSong.cn_chord_size c)) with (Z.of_nat 1)
        by lia.
      rewrite Nat2Z.id.
      pose proof (chord_key_presses_from self index 0 1) as H.
      cbn [seq map CompiledSong.chord_key_presses] in H.
      replace (Z.of_nat index + Z.of_nat 0) with (Z.of_nat index) in H
        by lia.
      replace (Z.of_nat index
               <? Z.of_nat (length (CompiledSong.notes self))) with true in H
        by lia.
      rewrite Nat.add_0_r in H. rewrite <- H.
      destruct (CompiledSong.get_key_press self (Z.of_nat index));
        reflexivity.
    + replace (Z.max 1 (CompiledSong.cn_chord_size c))
        with (CompiledSong.cn_chord_size c) by lia.
      unfold py_range. rewrite Z.sub_0_r.
      rewrite (map_ext (fun k => 0 + Z.of_nat k) Z.of_nat)
        by (intros k; lia).
      rewrite chord_key_presses_from, Nat.add_0_r. reflexivity.
  - apply nth_error_None in E.
    replace (Z.of_nat index >=? Z.of_nat (length (CompiledSong.notes self)))
      with true by lia.
    reflexivity.
Qed.

(** ** Loading a song *)

Lemma compile_total_notes (events : list NoteEvent)
    (transpose_offset base_octave : Z) (chord_threshold : Q) :
  CompiledSong.total_notes
    (CompiledSong.compile transpose_offset base_octave chord_threshold events)
  = Z.of_nat (length events).
Proof.
  pose proof (Forall2_length
                (compile_plays events transpose_offset base_octave
                   chord_threshold)) as Hlen.
  rewrite Hlen. clear Hlen. unfold CompiledSong.compile.
  destruct events as [|e rest]; [reflexivity|].
  destruct (CompiledSong.compile_loop transpose_offset base_octave
              chord_threshold (e :: rest) 0 CompiledSong.__init__)
    as [total_time s].
  match goal with
  | |- context [CompiledSong._calculate_density ?w ?s1] =>
      destruct (_calculate_density_length w s1) as (H1 & H2 & _)
  end.
  rewrite H1, H2. reflexivity.
Qed.

Lemma onsets_of_onsets (l : list NoteEvent) :
  filter is_note_on (filter is_note_on l) = filter is_note_on l.
Proof.
  induction l as [|e l IH]; simpl; [reflexivity|].
  destruct (is_note_on e) eqn:E; simpl; rewrite ?E, IH; reflexivity.
Qed.

Lemma offset_fits_events (events : list NoteEvent) (w : Z) :
  Forall (fun e => w <= note e <= w + 35) events ->
  let offset :=
    match map note events with
    | n0 :: rest =>
        Transposer.calculate_offset 48 83
          (Transposer.list_min n0 rest, Transposer.list_max n0 rest)
    | [] => 0
    end in
  Forall (fun e => 48 <= note e + offset <= 83) events.
Proof.
  intros Hw offset. subst offset.
  destruct (map note events) as [|n0 rest] eqn:En.
  { destruct events; [constructor | discriminate]. }
  pose proof (list_min_lowest n0 rest) as Hlo.
  pose proof (list_max_highest n0 rest) as Hhi.
  set (lo := Transposer.list_min n0 rest) in *.
  set (hi := Transposer.list_max n0 rest) in *.
  rewrite <- En in Hlo, Hhi.
  rewrite Forall_forall in Hw.
  assert (Hin : forall n, In n (map note events) -> w <= n <= w + 35).
  { intros n Hn. apply in_map_iff in Hn. destruct Hn as (e & <- & He).
    apply Hw. exact He. }
  pose proof (Hin lo (proj1 Hlo)). pose proof (Hin hi (proj1 Hhi)).
  pose proof (calculate_offset_fits lo hi ltac:(lia)) as Hoff.
  cbn zeta in Hoff.
  apply Forall_forall. intros e He.
  pose proof (proj2 Hlo (note e) (in_map note _ _ He)).
  pose proof (proj2 Hhi (note e) (in_map note _ _ He)). lia.
Qed.

(** X9: after a load with auto-optimize on, of validated events whose
    onsets do not span exactly 36 semitones, the state is READY and every
    event kept for playback is a valid onset whose transposed pitch lies
    in the playable range 48..83: nothing is clamped during playback. *)
Theorem load_events_playable (loaded : list NoteEvent)
    (a : AutoBardApp.App) :
  Forall NoteEvent_valid loaded ->
  (forall lo hi,
     lowest lo (onset_pitches loaded) ->
     highest hi (onset_pitches loaded) -> hi - lo <> 36) ->
  let a' := AutoBardApp.load_events true loaded a in
  AutoBardApp._state a' = READY /\
  Forall
    (fun e =>
       __post_init__ e = true /\ is_note_on e = true /\
       NoteConverter.is_in_range 4
         (note e + AutoBardApp._transpose_offset a') = true)
    (AutoBardApp._events a').
Proof.
  intros Hvalid Hspan a'. split; [reflexivity|].
  subst a'. unfold AutoBardApp.load_events.
  cbn [AutoBardApp._events AutoBardApp._transpose_offset
         AutoBardApp._set_state].
  change NoteConverter.GAME_MIN_MIDI with 48.
  change NoteConverter.GAME_MAX_MIDI with 83.
  fold (onset_pitches loaded).
  assert (Hv : Forall NoteEvent_valid (filter is_note_on loaded)).
  { apply Forall_forall. intros e He. apply filter_In in He.
    rewrite Forall_forall in Hvalid. apply Hvalid. tauto. }
  assert (Hon : Forall (fun e => is_note_on e = true)
                  (filter is_note_on loaded)).
  { apply Forall_forall. intros e He. apply filter_In in He. tauto. }
  assert (Hgoal : forall events w,
            Forall NoteEvent_valid events ->
            Forall (fun e => is_note_on e = true) events ->
            Forall (fun e => w <= note e <= w + 35) events ->
            Forall
              (fun e =>
                 __post_init__ e = true /\ is_note_on e = true /\
                 NoteConverter.is_in_range 4
                   (note e
                    + match map note events with
                      | n0 :: rest =>
                          Transposer.calculate_offset 48 83
                            (Transposer.list_min n0 rest,
                             Transposer.list_max n0 rest)
                      | [] => 0
                      end) = true)
              events).
  { intros events w H1 H2 H3.
    pose proof (offset_fits_events events w H3) as H4. cbn zeta in H4.
    rewrite Forall_forall in *. intros e He.
    specialize (H1 e He). specialize (H2 e He). specialize (H4 e He).
    rewrite post_init_valid.
    unfold NoteConverter.is_in_range, NoteConverter.min_midi_note,
      NoteConverter.max_midi_note. split; [exact H1|]. split; [exact H2|].
    lia. }
  destruct (onset_pitches loaded) as [|n0 rest] eqn:En.
  { unfold onset_pitches in En. rewrite En.
    destruct (filter is_note_on loaded); [constructor | discriminate]. }
  pose proof (list_min_lowest n0 rest) as Hlo.
  pose proof (list_max_highest n0 rest) as Hhi.
  specialize (Hspan _ _ Hlo Hhi).
  set (lo := Transposer.list_min n0 rest) in *.
  set (hi := Transposer.list_max n0 rest) in *.
  destruct (hi - lo >? 36) eqn:Ewide.
  - destruct (Transposer.find_best_window 48 (filter is_note_on loaded))
      as [window_start window_count].
    apply (Hgoal _ window_start).
    + unfold Transposer.filter_to_window.
      change NoteConverter.GAME_RANGE with 36.
      replace (window_start + 36 - 1) with (window_start + 35) by lia.
      eapply Forall_impl;
        [|apply (filter_loop_valid window_start _ 0 Hv); lra].
      cbv beta. tauto.
    + unfold Transposer.filter_to_window.
      change NoteConverter.GAME_RANGE with 36.
      replace (window_start + 36 - 1) with (window_start + 35) by lia.
      eapply Forall_impl;
        [|apply (filter_loop_valid window_start _ 0 Hv); lra].
      cbv beta. tauto.
    + unfold Transposer.filter_to_window.
      change NoteConverter.GAME_RANGE with 36.
      replace (window_start + 36 - 1) with (window_start + 35) by lia.
      eapply Forall_impl;
        [|apply (filter_loop_valid window_start _ 0 Hv); lra].
      cbv beta. tauto.
  - apply (Hgoal _ lo Hv Hon).
    apply Forall_forall. intros e He.
    assert (Hin : In (note e) (n0 :: rest)).
    { rewrite <- En. unfold onset_pitches. apply in_map. exact He. }
    pose proof (proj2 Hlo _ Hin). pose proof (proj2 Hhi _ Hin). lia.
Qed.

Lemma load_events_playable_witness :
  let a' :=
    AutoBardApp.load_events true wide_song (loaded true) in
  AutoBardApp._state a' = READY /\
  Forall
    (fun e =>
       __post_init__ e = true /\ is_note_on e = true /\
       NoteConverter.is_in_range 4
         (note e + AutoBardApp._transpose_offset a') = true)
    (AutoBardApp._events a').
Proof.
  apply (load_events_playable wide_song (loaded true)).
  - repeat constructor; simpl; try lia; try (unfold Qle; simpl; lia).
  - intros lo hi Hlo Hhi.
    assert (H0 : lowest 0 (onset_pitches wide_song))
      by (split; [simpl; tauto | intros n Hn; simpl in Hn; lia]).
    assert (H1 : highest 71 (onset_pitches wide_song))
      by (split; [simpl; tauto | intros n Hn; simpl in Hn; lia]).
    rewrite (lowest_unique _ _ _ Hlo H0), (highest_unique _ _ _ Hhi H1).
    lia.
Defined.

(** X10: when the onsets span exactly 36 semitones (37 pitches), a load
    keeps every onset whether auto-optimize is on or off, since the
    optimizer starts above a span of 36 while only 36 pitches fit; the
    offset then puts either the lowest pitch on 47 or the highest on 84,
    one semitone outside the playable range, so some onset is clamped. *)
Theorem load_events_span_36 (auto_optimize : bool)
    (loaded : list NoteEvent) (a : AutoBardApp.App) (lo hi : Z) :
  lowest lo (onset_pitches loaded) ->
  highest hi (onset_pitches loaded) ->
  hi - lo = 36 ->
  let a' := AutoBardApp.load_events auto_optimize loaded a in
  let offset := AutoBardApp._transpose_offset a' in
  AutoBardApp._events a' = filter is_note_on loaded /\
  ((lo + offset = 47 /\ hi + offset = 83) \/
   (lo + offset = 48 /\ hi + offset = 84)) /\
  Transposer.get_out_of_range_count 48 83 (AutoBardApp._events a') offset
  <> (0, 0).
Proof.
  intros Hlo Hhi Hspan a' offset.
  assert (He : AutoBardApp._events a' = filter is_note_on loaded /\
               offset = Transposer.calculate_offset 48 83 (lo, hi)).
  { subst offset a'. unfold AutoBardApp.load_events.
    cbn [AutoBardApp._events AutoBardApp._transpose_offset
           AutoBardApp._set_state].
    change NoteConverter.GAME_MIN_MIDI with 48.
    change NoteConverter.GAME_MAX_MIDI with 83.
    fold (onset_pitches loaded).
    destruct (onset_pitches loaded) as [|n0 rest] eqn:En;
      [destruct Hlo as [[] _]|].
    rewrite (lowest_unique _ _ _ (list_min_lowest n0 rest) Hlo).
    rewrite (highest_unique _ _ _ (list_max_highest n0 rest) Hhi).
    replace (hi - lo >? 36) with false by lia.
    assert (Hsame : (if auto_optimize
                     then filter is_note_on loaded
                     else filter is_note_on loaded)
                    = filter is_note_on loaded)
      by (destruct auto_optimize; reflexivity).
    rewrite Hsame. fold (onset_pitches loaded). rewrite En.
    rewrite (lowest_unique _ _ _ (list_min_lowest n0 rest) Hlo).
    rewrite (highest_unique _ _ _ (list_max_highest n0 rest) Hhi).
    split; reflexivity. }
  destruct He as [He Hoff]. split; [exact He|].
  assert (Hcases : (lo + offset = 47 /\ hi + offset = 83) \/
                   (lo + offset = 48 /\ hi + offset = 84)).
  { destruct (calculate_offset_cases lo hi)
      as [(H1 & H2 & H3) | [(H1 & H2 & _) | (H1 & H2 & H3)]]; try lia.
    cbn zeta in H3. rewrite <- Hoff in H3.
    pose proof (raw_offset_bounds lo hi offset H3). lia. }
  split; [exact Hcases|].
  rewrite He. intros Hzero.
  pose proof (proj1 (out_of_range_zero_iff 48 83 _ offset ltac:(lia)) Hzero)
    as Hall.
  assert (Hl : In lo (onset_pitches (filter is_note_on loaded))).
  { unfold onset_pitches. rewrite onsets_of_onsets. apply Hlo. }
  assert (Hh : In hi (onset_pitches (filter is_note_on loaded))).
  { unfold onset_pitches. rewrite onsets_of_onsets. apply Hhi. }
  apply in_onset_pitches in Hl, Hh.
  destruct Hl as (el & Hel & Hlon & Hln).
  destruct Hh as (eh & Heh & Hhon & Hhn).
  pose proof (Hall el Hel Hlon). pose proof (Hall eh Heh Hhon). lia.
Qed.

(** Three octaves and a semitone: 48 to 84. *)
Lemma load_events_span_36_witness :
  let song := [mkNoteEvent 48 100 0 true; mkNoteEvent 84 100 (1 # 2) true] in
  let a' := AutoBardApp.load_events true song (loaded true) in
  let offset := AutoBardApp._transpose_offset a' in
  AutoBardApp._events a' = filter is_note_on song /\
  ((48 + offset = 47 /\ 84 + offset = 83) \/
   (48 + offset = 48 /\ 84 + offset = 84)) /\
  Transposer.get_out_of_range_count 48 83 (AutoBardApp._events a') offset
  <> (0, 0).
Proof.
  apply (load_events_span_36 true
           [mkNoteEvent 48 100 0 true; mkNoteEvent 84 100 (1 # 2) true]
           (loaded true) 48 84).
  - split; [simpl; tauto | intros n Hn; simpl in Hn; lia].
  - split; [simpl; tauto | intros n Hn; simpl in Hn; lia].
  - lia.
Defined.

(** X11: after a load of validated events, with auto-optimize on or off,
    the compiled song has one note per event kept, and the key combination
    the optimized loop reads from the compiled song at an index is the one
    the standard loop computes for the event at that index: both playback
    loops press the same keys. *)
Theorem loaded_song_matches_events (auto_optimize : bool)
    (loaded : list NoteEvent) (a : AutoBardApp.App) :
  Forall NoteEvent_valid loaded ->
  let a' := AutoBardApp.load_events auto_optimize loaded a in
  exists song,
    AutoBardApp._compiled_song a' = Some song /\
    CompiledSong.total_notes song
    = Z.of_nat (length (AutoBardApp._events a')) /\
    forall i e,
      nth_error (AutoBardApp._events a') i = Some e ->
      CompiledSong.get_key_press song (Z.of_nat i)
      = AutoBardApp.event_key_press a' e.
Proof.
  intros _ a'. subst a'. unfold AutoBardApp.load_events.
  cbn [AutoBardApp._events AutoBardApp._transpose_offset
         AutoBardApp._compiled_song AutoBardApp._set_state].
  eexists. split; [reflexivity|]. split.
  - apply compile_total_notes.
  - intros i e Hi.
    match goal with
    | |- CompiledSong.get_key_press
           (CompiledSong.compile ?off ?b ?thr ?evs) _ = _ =>
        destruct (Forall2_nth _ _ _ _ _ (compile_plays evs off b thr) Hi)
          as (c & Hc & Hk & _)
    end.
    unfold CompiledSong.get_key_press. rewrite (py_index_nth _ _ _ Hc).
    symmetry. exact Hk.
Qed.

Lemma loaded_song_matches_events_witness :
  let a' := AutoBardApp.load_events true wide_song (loaded true) in
  exists song,
    AutoBardApp._compiled_song a' = Some song /\
    CompiledSong.total_notes song
    = Z.of_nat (length (AutoBardApp._events a')) /\
    CompiledSong.get_key_press song (Z.of_nat 1)
    = AutoBardApp.event_key_press a' (mkNoteEvent 71 100 0 true).
Proof.
  destruct (loaded_song_matches_events true wide_song (loaded true))
    as (song & H1 & H2 & H3).
  { repeat constructor; simpl; try lia; try (unfold Qle; simpl; lia). }
  exists song. split; [exact H1|]. split; [exact H2|].
  apply (H3 1%nat). vm_compute. reflexivity.
Defined.

(** ** Seeking *)

(** X16: with a song loaded, [seek] changes the two position fields only,
    sets both to the same index, which lies inside the song when the song
    has a note and is 0 otherwise, keeps a position that is inside the
    song, and seeking again to the index reached changes nothing. *)
Theorem seek_clamps (position : Z) (a : AutoBardApp.App)
    (song : CompiledSong.t) :
  AutoBardApp._compiled_song a = Some song ->
  let total := CompiledSong.total_notes song in
  let a' := AutoBardApp.seek position a in
  same_but_position a a' /\
  AutoBardApp._current_position a' = AutoBardApp._start_position a' /\
  (0 < total -> 0 <= AutoBardApp._start_position a' < total) /\
  (total <= 0 -> AutoBardApp._start_position a' = 0) /\
  (0 <= position < total -> AutoBardApp._start_position a' = position) /\
  AutoBardApp.seek (AutoBardApp._start_position a') a' = a'.
Proof.
  intros Hsong total a'. subst a' total.
  destruct a as [cfg cs evs off st sf pf cur sp la lb pt ths lg dr].
  cbn [AutoBardApp._compiled_song] in Hsong. subst cs.
  unfold AutoBardApp.seek, same_but_position,
    AutoBardApp.set_current_position, AutoBardApp.set_start_position.
  cbn [AutoBardApp._config AutoBardApp._compiled_song AutoBardApp._events
         AutoBardApp._transpose_offset AutoBardApp._state
         AutoBardApp._stop_flag AutoBardApp._pause_flag
         AutoBardApp._current_position AutoBardApp._start_position
         AutoBardApp._ab_loop_start AutoBardApp._ab_loop_end
         AutoBardApp._playback_thread AutoBardApp.threads AutoBardApp.log
         AutoBardApp.draws].
  split; [repeat split; reflexivity|].
  split; [reflexivity|]. split; [lia|]. split; [lia|]. split; [lia|].
  f_equal; lia.
Qed.

Lemma seek_clamps_witness :
  let a' := AutoBardApp.seek 7 (loaded true) in
  same_but_position (loaded true) a' /\
  AutoBardApp._current_position a' = AutoBardApp._start_position a' /\
  AutoBardApp._start_position a' = 2.
Proof.
  destruct (seek_clamps 7 (loaded true)
              (CompiledSong.compile 0 4 (5 # 100) narrow_song) eq_refl)
    as (H1 & H2 & H3 & _).
  split; [exact H1|]. split; [exact H2|].
  vm_compute. reflexivity.
Defined.




(** ** A worker on its own *)

Section WorkerFacts.
Import AutoBardApp.
Variable random_uniform : nat -> Q -> Q -> Q.

Lemma event_key_presses_set_threads (o : option nat) (ths : list thread)
    (a : App) (chord : list NoteEvent) :
  event_key_presses (set_threads o ths a) chord = event_key_presses a chord.
Proof.
  induction chord as [|ce rest IH]; [reflexivity|].
  cbn [event_key_presses]. rewrite IH. reflexivity.
Qed.

Lemma thread_step_set_threads (o : option nat) (ths : list thread)
    (th : thread) (a : App) :
  thread_step random_uniform th (set_threads o ths a)
  = (fst (thread_step random_uniform th a),
     set_threads o ths (snd (thread_step random_uniform th a))).
Proof.
  destruct th; cbn [thread_step];
    rewrite ?event_key_presses_set_threads;
    unfold base_delay_of, wait_if_positive, min_delay, event_key_press,
      set_current_position, set_start_position, _set_state, emit, drawn,
      set_threads;
    cbn [_config _compiled_song _events
           _transpose_offset _state _stop_flag _pause_flag
           _current_position _start_position _ab_loop_start _ab_loop_end
           _playback_thread threads log draws];
    try destruct (humanize_ms (_config a) >? 0);
    repeat (break_match;
            cbn [fst snd _config _compiled_song _events
                   _transpose_offset _state _stop_flag _pause_flag
                   _current_position _start_position _ab_loop_start
                   _ab_loop_end _playback_thread threads log draws] in * );
    cbn [fst snd _config _compiled_song _events
           _transpose_offset _state _stop_flag _pause_flag
           _current_position _start_position _ab_loop_start _ab_loop_end
           _playback_thread threads log draws]; try reflexivity;
    try congruence.
Qed.

Lemma thread_steps_set_threads (o : option nat) (ths : list thread)
    (n : nat) (th : thread) (a : App) :
  thread_steps random_uniform n th (set_threads o ths a)
  = (fst (thread_steps random_uniform n th a),
     set_threads o ths (snd (thread_steps random_uniform n th a))).
Proof.
  revert th a. induction n as [|n IH]; intros th a; [reflexivity|].
  cbn [thread_steps]. rewrite thread_step_set_threads.
  destruct (thread_step random_uniform th a) as [th' a'].
  cbn [fst snd]. apply IH.
Qed.

Lemma thread_steps_threads (n : nat) (th : thread) (a : App) :
  threads (snd (thread_steps random_uniform n th a)) = threads a /\
  _playback_thread (snd (thread_steps random_uniform n th a))
  = _playback_thread a.
Proof.
  revert th a. induction n as [|n IH]; intros th a; [split; reflexivity|].
  cbn [thread_steps].
  pose proof (thread_step_session random_uniform th a) as (_ & H1 & H2).
  cbn zeta in H1, H2.
  destruct (thread_step random_uniform th a) as [th' a'].
  cbn [snd] in H1, H2. destruct (IH th' a') as [K1 K2].
  split; congruence.
Qed.

Lemma update_nth_twice {A : Type} (l : list A) (k : nat) (x y z : A) :
  nth_error l k = Some z ->
  let l' := firstn k l ++ x :: skipn (S k) l in
  nth_error l' k = Some x /\
  firstn k l' ++ y :: skipn (S k) l' = firstn k l ++ y :: skipn (S k) l.
Proof.
  intros H l'. subst l'.
  assert (Hk : (k < length l)%nat) by (apply nth_error_Some; congruence).
  assert (Hlen : length (firstn k l) = k) by (rewrite length_firstn; lia).
  split.
  - rewrite nth_error_app2 by lia. rewrite Hlen, Nat.sub_diag. reflexivity.
  - f_equal.
    + rewrite firstn_app, Hlen, Nat.sub_diag. cbn [firstn].
      rewrite app_nil_r. rewrite firstn_firstn. f_equal. lia.
    + f_equal. rewrite skipn_app, Hlen.
      replace (S k - k)%nat with 1%nat by lia.
      rewrite (skipn_all2 (n := S k) (firstn k l))
        by (rewrite length_firstn; lia).
      reflexivity.
Qed.

Lemma update_nth_same {A : Type} (l : list A) (k : nat) (x : A) :
  nth_error l k = Some x -> firstn k l ++ x :: skipn (S k) l = l.
Proof.
  revert l. induction k as [|k IH]; intros l H.
  - destruct l; [discriminate|]. inversion H. reflexivity.
  - destruct l as [|y l]; [discriminate|]. simpl in H.
    cbn [firstn app]. change (skipn (S (S k)) (y :: l)) with (skipn (S k) l).
    rewrite (IH l H). reflexivity.
Qed.

(** Worker [tid] running alone for [n] steps. *)
Lemma run_worker (tid n : nat) (th : thread) (a : App) :
  worker tid a = Some th ->
  run random_uniform (repeat tid n) a
  = set_threads (_playback_thread a)
      (firstn tid (threads a)
       ++ fst (thread_steps random_uniform n th a)
       :: skipn (S tid) (threads a))
      (snd (thread_steps random_uniform n th a)).
Proof.
  unfold worker. revert th a.
  induction n as [|n IH]; intros th a Hth.
  - cbn [repeat run fold_left thread_steps fst snd].
    rewrite (update_nth_same _ _ _ Hth). destruct a. reflexivity.
  - cbn [repeat thread_steps]. unfold run. cbn [fold_left].
    fold (run random_uniform (repeat tid n) (step random_uniform tid a)).
    unfold step at 1. rewrite Hth.
    pose proof (thread_step_session random_uniform th a) as (_ & H1 & H2).
    cbn zeta in H1, H2.
    destruct (thread_step random_uniform th a) as [th' a'].
    cbn [snd] in H1, H2. rewrite H1, H2.
    destruct (update_nth_twice (threads a) tid th'
                (fst (thread_steps random_uniform n th' a')) th Hth)
      as [Hnth Hupd].
    cbn zeta in Hnth, Hupd.
    rewrite (IH th'); [|exact Hnth].
    rewrite thread_steps_set_threads.
    cbn [set_threads fst snd _config _compiled_song _events
           _transpose_offset _state _stop_flag _pause_flag
           _current_position _start_position _ab_loop_start _ab_loop_end
           _playback_thread threads log draws].
    rewrite Hupd. reflexivity.
Qed.









Lemma reaches_step (th : thread) (a : App) :
  reaches random_uniform th a
    (fst (thread_step random_uniform th a))
    (snd (thread_step random_uniform th a)).
Proof.
  exists 1%nat. cbn [thread_steps].
  destruct (thread_step random_uniform th a). reflexivity.
Qed.


End WorkerFacts.



(** ** Hotkey, A-B loop, empty song and settings *)

(** X18: after [stop] the start/pause hotkey does nothing, since it acts
    in the states PLAYING, READY and PAUSED only; during playback it
    pauses, and pressed again it resumes: the pause signal is cleared,
    the state is PLAYING, no thread is added and the start index is the
    index at which playback was paused. *)
Theorem hotkey_after_stop (random_uniform : nat -> Q -> Q -> Q)
    (schedule again : list nat) (a b : AutoBardApp.App) :
  let a' := AutoBardApp.stop random_uniform schedule a in
  AutoBardApp._on_hotkey_start_pause random_uniform again a' = a' /\
  (AutoBardApp._state b = PLAYING ->
   AutoBardApp._events b <> [] \/ AutoBardApp._compiled_song b <> None ->
   let p := AutoBardApp._on_hotkey_start_pause random_uniform again b in
   let r := AutoBardApp._on_hotkey_start_pause random_uniform again p in
   AutoBardApp._state p = PAUSED /\
   AutoBardApp._pause_flag p = true /\
   AutoBardApp._state r = PLAYING /\
   AutoBardApp._pause_flag r = false /\
   AutoBardApp._start_position r = AutoBardApp._current_position b /\
   AutoBardApp.threads r = AutoBardApp.threads b).
Proof.
  intros a'. split.
  - destruct (stop_unfold random_uniform schedule a) as (b0 & Ha' & _).
    fold a' in Ha'.
    unfold AutoBardApp._on_hotkey_start_pause. rewrite Ha'. reflexivity.
  - intros Hst Hloaded p r.
    assert (Hp : p = AutoBardApp.pause b).
    { subst p. unfold AutoBardApp._on_hotkey_start_pause. rewrite Hst.
      reflexivity. }
    assert (Hp' : AutoBardApp.pause b
                  = AutoBardApp._set_state PAUSED
                      (AutoBardApp.set_start_position
                         (AutoBardApp._current_position b)
                         (AutoBardApp.set_pause_flag true b))).
    { unfold AutoBardApp.pause. rewrite Hst. reflexivity. }
    assert (Hr : r = AutoBardApp._set_state PLAYING
                       (AutoBardApp.set_pause_flag false p)).
    { subst r. unfold AutoBardApp._on_hotkey_start_pause, AutoBardApp.start.
      rewrite Hp, Hp'. cbn.
      destruct (AutoBardApp._events b);
        [destruct (AutoBardApp._compiled_song b); [reflexivity|tauto]
        |reflexivity]. }
    rewrite Hr, Hp, Hp'. cbn. repeat split.
Qed.

Lemma hotkey_after_stop_witness :
  let a' := AutoBardApp.stop no_jitter [] (playing true) in
  AutoBardApp._on_hotkey_start_pause no_jitter [] a' = a' /\
  let p := AutoBardApp._on_hotkey_start_pause no_jitter [] (playing true) in
  let r := AutoBardApp._on_hotkey_start_pause no_jitter [] p in
  AutoBardApp._state p = PAUSED /\
  AutoBardApp._pause_flag p = true /\
  AutoBardApp._state r = PLAYING /\
  AutoBardApp._pause_flag r = false /\
  AutoBardApp._start_position r = AutoBardApp._current_position (playing true) /\
  AutoBardApp.threads r = AutoBardApp.threads (playing true).
Proof.
  destruct (hotkey_after_stop no_jitter [] [] (playing true) (playing true))
    as [H1 H2].
  split; [exact H1|]. apply H2.
  - vm_compute. reflexivity.
  - left. vm_compute. discriminate.
Defined.

Section SpinFacts.
Import AutoBardApp.
Variable random_uniform : nat -> Q -> Q -> Q.

Lemma ab_loop_cycle (song : CompiledSong.t) (s e : Z) (ct : Q) (n : nat)
    (th : thread) (a : App) :
  e <= s < CompiledSong.total_notes song ->
  _stop_flag a = false ->
  _pause_flag a = false ->
  _ab_loop_start a = Some s ->
  _ab_loop_end a = Some e ->
  In th (before_note song s ct) ->
  let r := thread_steps random_uniform n th a in
  In (fst r) (before_note song s ct) /\
  log (snd r) = log a /\
  _state (snd r) = _state a.
Proof.
  intros Hse. revert th a.
  induction n as [|n IH]; intros th a Hstop Hpause Hs He Hin;
    [repeat split; exact Hin|].
  cbn [thread_steps].
  destruct Hin as [<- | [<- | [<- | []]]]; cbn [thread_step].
  - replace (s <? CompiledSong.total_notes song) with true by lia.
    rewrite Hstop.
    apply (IH (Opt_poll song s ct) a); try assumption.
    right. left. reflexivity.
  - rewrite Hpause, Hstop. cbn [andb negb].
    apply (IH (Opt_body song s ct) a); try assumption.
    right. right. left. reflexivity.
  - destruct a as [cfg cs evs off st sf pf cur sp la lb pt ths lg dr].
    cbn [_stop_flag _pause_flag _ab_loop_start _ab_loop_end] in *. subst.
    cbn [set_current_position _config _compiled_song _events
           _transpose_offset _state _stop_flag _pause_flag
           _current_position _start_position _ab_loop_start _ab_loop_end
           _playback_thread threads log draws].
    replace (s >=? e) with true by lia.
    apply (IH (Opt_top song s ct)); try reflexivity.
    left. reflexivity.
Qed.
End SpinFacts.

(** X19: in the optimized loop, when the A-B loop end is not after the
    loop start (both points set at the same note, for one), a worker at
    the loop start never plays again: whatever number of steps it takes,
    it stays between the top of the loop and the A-B test at that index,
    the log and the state are unchanged. *)
Theorem ab_loop_spins (random_uniform : nat -> Q -> Q -> Q)
    (a : AutoBardApp.App) (song : CompiledSong.t) (tid : nat) (s e : Z)
    (ct : Q) (n : nat) :
  worker tid a = Some (AutoBardApp.Opt_top song s ct) ->
  AutoBardApp._stop_flag a = false ->
  AutoBardApp._pause_flag a = false ->
  AutoBardApp._ab_loop_start a = Some s ->
  AutoBardApp._ab_loop_end a = Some e ->
  e <= s < CompiledSong.total_notes song ->
  let a' := AutoBardApp.run random_uniform (repeat tid n) a in
  AutoBardApp.log a' = AutoBardApp.log a /\
  AutoBardApp._state a' = AutoBardApp._state a /\
  exists th,
    worker tid a' = Some th /\ In th (before_note song s ct).
Proof.
  intros Hw Hstop Hpause Hs He Hse a'. subst a'.
  rewrite (run_worker random_uniform tid n _ a Hw).
  destruct (ab_loop_cycle random_uniform song s e ct n _ a Hse Hstop Hpause
              Hs He (or_introl eq_refl)) as (H1 & H2 & H3).
  cbn zeta in H1, H2, H3.
  cbn [AutoBardApp.set_threads AutoBardApp.log AutoBardApp._state].
  split; [exact H2|]. split; [exact H3|].
  eexists. split; [|exact H1].
  unfold worker. cbn [AutoBardApp.set_threads AutoBardApp.threads].
  destruct (update_nth_twice (AutoBardApp.threads a) tid
              (fst (thread_steps random_uniform n
                      (AutoBardApp.Opt_top song s ct) a))
              (AutoBardApp.Opt_top song s ct) _ Hw) as [H _].
  exact H.
Qed.

Lemma ab_loop_spins_witness :
  let a' := AutoBardApp.run no_jitter (repeat 0%nat 1000) looping_at_one in
  AutoBardApp.log a' = AutoBardApp.log looping_at_one /\
  AutoBardApp._state a' = AutoBardApp._state looping_at_one /\
  exists th,
    worker 0 a' = Some th /\
    In th (before_note (CompiledSong.compile 0 4 (5 # 100) narrow_song) 1
             (1 # 2)).
Proof.
  apply (ab_loop_spins no_jitter looping_at_one
           (CompiledSong.compile 0 4 (5 # 100) narrow_song) 0 1 1 (1 # 2)
           1000);
    try (vm_compute; reflexivity).
  split; [lia | vm_compute; reflexivity].
Defined.



Lemma py_clamp_bounds (lo hi x : Q) :
  (lo <= hi)%Q ->
  (lo <= py_max lo (py_min hi x) <= hi)%Q /\
  ((lo <= x <= hi)%Q -> (py_max lo (py_min hi x) == x)%Q).
Proof.
  intros Hlh. unfold py_max, py_min, Qlt_bool.
  destruct (Qle_bool hi x) eqn:E1; cbn [negb].
  - apply Qle_bool_iff in E1.
    destruct (Qle_bool hi lo) eqn:E2; cbn [negb].
    + apply Qle_bool_iff in E2. split; [lra|]. intros. lra.
    + split; [lra|]. intros. lra.
  - assert (H1 : (x < hi)%Q).
    { apply Qnot_le_lt. intros H. apply Qle_bool_iff in H. congruence. }
    destruct (Qle_bool x lo) eqn:E2; cbn [negb].
    + apply Qle_bool_iff in E2. split; [lra|]. intros. lra.
    + assert (H2 : (lo < x)%Q).
      { apply Qnot_le_lt. intros H. apply Qle_bool_iff in H. congruence. }
      split; [lra|]. intros. lra.
Qed.

(** X22: [set_playback_speed] stores a speed between 1/2 and 2, the given
    one when it lies in that interval, so the stored speed is positive;
    [set_input_delay] stores a delay between 0 and 500 ms, the given one
    when it lies in that interval. *)
Theorem settings_are_clamped (speed : Q) (delay_ms : Z)
    (a : AutoBardApp.App) :
  let v :=
    AutoBardApp.playback_speed
      (AutoBardApp._config (AutoBardApp.set_playback_speed speed a)) in
  let d :=
    AutoBardApp.input_delay_ms
      (AutoBardApp._config (AutoBardApp.set_input_delay delay_ms a)) in
  (1 # 2 <= v <= 2)%Q /\
  ((1 # 2 <= speed <= 2)%Q -> (v == speed)%Q) /\
  0 <= d <= 500 /\
  (0 <= delay_ms <= 500 -> d = delay_ms) /\
  (0 < v)%Q.
Proof.
  cbn zeta. unfold AutoBardApp.set_playback_speed, AutoBardApp.set_input_delay.
  cbn [AutoBardApp.set_config AutoBardApp._config AutoBardApp.playback_speed
         AutoBardApp.input_delay_ms AutoBardApp.min_note_delay_ms].
  destruct (py_clamp_bounds (1 # 2) 2 speed ltac:(lra)) as [H1 H2].
  split; [exact H1|]. split; [exact H2|].
  split; [lia|]. split; [lia | lra].
Qed.

Lemma settings_are_clamped_witness :
  let v :=
    AutoBardApp.playback_speed
      (AutoBardApp._config (AutoBardApp.set_playback_speed (3 # 2)
                              (loaded true))) in
  let d :=
    AutoBardApp.input_delay_ms
      (AutoBardApp._config (AutoBardApp.set_input_delay 40 (loaded true))) in
  (v == 3 # 2)%Q /\ d = 40.
Proof.
  destruct (settings_are_clamped (3 # 2) 40 (loaded true))
    as (_ & H2 & _ & H4 & _).
  split; [apply H2; lra | apply H4; lia].
Defined.

(** ** The keyboard service *)

Lemma key_down_app (l1 l2 : list KeyboardService.request) (k : string)
    (d : bool) :
  key_down (l1 ++ l2) k d = key_down l2 k (key_down l1 k d).
Proof.
  revert d. induction l1 as [|r l1 IH]; intros d; [reflexivity|].
  destruct r; simpl; apply IH.
Qed.

Lemma key_down_releases (l : list KeyboardService.request) (k : string)
    (d : bool) :
  forallb is_release l = true -> key_down l k d = true -> d = true.
Proof.
  revert d. induction l as [|r l IH]; intros d Hl H; [exact H|].
  destruct r as [k'|k']; [discriminate|]. simpl in Hl, H.
  specialize (IH _ Hl H). destruct (String.eqb k k'); [discriminate|exact IH].
Qed.

Lemma key_down_released (ks : list string) (k : string) (d : bool) :
  existsb (String.eqb k) ks = true ->
  key_down (map KeyboardService.kb_release ks) k d = false.
Proof.
  revert d. induction ks as [|k' ks IH]; intros d H; [discriminate|].
  simpl in H |- *. destruct (String.eqb k k') eqn:E.
  - destruct (existsb (String.eqb k) ks) eqn:E'; [apply IH; reflexivity|].
    clear - E'. generalize false as d.
    induction ks as [|k2 ks IH]; intros d; [reflexivity|].
    simpl in E' |- *. apply orb_false_iff in E' as [-> E'].
    apply IH. exact E'.
  - apply IH. exact H.
Qed.

Section ServiceFacts.
Import KeyboardService.
Variable lower : string -> string.
Variable keyboard_installed : bool.

Lemma _press_modifier_effect (m : string) (s : t) :
  _initialized s = true ->
  exists s',
    _press_modifier lower keyboard_installed m s = Some s' /\
    _initialized s' = true /\
    requests s'
    = requests s
      ++ (if String.eqb (_get_modifier_key lower m) ""
          then [] else [kb_press (_get_modifier_key lower m)]) /\
    (forall x, In x (_held_modifiers s') ->
               In x (_held_modifiers s) \/
               x = m /\ String.eqb (_get_modifier_key lower m) "" = false).
Proof.
  intros Hi. unfold _press_modifier, _ensure_initialized. rewrite Hi.
  destruct (String.eqb (_get_modifier_key lower m) ""); cbn [negb].
  - exists s. rewrite app_nil_r. repeat split; try assumption. tauto.
  - eexists. split; [reflexivity|]. cbn.
    split; [exact Hi|]. split; [reflexivity|].
    intros x Hx. unfold set_add in Hx.
    destruct (existsb (String.eqb m) (_held_modifiers s)); [left; exact Hx|].
    apply in_app_iff in Hx as [Hx | [<- | []]]; [left; exact Hx|].
    right. split; reflexivity.
Qed.

Lemma _release_modifier_effect (m : string) (s : t) :
  _initialized s = true ->
  exists s',
    _release_modifier lower keyboard_installed m s = Some s' /\
    _initialized s' = true /\
    requests s'
    = requests s
      ++ (if String.eqb (_get_modifier_key lower m) ""
          then [] else [kb_release (_get_modifier_key lower m)]) /\
    (forall x, In x (_held_modifiers s') -> In x (_held_modifiers s)) /\
    (String.eqb (_get_modifier_key lower m) "" = false ->
     ~ In m (_held_modifiers s')).
Proof.
  intros Hi. unfold _release_modifier, _ensure_initialized. rewrite Hi.
  destruct (String.eqb (_get_modifier_key lower m) ""); cbn [negb].
  - exists s. rewrite app_nil_r. repeat split; try assumption; try tauto.
    discriminate.
  - eexists. split; [reflexivity|]. cbn.
    split; [exact Hi|]. split; [reflexivity|]. split.
    + intros x Hx. unfold set_discard in Hx. apply filter_In in Hx. tauto.
    + intros _ Hx. unfold set_discard in Hx. apply filter_In in Hx.
      destruct Hx as [_ Hx]. rewrite String.eqb_refl in Hx. discriminate.
Qed.

(** The keys the modifiers [ms] stand for. *)
Lemma press_modifiers_effect (ms : list string) (s : t) :
  _initialized s = true ->
  exists s',
    for_each (_press_modifier lower keyboard_installed) ms s = Some s' /\
    _initialized s' = true /\
    requests s'
    = requests s
      ++ map kb_press
           (filter (fun k => negb (String.eqb k ""))
              (map (_get_modifier_key lower) ms)) /\
    (forall x, In x (_held_modifiers s') ->
               In x (_held_modifiers s) \/
               In x ms /\ String.eqb (_get_modifier_key lower x) "" = false).
Proof.
  revert s. induction ms as [|m ms IH]; intros s Hi.
  - exists s. rewrite app_nil_r. repeat split; try assumption. tauto.
  - destruct (_press_modifier_effect m s Hi) as (s1 & H1 & Hi1 & Hr1 & Hh1).
    destruct (IH s1 Hi1) as (s2 & H2 & Hi2 & Hr2 & Hh2).
    exists s2. cbn [for_each]. rewrite H1. split; [exact H2|].
    split; [exact Hi2|]. split.
    + rewrite Hr2, Hr1, <- app_assoc. f_equal. cbn [map filter].
      destruct (String.eqb (_get_modifier_key lower m) ""); reflexivity.
    + intros x Hx. destruct (Hh2 x Hx) as [Hx1 | [Hx1 Hx2]].
      * destruct (Hh1 x Hx1) as [Hx0 | [-> Hk]]; [left; exact Hx0|].
        right. split; [left; reflexivity | exact Hk].
      * right. split; [right; exact Hx1 | exact Hx2].
Qed.

Lemma release_modifiers_effect (ms : list string) (s : t) :
  _initialized s = true ->
  exists s',
    for_each (_release_modifier lower keyboard_installed) ms s = Some s' /\
    _initialized s' = true /\
    requests s'
    = requests s
      ++ map kb_release
           (filter (fun k => negb (String.eqb k ""))
              (map (_get_modifier_key lower) ms)) /\
    (forall x, In x (_held_modifiers s') -> In x (_held_modifiers s)) /\
    (forall m, In m ms ->
               String.eqb (_get_modifier_key lower m) "" = false ->
               ~ In m (_held_modifiers s')).
Proof.
  revert s. induction ms as [|m ms IH]; intros s Hi.
  - exists s. rewrite app_nil_r. repeat split; try assumption; try tauto.
  - destruct (_release_modifier_effect m s Hi)
      as (s1 & H1 & Hi1 & Hr1 & Hh1 & Hn1).
    destruct (IH s1 Hi1) as (s2 & H2 & Hi2 & Hr2 & Hh2 & Hn2).
    exists s2. cbn [for_each]. rewrite H1. split; [exact H2|].
    split; [exact Hi2|]. split; [|split].
    + rewrite Hr2, Hr1, <- app_assoc. f_equal. cbn [map filter].
      destruct (String.eqb (_get_modifier_key lower m) ""); reflexivity.
    + intros x Hx. apply Hh1, Hh2, Hx.
    + intros m' [<-|Hm'] Hk.
      * intros Hx. apply (Hn1 Hk). apply Hh2. exact Hx.
      * apply Hn2; assumption.
Qed.
End ServiceFacts.

Lemma key_down_pressed_released (ks : list string) (key k : string)
    (d : bool) :
  key_down
    (map KeyboardService.kb_press ks
     ++ [KeyboardService.kb_press key; KeyboardService.kb_release key]
     ++ map KeyboardService.kb_release ks) k d = true ->
  d = true /\ existsb (String.eqb k) ks = false /\ String.eqb k key = false.
Proof.
  rewrite !key_down_app. cbn [key_down].
  destruct (existsb (String.eqb k) ks) eqn:E.
  - rewrite key_down_released by exact E. discriminate.
  - intros H.
    apply key_down_releases in H;
      [|clear; induction ks; [reflexivity | exact IHks]].
    destruct (String.eqb k key); [discriminate|].
    split; [|split; reflexivity].
    revert H. clear - E. revert d.
    induction ks as [|k2 ks IH]; intros d H; [exact H|].
    simpl in E, H. apply orb_false_iff in E as [E1 E2]. rewrite E1 in H.
    apply (IH E2 _ H).
Qed.

(** X23: with the keyboard library installed, [press] succeeds, leaves the
    service initialized and leaves no key down that was up before: the
    key itself is up afterwards, every modifier it pressed is released,
    no modifier is added to the held set and the modifiers of the key
    press that name a key are not in it. *)
Theorem press_leaves_no_key_down (lower : string -> string)
    (key_press : KeyPress) (s : KeyboardService.t) :
  exists s',
    KeyboardService.press lower true key_press s = Some s' /\
    KeyboardService._initialized s' = true /\
    (forall k, is_down s' k = true ->
               is_down s k = true /\ k <> key key_press) /\
    (forall m, In m (KeyboardService._held_modifiers s') ->
               In m (KeyboardService._held_modifiers s)) /\
    (forall m, In m (modifiers key_press) ->
               KeyboardService._get_modifier_key lower m <> ""%string ->
               ~ In m (KeyboardService._held_modifiers s')).
Proof.
  unfold KeyboardService.press.
  assert (Hinit : exists s0,
            KeyboardService._ensure_initialized true s = Some s0 /\
            KeyboardService._initialized s0 = true /\
            KeyboardService.requests s0 = KeyboardService.requests s /\
            KeyboardService._held_modifiers s0
            = KeyboardService._held_modifiers s).
  { unfold KeyboardService._ensure_initialized.
    destruct (KeyboardService._initialized s) eqn:E.
    - exists s. repeat split. exact E.
    - eexists. split; [reflexivity|]. repeat split. }
  destruct Hinit as (s0 & -> & Hi0 & Hr0 & Hh0).
  destruct (press_modifiers_effect lower true (modifiers key_press) s0 Hi0)
    as (s1 & -> & Hi1 & Hr1 & Hh1).
  set (s2 := KeyboardService.send _ (KeyboardService.send _ s1)).
  assert (Hi2 : KeyboardService._initialized s2 = true) by exact Hi1.
  destruct (release_modifiers_effect lower true (modifiers key_press) s2 Hi2)
    as (s3 & -> & Hi3 & Hr3 & Hh3 & Hn3).
  exists s3. split; [reflexivity|]. split; [exact Hi3|].
  split; [|split].
  - intros k Hk. unfold is_down in *. rewrite Hr3 in Hk.
    subst s2. cbn [KeyboardService.send KeyboardService.requests] in Hk.
    rewrite Hr1, Hr0 in Hk. rewrite <- !app_assoc in Hk.
    rewrite key_down_app in Hk. cbn [app] in Hk.
    match type of Hk with
    | context [map KeyboardService.kb_press ?l ++ _] =>
        change (key_down
                  (map KeyboardService.kb_press l
                   ++ [KeyboardService.kb_press (key key_press);
                       KeyboardService.kb_release (key key_press)]
                   ++ map KeyboardService.kb_release l) k
                  (key_down (KeyboardService.requests s) k false) = true)
          in Hk
    end.
    apply key_down_pressed_released in Hk. destruct Hk as (H1 & _ & H3).
    split; [exact H1|]. intros ->. rewrite String.eqb_refl in H3.
    discriminate.
  - intros m Hm. rewrite <- Hh0. pose proof (Hh3 m Hm) as Hm2. subst s2.
    cbn [KeyboardService.send KeyboardService._held_modifiers] in Hm2.
    destruct (Hh1 m Hm2) as [H | [H1 H2]]; [exact H|].
    exfalso. apply (Hn3 m H1 H2). exact Hm.
  - intros m Hm Hk. apply Hn3; [exact Hm|].
    apply String.eqb_neq. exact Hk.
Qed.

Lemma press_leaves_no_key_down_witness :
  exists s',
    KeyboardService.press (fun m => m) true
      (mkKeyPress "a" ["shift"%string]) KeyboardService.__init__ = Some s' /\
    KeyboardService._initialized s' = true /\
    (forall k, is_down s' k = true ->
               is_down KeyboardService.__init__ k = true /\ k <> "a"%string) /\
    (forall m, In m (KeyboardService._held_modifiers s') ->
               In m (KeyboardService._held_modifiers KeyboardService.__init__)) /\
    ~ In "shift"%string (KeyboardService._held_modifiers s').
Proof.
  destruct (press_leaves_no_key_down (fun m => m)
              (mkKeyPress "a" ["shift"%string]) KeyboardService.__init__)
    as (s' & H1 & H2 & H3 & H4 & H5).
  exists s'. split; [exact H1|]. split; [exact H2|]. split; [exact H3|].
  split; [exact H4|].
  apply H5; [left; reflexivity | vm_compute; discriminate].
Defined.

Section ReleaseFacts.
Import KeyboardService.
Variable lower : string -> string.
Variable keyboard_installed : bool.

Lemma release_held_effect (ms : list string) (s : t) :
  _initialized s = true ->
  let s' :=
    fold_left
      (fun s modifier =>
         match _release_modifier lower keyboard_installed modifier s with
         | Some s' => s'
         | None => s
         end) ms s in
  _initialized s' = true /\
  exists rel,
    requests s' = requests s ++ rel /\ forallb is_release rel = true.
Proof.
  revert s. induction ms as [|m ms IH]; intros s Hi; cbn [fold_left].
  - split; [exact Hi|]. exists []. rewrite app_nil_r. split; reflexivity.
  - destruct (_release_modifier_effect lower keyboard_installed m s Hi)
      as (s1 & -> & Hi1 & Hr1 & _).
    destruct (IH s1 Hi1) as (Hi2 & rel & Hr2 & Hrel).
    split; [exact Hi2|].
    eexists. split; [rewrite Hr2, Hr1, <- app_assoc; reflexivity|].
    rewrite forallb_app, Hrel.
    destruct (String.eqb (_get_modifier_key lower m) ""); reflexivity.
Qed.

Lemma fold_send_releases (ks : list string) (s : t) :
  let s' := fold_left (fun s k => send (kb_release k) s) ks s in
  _initialized s' = _initialized s /\
  _held_modifiers s' = _held_modifiers s /\
  requests s' = requests s ++ map kb_release ks.
Proof.
  revert s. induction ks as [|k ks IH]; intros s; cbn [fold_left].
  - rewrite app_nil_r. repeat split.
  - destruct (IH (send (kb_release k) s)) as (H1 & H2 & H3).
    cbn zeta in *. rewrite H1, H2, H3. cbn. rewrite <- app_assoc.
    repeat split.
Qed.
End ReleaseFacts.

Lemma mapped_keys_released (g : GameNote) (kp : KeyPress) :
  KeyMapper.get_key_press g = Ok kp ->
  forallb (fun k => existsb (String.eqb k) released_keys)
    (key kp :: modifiers kp) = true.
Proof.
  destruct g as [p n a]. destruct p, n, a; intros H; inversion H;
    vm_compute; reflexivity.
Qed.

(** X24: [release_all] does nothing on a service that was never
    initialized; on an initialized one it only sends key-up requests,
    empties the set of held modifiers, puts no key down, and leaves up
    every key and modifier the key mapper can ask for. *)
Theorem release_all_frees_the_keys (lower : string -> string)
    (keyboard_installed : bool) (s : KeyboardService.t) :
  let s' := KeyboardService.release_all lower keyboard_installed s in
  (KeyboardService._initialized s = false -> s' = s) /\
  (KeyboardService._initialized s = true ->
   KeyboardService._held_modifiers s' = [] /\
   (exists rel,
      KeyboardService.requests s' = KeyboardService.requests s ++ rel /\
      forallb is_release rel = true) /\
   (forall k, is_down s' k = true -> is_down s k = true) /\
   (forall g kp k,
      KeyMapper.get_key_press g = Ok kp ->
      In k (key kp :: modifiers kp) -> is_down s' k = false)).
Proof.
  intros s'. subst s'. unfold KeyboardService.release_all. split.
  - intros ->. reflexivity.
  - intros Hi. rewrite Hi. cbn [negb].
    destruct (release_held_effect lower keyboard_installed
                (KeyboardService._held_modifiers s) s Hi)
      as (Hi1 & rel & Hr1 & Hrel).
    cbn zeta in Hi1, Hr1.
    set (s1 := fold_left _ (KeyboardService._held_modifiers s) s) in *.
    set (s2 := KeyboardService.mkService []
                 (KeyboardService._initialized s1)
                 (KeyboardService.requests s1)).
    destruct (fold_send_releases ["shift"; "ctrl"; "alt"]%string s2)
      as (_ & Hh3 & Hr3).
    cbn zeta in Hh3, Hr3.
    set (s3 := fold_left _ ["shift"; "ctrl"; "alt"]%string s2) in *.
    destruct (fold_send_releases
                (map (fun c => String c EmptyString)
                   (list_ascii_of_string "qwertyuasdfghjzxcvbnm")) s3)
      as (_ & Hh4 & Hr4).
    cbn zeta in Hh4, Hr4.
    set (s4 := fold_left _ (map _ _) s3) in *.
    assert (Hreq : KeyboardService.requests s4
                   = KeyboardService.requests s
                     ++ rel ++ map KeyboardService.kb_release released_keys).
    { rewrite Hr4, Hr3. subst s2. cbn [KeyboardService.requests].
      rewrite Hr1. unfold released_keys.
      rewrite map_app, <- !app_assoc. reflexivity. }
    assert (Hrels : forall l,
              forallb is_release (map KeyboardService.kb_release l) = true).
    { intros l. induction l; [reflexivity | exact IHl]. }
    split; [rewrite Hh4, Hh3; reflexivity|]. split; [|split].
    + eexists. split; [exact Hreq|]. rewrite forallb_app, Hrel. apply Hrels.
    + intros k Hk. unfold is_down in *. rewrite Hreq, key_down_app in Hk.
      apply key_down_releases in Hk; [exact Hk|].
      rewrite forallb_app, Hrel. apply Hrels.
    + intros g kp k Hg Hk. unfold is_down.
      rewrite Hreq, app_assoc, key_down_app.
      apply key_down_released.
      pose proof (mapped_keys_released g kp Hg) as Hall.
      rewrite forallb_forall in Hall. apply Hall. exact Hk.
Qed.

Lemma release_all_frees_the_keys_witness :
  let s :=
    KeyboardService.mkService ["shift"%string] true
      [KeyboardService.kb_press "shift"; KeyboardService.kb_press "a"] in
  let s' := KeyboardService.release_all (fun m => m) true s in
  KeyboardService._held_modifiers s' = [] /\
  is_down s "a" = true /\
  is_down s' "a" = false /\
  is_down s' "shift" = false.
Proof.
  destruct (release_all_frees_the_keys (fun m => m) true
              (KeyboardService.mkService ["shift"%string] true
                 [KeyboardService.kb_press "shift";
                  KeyboardService.kb_press "a"]))
    as [_ H].
  destruct (H eq_refl) as (H1 & _ & _ & H4).
  split; [exact H1|]. split; [reflexivity|]. split.
  - apply (H4 (mkGameNote MID DO SHARP) (mkKeyPress "a" ["shift"%string]));
      [reflexivity | left; reflexivity].
  - apply (H4 (mkGameNote MID DO SHARP) (mkKeyPress "a" ["shift"%string]));
      [reflexivity | right; left; reflexivity].
Defined.

(** ** The standard loop *)

Lemma collect_chord_scan (rest chord : list NoteEvent) :
  AutoBardApp.collect_chord rest chord
  = fst (CompiledSong.chord_scan (5 # 100) rest chord).
Proof.
  revert chord. induction rest as [|ej rest IH]; intros chord; [reflexivity|].
  cbn [AutoBardApp.collect_chord CompiledSong.chord_scan].
  destruct (Qle_bool (time_delta ej) (5 # 100)); [apply IH | reflexivity].
Qed.

(** X25: the standard loop and the compiler group chords alike: the chord
    the standard loop collects after an event is the one the compiler
    scans at the same place, it is the first chord cluster of the events
    from there on, the clustering goes on after it, and it holds the
    event itself and at most all the events left. *)
Theorem both_loops_group_the_same_chords (e : NoteEvent)
    (rest : list NoteEvent) :
  let chord := AutoBardApp.collect_chord rest [e] in
  chord = fst (CompiledSong.chord_scan (5 # 100) rest [e]) /\
  chord_clusters (5 # 100) (e :: rest)
  = chord :: chord_clusters (5 # 100) (skipn (length chord - 1) rest) /\
  (1 <= length chord <= length (e :: rest))%nat.
Proof.
  intros chord. subst chord. rewrite collect_chord_scan.
  rewrite chord_scan_followers. cbn [fst app].
  split; [reflexivity|].
  assert (Hskip : skipn (length (e :: chord_followers (5 # 100) rest) - 1) rest
                  = after_chord (5 # 100) rest).
  { cbn [length]. rewrite Nat.sub_succ, Nat.sub_0_r.
    rewrite <- (followers_then_after (5 # 100) rest) at 2.
    rewrite skipn_app, Nat.sub_diag, skipn_all. reflexivity. }
  split.
  - rewrite Hskip. apply chord_clusters_cons.
  - cbn [length].
    pose proof (f_equal (@length _) (followers_then_after (5 # 100) rest))
      as Hlen.
    rewrite length_app in Hlen. lia.
Qed.

Section StandardLoop.
Import AutoBardApp.
Variable random_uniform : nat -> Q -> Q -> Q.



End StandardLoop.



(** ** Leaving the A-B loop, loop mode *)



Section LoopMode.
Import AutoBardApp.
Variable random_uniform : nat -> Q -> Q -> Q.


End LoopMode.


